(** * observable-framework: login polling and project scaffolding

    A shallow embedding of [src/observableApiAuth.ts] (login, logout,
    whoami) and [src/create.ts] (validateRootPath, canWriteRecursive,
    recursiveCopyTemplate), with the properties of the specification
    stated and proved over it.

    Strings are JavaScript strings: sequences of UTF-16 code units, here
    [list N].  Effects injected through the [AuthEffects] and
    [CreateEffects] interfaces are modelled by scripted worlds that record
    every call. *)

From Stdlib Require Import NArith ZArith String Ascii Lia.
From stdpp Require Import base option list gmap.

Set Default Proof Using "Type".
Set Warnings "-register-all".

(* ================================================================= *)
(** * Part I: definitions                                             *)
(* ================================================================= *)

(** ** JavaScript strings and values *)

Abbreviation jsstring := (list N).

Module Js.

(** A string literal of the source, as code units. *)
Definition lit (s : string) : jsstring :=
  map N_of_ascii (list_ascii_of_string s).

Definition eqb (a b : jsstring) : bool := bool_decide (a = b).

(** [String.prototype.endsWith]. *)
Definition endsWith (s suffix : jsstring) : bool :=
  eqb (drop (length s - length suffix) s) suffix
  && bool_decide (length suffix <= length s).

(** [s.includes(t)]: [t] occurs in [s] as a contiguous run. *)
Definition includes (s t : jsstring) : Prop :=
  exists pre post, s = pre ++ t ++ post.

(** The regular expression class [\s] (WhiteSpace and LineTerminator of
    ECMAScript). *)
Definition is_space (c : N) : bool :=
  ((9 <=? c) && (c <=? 13) || (c =? 32) || (c =? 160) || (c =? 5760)
   || (8192 <=? c) && (c <=? 8202)
   || (c =? 8232) || (c =? 8233) || (c =? 8239) || (c =? 8287)
   || (c =? 12288) || (c =? 65279))%N.

(** The regular expression class [\w]: [A-Za-z0-9_]. *)
Definition is_word (c : N) : bool :=
  ((65 <=? c) && (c <=? 90) || (97 <=? c) && (c <=? 122)
   || (48 <=? c) && (c <=? 57) || (c =? 95))%N.

(** What a property read or a caught exception can hold. *)
Inductive Value :=
| VUndefined
| VString (s : jsstring)
| VFunction (name : jsstring)   (* a built-in function object *)
| VPrototypeObject.             (* the object [Object.prototype] *)

(** ToBoolean. *)
Definition truthy (v : Value) : bool :=
  match v with
  | VUndefined => false
  | VString s => negb (eqb s [])
  | VFunction _ | VPrototypeObject => true
  end.

(** ToString, as [replaceAll] applies it to what the replacer returns. *)
Definition toString (v : Value) : jsstring :=
  match v with
  | VUndefined => lit "undefined"
  | VString s => s
  | VFunction name => lit "function " ++ name ++ lit "() { [native code] }"
  | VPrototypeObject => lit "[object Object]"
  end.

(** The properties every ordinary object inherits from
    [Object.prototype] (ECMAScript 20.1.3 and Annex B.2.2). *)
Definition object_prototype_functions : list jsstring :=
  map lit
    ["constructor"; "__defineGetter__"; "__defineSetter__";
     "hasOwnProperty"; "__lookupGetter__"; "__lookupSetter__";
     "isPrototypeOf"; "propertyIsEnumerable"; "toString"; "valueOf";
     "toLocaleString"]%string.

Definition object_prototype_get (key : jsstring) : Value :=
  if eqb key (lit "__proto__") then VPrototypeObject
  else if bool_decide (key ∈ object_prototype_functions) then
    VFunction (if eqb key (lit "constructor") then lit "Object" else key)
  else VUndefined.

(** [obj[key]] on an object literal whose own properties are [own]: the
    own property, or else the one found on the prototype chain. *)
Definition get (own : gmap jsstring jsstring) (key : jsstring) : Value :=
  match own !! key with
  | Some s => VString s
  | None => object_prototype_get key
  end.

(** Modelled from the spec: the values thrown.  [CliError] and the errors
    that [isHttpError] recognizes are declared in error.js, outside
    [src]; [Error] is the built-in and [SystemError] what node's file
    system calls throw. *)
Inductive Error :=
| JsError (message : jsstring)                    (* new Error(message) *)
| CliError (message : jsstring)                   (* new CliError(message) *)
| HttpError (statusCode : Z) (message : jsstring) (* isHttpError(e) holds *)
| SystemError (code : jsstring).                  (* node: EACCES, EEXIST ... *)

End Js.

Export Js(lit).

(** ** Completions *)

(** How an evaluation ends: it returns a value or throws. *)
Inductive Result (A : Type) : Type :=
| Ok (a : A)
| Thrown (e : Js.Error).
Arguments Ok {A} a.
Arguments Thrown {A} e.

(** ** The template language of [recursiveCopyTemplate] *)

Module Template.
Import Js.

Fixpoint take_while (p : N -> bool) (s : jsstring) : jsstring :=
  match s with
  | c :: s' => if p c then c :: take_while p s' else []
  | [] => []
  end.

Fixpoint drop_while (p : N -> bool) (s : jsstring) : jsstring :=
  match s with
  | c :: s' => if p c then drop_while p s' else s
  | [] => []
  end.

(** One attempt of [/\{\{\s*(\w+)\s*\}\}/] at the head of [s]: the
    captured key and what follows the match.  The classes [\s] and
    [\w] and the closing brace are pairwise disjoint, so the greedy
    reading is the only one ([match_token_token], [match_token_inv]). *)
Definition match_after_open (s1 : jsstring) : option (jsstring * jsstring) :=
  let s2 := drop_while is_space s1 in                    (* \s* *)
  let key := take_while is_word s2 in                    (* (\w+) *)
  let s3 := drop_while is_space (drop_while is_word s2) in
  match key, s3 with
  | _ :: _, c3 :: c4 :: rest =>
      if (c3 =? 125)%N && (c4 =? 125)%N                  (* \}\} *)
      then Some (key, rest) else None
  | _, _ => None
  end.

Definition match_token (s : jsstring) : option (jsstring * jsstring) :=
  match s with
  | c1 :: c2 :: s1 =>
      if (c1 =? 123)%N && (c2 =? 123)%N                  (* \{\{ *)
      then match_after_open s1 else None
  | _ => None
  end.

(** [v] in front of what the rest of the scan produces. *)
Definition then_append (v : jsstring) (r : Result jsstring) : Result jsstring :=
  match r with
  | Thrown e => Thrown e
  | Ok out => Ok (v ++ out)
  end.

(** [contents.replaceAll(/\{\{\s*(\w+)\s*\}\}/g, replacer)]: scan from the
    left; at a match call the replacer on the captured key, append what
    it returns and resume after the match; elsewhere copy the code
    unit.  [skip] counts the code units of a match still to pass over.
    An exception thrown by the replacer ends the scan. *)
Fixpoint replaceAll_from (replacer : jsstring -> Result jsstring)
    (skip : nat) (s : jsstring) : Result jsstring :=
  match s with
  | [] => Ok []
  | c :: s' =>
      match skip with
      | S k => replaceAll_from replacer k s'
      | O =>
          match match_token s with
          | Some (key, rest) =>
              match replacer key with
              | Thrown e => Thrown e
              | Ok v =>
                  then_append v
                    (replaceAll_from replacer (length s' - length rest) s')
              end
          | None => then_append [c] (replaceAll_from replacer 0 s')
          end
      end
  end.

Definition replaceAll (replacer : jsstring -> Result jsstring)
    (s : jsstring) : Result jsstring :=
  replaceAll_from replacer 0 s.

(** The replacer of lines 174-178:
    [(_, key) => { const val = context[key]; if (val) return val;
                   throw new Error(`no template variable ${key}`); }] *)
Definition replacer (context : gmap jsstring jsstring) (key : jsstring)
    : Result jsstring :=
  let val := get context key in
  if truthy val then Ok (toString val)
  else Thrown (JsError (lit "no template variable " ++ key)).

(** Lines 173-178: the contents written for a [.tmpl] file. *)
Definition render (context : gmap jsstring jsstring) (contents : jsstring)
    : Result jsstring :=
  replaceAll (replacer context) contents.

(** A key that the context does not resolve: it has no own mapping and
    names nothing on [Object.prototype], or it maps to the empty
    string. *)
Definition unresolved (context : gmap jsstring jsstring) (key : jsstring) : Prop :=
  (context !! key = None /\ object_prototype_get key = VUndefined)
  \/ context !! key = Some [].

(** A placeholder as it is written in a template: [{{], blanks, the
    key, blanks, [}}]. *)
Definition token (ws1 key ws2 : jsstring) : jsstring :=
  lit "{{" ++ ws1 ++ key ++ ws2 ++ lit "}}".

Definition blank (ws : jsstring) : Prop :=
  Forall (fun c => is_space c = true) ws.

Definition identifier (key : jsstring) : Prop :=
  Forall (fun c => is_word c = true) key /\ key <> [].

(** The text holds two opening braces in a row somewhere. *)
Definition opens_token (s : jsstring) : Prop :=
  exists pre post, s = pre ++ 123%N :: 123%N :: post.

End Template.

(** ** [node:path]

    The functions of node's [path] module that [create.ts] imports, in
    their POSIX flavour. *)

Module Path.
Import Js.

Definition is_slash (c : N) : bool := (c =? 47)%N.
Definition not_slash (c : N) : bool := negb (c =? 47)%N.

(** [path.dirname]: scanning from the right (never looking at index 0),
    pass the trailing slashes, pass the last segment, and cut at the
    slash found there. *)
Definition dirname (path : jsstring) : jsstring :=
  match path with
  | [] => lit "."
  | c0 :: tl =>
      let hasRoot := is_slash c0 in
      match Template.drop_while not_slash
              (Template.drop_while is_slash (rev tl)) with
      | [] => if hasRoot then lit "/" else lit "."
      | _ :: before =>
          if hasRoot && bool_decide (before = []) then lit "//"
          else c0 :: rev before
      end
  end.

(** [dir] is reached from [path] by taking [dirname] once or more: the
    directories [canWriteRecursive] may look at. *)
Inductive ancestor : jsstring -> jsstring -> Prop :=
| ancestor_parent path : ancestor (dirname path) path
| ancestor_further dir path : ancestor dir (dirname path) -> ancestor dir path.

(** What strictly decreases along the [dirname] chain, up to its fixed
    points ["."] and ["/"]. *)
Definition weight (path : jsstring) : nat :=
  match path with
  | [] => 3
  | _ => 2 * length path
         + (if eqb path (lit ".") || eqb path (lit "/") then 0 else 1)
  end.

(** What [readdir] lists: the name of a directory entry is not empty,
    has no slash in it, and is neither ["."] nor [".."]. *)
Definition entry_name (name : jsstring) : Prop :=
  name <> [] /\ Forall (fun c => is_slash c = false) name
  /\ name <> lit "." /\ name <> lit "..".

(** A text that is empty or ends with a slash: what may stand in front
    of the last segment of a path. *)
Definition up_to_slash (prefix : jsstring) : Prop :=
  prefix = [] \/ exists before, prefix = before ++ [47%N].

(** The segments of a path, split at every slash. *)
Fixpoint split (path : jsstring) : list jsstring :=
  match path with
  | [] => [[]]
  | c :: path' =>
      if is_slash c then [] :: split path'
      else match split path' with
           | seg :: segs => (c :: seg) :: segs
           | [] => [[c]]
           end
  end.

(** One step of [normalizeString]; [res] holds the segments kept so far,
    the last one first. *)
Definition normalize_step (allowAboveRoot : bool) (res : list jsstring)
    (seg : jsstring) : list jsstring :=
  if eqb seg [] || eqb seg (lit ".") then res
  else if eqb seg (lit "..") then
    match res with
    | last :: res' =>
        if eqb last (lit "..") then
          (if allowAboveRoot then lit ".." :: res else res)
        else res'
    | [] => if allowAboveRoot then [lit ".."] else []
    end
  else seg :: res.

Fixpoint join_segments (segs : list jsstring) : jsstring :=
  match segs with
  | [] => []
  | [seg] => seg
  | seg :: segs' => seg ++ 47%N :: join_segments segs'
  end.

Definition normalizeString (path : jsstring) (allowAboveRoot : bool)
    : jsstring :=
  join_segments (rev (fold_left (normalize_step allowAboveRoot) (split path) [])).

(** [path.normalize]. *)
Definition normalize (path : jsstring) : jsstring :=
  match path with
  | [] => lit "."
  | c0 :: _ =>
      let isAbsolute := is_slash c0 in
      let trailingSeparator :=
        match last path with Some c => is_slash c | None => false end in
      let path' := normalizeString path (negb isAbsolute) in
      match path' with
      | [] =>
          if isAbsolute then lit "/"
          else if trailingSeparator then lit "./" else lit "."
      | _ =>
          let path'' := if trailingSeparator then path' ++ lit "/" else path' in
          if isAbsolute then 47%N :: path'' else path''
      end
  end.

(** [path.basename(path)]: the last segment, trailing slashes passed
    over; empty when the path has no segment. *)
Definition basename (path : jsstring) : jsstring :=
  rev (Template.take_while not_slash (Template.drop_while is_slash (rev path))).

(** What [normalize] puts in front of a name that follows [before] and
    a slash. *)
Definition normalized_prefix (before : jsstring) : jsstring :=
  let absolute := match before with c0 :: _ => is_slash c0 | [] => true end in
  (if absolute then [47%N] else [])
  ++ match rev (fold_left (normalize_step (negb absolute)) (split before) []) with
     | [] => []
     | segs => join_segments segs ++ [47%N]
     end.

(** The directories above the working directory: [".."], ["../.."],
    and so on. *)
Fixpoint above (k : nat) : jsstring :=
  match k with
  | O => [46; 46]%N
  | S k' => [46; 46; 47]%N ++ above k'
  end.

(** What [join(root, ...)] puts in front of a relative path made of
    names: the normalized root and a slash, or nothing. *)
Definition root_prefix (root : jsstring) : jsstring :=
  match root with
  | [] => []
  | _ => normalized_prefix root
  end.

(** [path.join(a, b)]: the non-empty arguments joined by a slash, then
    normalized; ["."] when both are empty. *)
Definition join (a b : jsstring) : jsstring :=
  match a, b with
  | [], [] => lit "."
  | [], _ => normalize b
  | _, [] => normalize a
  | _, _ => normalize (a ++ 47%N :: b)
  end.

End Path.

(** ** [src/create.ts] *)

Module Create.
Import Js.

(** *** Path validation (lines 126-148) *)

(** The synchronous file-system calls of [validateRootPath] and
    [canWriteRecursive], as the file system answers them. *)
Record SyncFs := {
  (* accessSync(path, constants.W_OK): [None] when it returns *)
  accessSync_W_OK : jsstring -> option Error;
  existsSync : jsstring -> bool;
  (* statSync(path).isDirectory() *)
  statSync_isDirectory : jsstring -> Result bool;
  readdirSync : jsstring -> Result (list jsstring)
}.

(** Whether some directory up the [dirname] chain of [path] can be
    written. *)
Definition writable_ancestor (fs : SyncFs) (path : jsstring) : Prop :=
  exists dir, Path.ancestor dir path /\ accessSync_W_OK fs dir = None.

(** The [while (true)] loop of [canWriteRecursive]; [fuel] bounds the
    number of iterations, [None] when it is used up. *)
Fixpoint canWriteRecursive_loop (fuel : nat) (fs : SyncFs)
    (rootPath : jsstring) : option bool :=
  match fuel with
  | O => None
  | S fuel' =>
      let dir := Path.dirname rootPath in
      match accessSync_W_OK fs dir with
      | None => Some true
      | Some _ =>                       (* catch: try parent *)
          if eqb dir rootPath then Some false
          else canWriteRecursive_loop fuel' fs dir
      end
  end.

(** Every iteration but the last shortens the path or reaches ["."],
    so this many iterations are enough ([canWriteRecursive_total]). *)
Definition canWriteRecursive (fs : SyncFs) (rootPath : jsstring)
    : option bool :=
  canWriteRecursive_loop (2 * length rootPath + 4) fs rootPath.

(** [validateRootPath]: [Ok None] accepts the path ([return;]),
    [Ok (Some message)] rejects it; the outer [None] is
    [canWriteRecursive] out of fuel. *)
Definition validateRootPath (fs : SyncFs) (rootPath : jsstring)
    : option (Result (option jsstring)) :=
  if eqb rootPath [] then Some (Ok None)       (* accept default value *)
  else
    let rootPath := Path.normalize rootPath in
    match canWriteRecursive fs rootPath with
    | None => None
    | Some false => Some (Ok (Some (lit "Path is not writable.")))
    | Some true =>
        Some
          (if negb (existsSync fs rootPath) then Ok None
           else
             match statSync_isDirectory fs rootPath with
             | Thrown e => Thrown e
             | Ok false => Ok (Some (lit "File already exists."))
             | Ok true =>
                 match readdirSync fs rootPath with
                 | Thrown e => Thrown e
                 | Ok entries =>
                     if negb (length entries =? 0)
                     then Ok (Some (lit "Directory is not empty."))
                     else Ok None
                 end
             end)
    end.

(** A file system in which the working directory is writable and
    already holds a directory [hello-framework] with one file in it. *)
Definition project_exists : SyncFs :=
  {| accessSync_W_OK := fun path =>
       if eqb path (lit ".") then None else Some (SystemError (lit "ENOENT"));
     existsSync := fun path => eqb path (lit "hello-framework");
     statSync_isDirectory := fun path =>
       if eqb path (lit "hello-framework") then Ok true
       else Thrown (SystemError (lit "ENOENT"));
     readdirSync := fun path =>
       if eqb path (lit "hello-framework") then Ok [lit "README.md"]
       else Thrown (SystemError (lit "ENOENT")) |}.

(** Following the words of the specification (section 4.5, "no
    writable ancestor directory"), not the code: the directory that
    holds [path] is [join(path, "..")], so the parent of ["a/b"] is
    ["a"], that of ["a"] is ["."], that of ["."] is [".."] and that of
    [".."] is ["../.."]. *)
Definition parent_directory (path : jsstring) : jsstring :=
  Path.join path (lit "..").

(** The ancestor directories of [path]: its parent directory, the
    parent of that, and so on. *)
Inductive ancestor_directory : jsstring -> jsstring -> Prop :=
| ancestor_directory_parent path :
    ancestor_directory (parent_directory path) path
| ancestor_directory_further dir path :
    ancestor_directory dir (parent_directory path) ->
    ancestor_directory dir path.

(** The specification's "a writable ancestor directory exists". *)
Definition writable_ancestor_directory (fs : SyncFs) (path : jsstring) : Prop :=
  exists dir,
    ancestor_directory dir path
    /\ statSync_isDirectory fs dir = Ok true
    /\ accessSync_W_OK fs dir = None.

(** A file system in which the working directory is writable and empty,
    and none of the directories above it can be written or listed. *)
Definition only_here_writable : SyncFs :=
  {| accessSync_W_OK := fun path =>
       if eqb path (lit ".") then None else Some (SystemError (lit "EACCES"));
     existsSync := fun path =>
       eqb path (lit ".")
       || forallb (fun seg => eqb seg (lit "..")) (Path.split path);
     statSync_isDirectory := fun path =>
       if eqb path (lit ".")
          || forallb (fun seg => eqb seg (lit "..")) (Path.split path)
       then Ok true else Thrown (SystemError (lit "ENOENT"));
     readdirSync := fun path =>
       if eqb path (lit ".") then Ok []
       else Thrown (SystemError (lit "EACCES")) |}.

(** *** Template materialization (lines 150-184) *)

(** The template tree as [stat], [readdir] and [readFile] see it. *)
Inductive Node :=
| File (contents : jsstring)
| Directory (entries : list (jsstring * Node)).

(** A call made through the [CreateEffects] interface. *)
Inductive Call :=
| Mkdir (outputPath : jsstring) (recursive : bool)
| CopyFile (sourcePath outputPath : jsstring)
| WriteFile (outputPath contents : jsstring).

(** The injected effects of [recursiveCopyTemplate].  Whether a call
    throws may depend on every call made before it; [None] means the
    promise resolves. *)
Record CreateEffects := {
  mkdir : list Call -> jsstring -> bool -> option Error;
  copyFile : list Call -> jsstring -> jsstring -> option Error;
  writeFile : list Call -> jsstring -> jsstring -> option Error
}.

Definition completion (thrown : option Error) : Result unit :=
  match thrown with
  | None => Ok tt
  | Some e => Thrown e
  end.

(** [await effects.f(...)]: the call is recorded, then it resolves or
    throws. *)
Definition call_mkdir (fx : CreateEffects) (outputPath : jsstring)
    (recursive : bool) (calls : list Call) : Result unit * list Call :=
  (completion (mkdir fx calls outputPath recursive),
   calls ++ [Mkdir outputPath recursive]).

Definition call_copyFile (fx : CreateEffects) (sourcePath outputPath : jsstring)
    (calls : list Call) : Result unit * list Call :=
  (completion (copyFile fx calls sourcePath outputPath),
   calls ++ [CopyFile sourcePath outputPath]).

Definition call_writeFile (fx : CreateEffects) (outputPath contents : jsstring)
    (calls : list Call) : Result unit * list Call :=
  (completion (writeFile fx calls outputPath contents),
   calls ++ [WriteFile outputPath contents]).

(** [outputPath.replace(/\.tmpl$/, "")]. *)
Definition strip_tmpl (outputPath : jsstring) : jsstring :=
  if endsWith outputPath (lit ".tmpl")
  then take (length outputPath - 5) outputPath
  else outputPath.

(** [recursiveCopyTemplate(inputRoot, outputRoot, context, effects,
    stepPath)], where [node] is what lies at [join(inputRoot, stepPath)]
    in the template tree. *)
Fixpoint recursiveCopyTemplate (fx : CreateEffects)
    (inputRoot outputRoot : jsstring) (context : gmap jsstring jsstring)
    (node : Node) (stepPath : jsstring) (calls : list Call)
    : Result unit * list Call :=
  let templatePath := Path.join inputRoot stepPath in
  let outputPath := Path.join outputRoot stepPath in
  match node with
  | Directory entries =>
      (* try { await effects.mkdir(outputPath, {recursive: true}) } catch {} *)
      let calls1 := snd (call_mkdir fx outputPath true calls) in
      (fix each (entries : list (jsstring * Node)) (calls : list Call) :=
         match entries with
         | [] => (Ok tt, calls)
         | (entry, child) :: entries' =>
             match recursiveCopyTemplate fx inputRoot outputRoot context
                     child (Path.join stepPath entry) calls with
             | (Ok _, calls') => each entries' calls'
             | (Thrown e, calls') => (Thrown e, calls')
             end
         end) entries calls1
  | File contents =>
      if endsWith templatePath (lit ".DS_Store") then (Ok tt, calls)
      else if endsWith templatePath (lit ".tmpl") then
        let outputPath := strip_tmpl outputPath in
        match Template.render context contents with
        | Thrown e => (Thrown e, calls)
        | Ok contents' => call_writeFile fx outputPath contents' calls
        end
      else call_copyFile fx templatePath outputPath calls
  end.

(** The [for] loop over [readdir(templatePath)] (lines 166-168). *)
Fixpoint copy_entries (fx : CreateEffects)
    (inputRoot outputRoot : jsstring) (context : gmap jsstring jsstring)
    (stepPath : jsstring) (entries : list (jsstring * Node))
    (calls : list Call) : Result unit * list Call :=
  match entries with
  | [] => (Ok tt, calls)
  | (entry, child) :: entries' =>
      match recursiveCopyTemplate fx inputRoot outputRoot context
              child (Path.join stepPath entry) calls with
      | (Ok _, calls') =>
          copy_entries fx inputRoot outputRoot context stepPath entries' calls'
      | (Thrown e, calls') => (Thrown e, calls')
      end
  end.

(** The same effects, but for a [mkdir] that never throws. *)
Definition with_quiet_mkdir (fx : CreateEffects) : CreateEffects :=
  {| mkdir := fun _ _ _ => None;
     copyFile := copyFile fx;
     writeFile := writeFile fx |}.

(** A [mkdir] that always fails with [EACCES]. *)
Definition mkdir_denied : CreateEffects :=
  {| mkdir := fun _ _ _ => Some (SystemError (lit "EACCES"));
     copyFile := fun _ _ _ => None;
     writeFile := fun _ _ _ => None |}.

(** Effects that never throw. *)
Definition quiet : CreateEffects :=
  {| mkdir := fun _ _ _ => None;
     copyFile := fun _ _ _ => None;
     writeFile := fun _ _ _ => None |}.

(** The path a call creates or writes. *)
Definition output_of (call : Call) : jsstring :=
  match call with
  | Mkdir outputPath _ => outputPath
  | CopyFile _ outputPath => outputPath
  | WriteFile outputPath _ => outputPath
  end.

(** A path below the output root: what [join(outputRoot, ...)] puts in
    front of a relative path, then one or more names of directory
    entries, joined by slashes; no segment of it is empty, ["."] or
    [".."]. *)
Definition below_root (outputRoot path : jsstring) : Prop :=
  exists names,
    names <> [] /\ Forall Path.entry_name names
    /\ path = Path.root_prefix outputRoot ++ Path.join_segments names.

(** A tree as [readdir] lists it, with no file named [.tmpl], [..tmpl]
    or [...tmpl]: every name in it is the name of a directory entry, and
    so is the name of a file once a final [.tmpl] is dropped. *)
Fixpoint well_named (node : Node) : Prop :=
  match node with
  | File _ => True
  | Directory entries =>
      (fix all (entries : list (jsstring * Node)) : Prop :=
         match entries with
         | [] => True
         | (name, child) :: entries' =>
             Path.entry_name name
             /\ match child with
                | File _ => Path.entry_name (strip_tmpl name)
                | Directory _ => True
                end
             /\ well_named child /\ all entries'
         end) entries
  end.

(** A template directory in which a template that cannot be rendered
    stands between two plain files. *)
Definition broken_template : Node :=
  Directory [(lit "a.md", File (lit "first"));
             (lit "b.md.tmpl", File (lit "{{ missing }}"));
             (lit "c.md", File (lit "last"))].

End Create.

(** ** [src/observableApiAuth.ts] *)

Module Auth.
Import Js.

(** What the file imports from modules outside [src]: the terminal
    styling of [./tty.js], [commandInstruction], and the host and the
    device-confirmation URL derived from [getObservableUiOrigin()]. *)
Record Imports := {
  bold : jsstring -> jsstring;
  green : jsstring -> jsstring;
  inverse : jsstring -> jsstring;
  yellow : jsstring -> jsstring;
  link : jsstring -> jsstring;
  commandInstruction : jsstring -> jsstring;
  (* OBSERVABLE_UI_ORIGIN.hostname *)
  hostname : jsstring;
  (* new URL("/auth-device", OBSERVABLE_UI_ORIGIN), with ?code=<code> *)
  confirmUrl : jsstring -> jsstring
}.

(** [{id, key}], the argument of [setObservableApiKey]. *)
Record KeyPair := { id : jsstring; key : jsstring }.

(** The [apiKey] member of a poll response as [login] tests it:
    [=== null] at line 52 and [!apiKey] at line 73. *)
Inductive ApiKeyField :=
| KNull
| KUndefined
| KPair (info : KeyPair).

(** Modelled from the spec: [PostAuthRequestPollResponse], declared in
    observableApiClient.ts: a status tag plus, on acceptance, [{id, key}]. *)
Record PollResponse := { status : jsstring; apiKey : ApiKeyField }.

(** Modelled from the spec: the answer of [postAuthRequest],
    [{id, confirmationCode}]. *)
Record AuthRequest := { requestId : jsstring; confirmationCode : jsstring }.

(** Modelled from the spec: a user or workspace, [{name?, login}]. *)
Record Account := { name : option jsstring; login_ : jsstring }.

(** Modelled from the spec: the answer of [getCurrentUser],
    [{login, name?, workspaces}]. *)
Record User := { account : Account; workspaces : list Account }.

(** Modelled from the spec: [ApiKey], declared in observableApiConfig.ts:
    [{key, source: "login"|"env"|"file", envVar?}]. *)
Record ApiKey := {
  source : jsstring;
  apiKey_key : jsstring;
  envVar : option jsstring
}.

(** [formatUser] (lines 128-130). *)
Definition formatUser (user : Account) : jsstring :=
  match name user with
  | Some n =>
      if eqb n [] then lit "@" ++ login_ user
      else n ++ lit " (@" ++ login_ user ++ lit ")"
  | None => lit "@" ++ login_ user
  end.

(** [${x}] for a member that may be absent. *)
Definition interpolate (x : option jsstring) : jsstring :=
  match x with
  | Some s => s
  | None => lit "undefined"
  end.

(** [lines.join("\n")]. *)
Fixpoint join_lines (lines : list jsstring) : jsstring :=
  match lines with
  | [] => []
  | [l] => l
  | l :: lines' => l ++ 10%N :: join_lines lines'
  end.

(** Everything the three commands do to their environment, in order.
    A poll is recorded with what it answered. *)
Inductive Event :=
| ClackIntro (message : jsstring)
| ClackLogStep (message : jsstring)
| ClackLogWarn (message : jsstring)
| ClackNote (message : jsstring)
| ClackOutro (message : jsstring)
| SpinnerStart (message : jsstring)
| SpinnerStop (message : jsstring) (code : option Z)
| PostAuthRequest (scopes : list jsstring)
| PostAuthRequestPoll (requestId : jsstring) (answer : Result PollResponse)
| Sleep (ms : Z)
| SetObservableApiKey (info : option KeyPair)
| GetObservableApiKey
| SetApiKey (source key : jsstring)
| GetCurrentUser (key : jsstring)
| LoggerLog (line : jsstring).

(** The remote service and the configuration, as scripted answers. *)
Record World := {
  postAuthRequest : Result AuthRequest;
  (* the answers of the successive polls *)
  postAuthRequestPoll : list (Result PollResponse);
  (* the user endpoint, by API key *)
  getCurrentUser : jsstring -> Result User;
  (* effects.getObservableApiKey, given what the store holds *)
  getObservableApiKey : option KeyPair -> Result ApiKey
}.

Record State := {
  events : list Event;
  (* the credential store *)
  credentials : option KeyPair
}.

Definition emit (e : Event) (st : State) : State :=
  {| events := events st ++ [e]; credentials := credentials st |}.

(** Modelled from the spec: [setObservableApiKey] of
    observableApiConfig.ts, the store's [set(key|null)]: the store holds
    what was written last, [null] erases, and the write does not fail. *)
Definition setObservableApiKey (info : option KeyPair) (st : State) : State :=
  {| events := events st ++ [SetObservableApiKey info];
     credentials := info |}.

(** How a command ends.  [Waiting]: the scripted answers are used up
    while the polling loop is still to poll again. *)
Inductive Outcome :=
| Completed
| Failed (e : Error)
| Waiting.

(** How the polling loop (lines 52-71) ends. *)
Inductive LoopExit :=
| LoopDone (apiKey : ApiKeyField)   (* apiKey !== null *)
| LoopThrew (e : Error)
| LoopWaiting.

(** The body of the [switch] (lines 54-69): the new value of the
    variable [apiKey], which is [null] when the body is entered, or the
    exception thrown after [spinner.stop]. *)
Definition poll_switch (requestPoll : PollResponse) (st : State)
    : Result ApiKeyField * State :=
  if eqb (status requestPoll) (lit "pending") then (Ok KNull, st)
  else if eqb (status requestPoll) (lit "accepted") then
    (Ok (apiKey requestPoll), st)
  else if eqb (status requestPoll) (lit "expired") then
    (Thrown (CliError (lit "That confirmation code expired.")),
     emit (SpinnerStop (lit "Failed to confirm code.") (Some 2%Z)) st)
  else if eqb (status requestPoll) (lit "consumed") then
    (Thrown (CliError (lit "That confirmation code has already been used.")),
     emit (SpinnerStop (lit "Failed to confirm code.") (Some 2%Z)) st)
  else
    (Thrown (CliError (lit "Received an unknown polling status "
                        ++ status requestPoll ++ lit ".")),
     emit (SpinnerStop (lit "Failed to confirm code.") (Some 2%Z)) st).

(** [while (apiKey === null) { poll; switch; sleep 1000 }], one
    iteration per scripted answer. *)
Fixpoint poll_loop (requestId : jsstring)
    (answers : list (Result PollResponse)) (st : State)
    : LoopExit * State :=
  match answers with
  | [] => (LoopWaiting, st)
  | answer :: answers' =>
      let st := emit (PostAuthRequestPoll requestId answer) st in
      match answer with
      | Thrown e => (LoopThrew e, st)
      | Ok requestPoll =>
          match poll_switch requestPoll st with
          | (Thrown e, st) => (LoopThrew e, st)
          | (Ok apiKey, st) =>
              let st := emit (Sleep 1000) st in
              match apiKey with
              | KNull => poll_loop requestId answers' st
              | _ => (LoopDone apiKey, st)
              end
          end
      end
  end.

(** [isHttpError(error) && error.statusCode == 401]. *)
Definition is_http_401 (error : Error) : bool :=
  match error with
  | HttpError statusCode _ => (statusCode =? 401)%Z
  | _ => false
  end.

Section Commands.
Context (imports : Imports) (world : World).

(** Lines 76-91, after the key is stored. *)
Definition login_finish (info : KeyPair) (st : State) : Outcome * State :=
  let st := emit (SetApiKey (lit "login") (key info)) st in
  let st := emit (GetCurrentUser (key info)) st in
  match getCurrentUser world (key info) with
  | Thrown e => (Failed e, st)
  | Ok user =>
      let st :=
        emit (SpinnerStop
                (lit "You are logged into " ++ hostname imports ++ lit " as "
                 ++ formatUser (account user) ++ lit ".") None) st in
      let st :=
        if length (workspaces user) =? 0 then
          emit (ClackLogWarn
                  (yellow imports (lit "Warning:")
                   ++ lit " You don't have any workspaces to deploy to.")) st
        else if 1 <? length (workspaces user) then
          emit (ClackNote
                  (join_lines
                     (lit "You have access to the following workspaces:"
                      :: [] :: map (fun workspace =>
                                      lit " * " ++ formatUser workspace)
                                   (workspaces user)))) st
        else st in
      (* U+1F389, as its two surrogates, opens the message *)
      (Completed, emit (ClackOutro ([55356; 57225]%N ++ lit " Happy visualizing!")) st)
  end.

(** [login] (lines 36-92). *)
Definition login (st : State) : Outcome * State :=
  let st := emit (ClackIntro (green imports (inverse imports (lit " observable login ")))) st in
  let st := emit (PostAuthRequest [lit "projects:deploy"; lit "projects:create"]) st in
  match postAuthRequest world with
  | Thrown e => (Failed e, st)
  | Ok requestInfo =>
      let st :=
        emit (ClackLogStep
                (lit "Your confirmation code is "
                 ++ bold imports (yellow imports (confirmationCode requestInfo))
                 ++ 10%N :: lit "Open "
                 ++ link imports (confirmUrl imports (confirmationCode requestInfo))
                 ++ 10%N :: lit "in your browser, and confirm the code matches.")) st in
      let st := emit (SpinnerStart (lit "Waiting for confirmation...")) st in
      match poll_loop (requestId requestInfo) (postAuthRequestPoll world) st with
      | (LoopWaiting, st) => (Waiting, st)
      | (LoopThrew e, st) => (Failed e, st)
      | (LoopDone apiKey, st) =>
          match apiKey with
          | KPair info =>
              login_finish info (setObservableApiKey (Some info) st)
          | _ =>                                    (* if (!apiKey) *)
              (Failed (CliError (lit "No API key returned from server.")), st)
          end
      end
  end.

(** [logout] (lines 94-96). *)
Definition logout (st : State) : Outcome * State :=
  (Completed, setObservableApiKey None st).

(** The [catch] clause of [whoami] (lines 113-125). *)
Definition whoami_catch (apiKey : ApiKey) (error : Error) (st : State)
    : Outcome * State :=
  if is_http_401 error then
      if eqb (source apiKey) (lit "env") then
        (Completed,
         emit (LoggerLog (lit "Your API key is invalid. Check the value of the "
                          ++ interpolate (envVar apiKey)
                          ++ lit " environment variable.")) st)
      else if eqb (source apiKey) (lit "file") then
        (Completed,
         emit (LoggerLog (lit "Your API key is invalid. Run "
                          ++ commandInstruction imports (lit "login")
                          ++ lit " to log in again.")) st)
      else
        (Completed, emit (LoggerLog (lit "Your API key is invalid.")) st)
  else (Failed error, st).                           (* throw error *)

(** [whoami] (lines 98-126). *)
Definition whoami (st : State) : Outcome * State :=
  let st := emit GetObservableApiKey st in
  match getObservableApiKey world (credentials st) with
  | Thrown e => (Failed e, st)
  | Ok apiKey =>
      let st := emit (GetCurrentUser (apiKey_key apiKey)) st in
      match getCurrentUser world (apiKey_key apiKey) with
      | Ok user =>
          let st := emit (LoggerLog []) st in
          let st :=
            emit (LoggerLog
                    (lit "You are logged into " ++ hostname imports ++ lit " as "
                     ++ formatUser (account user) ++ lit ".")) st in
          let st := emit (LoggerLog []) st in
          let st := emit (LoggerLog (lit "You have access to the following workspaces:")) st in
          let st :=
            fold_left (fun st workspace =>
                         emit (LoggerLog (lit " * " ++ formatUser workspace)) st)
                      (workspaces user) st in
          (Completed, emit (LoggerLog []) st)
      | Thrown error => whoami_catch apiKey error st
      end
  end.

End Commands.

(** *** Reading a run *)

Definition emit_all (evs : list Event) (st : State) : State :=
  {| events := events st ++ evs; credentials := credentials st |}.

(** The credential-store writes among the events, in order. *)
Definition writes (evs : list Event) : list (option KeyPair) :=
  omap (fun e => match e with SetObservableApiKey info => Some info | _ => None end) evs.

(** The answers of the polls among the events, in order. *)
Definition polled (evs : list Event) : list (Result PollResponse) :=
  omap (fun e => match e with PostAuthRequestPoll _ answer => Some answer | _ => None end) evs.

(** The key pair of an answer [{status: "accepted", apiKey: {id, key}}]. *)
Definition accepted_pair (answer : Result PollResponse) : option KeyPair :=
  match answer with
  | Ok requestPoll =>
      if eqb (status requestPoll) (lit "accepted") then
        match apiKey requestPoll with
        | KPair info => Some info
        | _ => None
        end
      else None
  | Thrown _ => None
  end.

Definition accepted_pairs (evs : list Event) : list KeyPair :=
  omap accepted_pair (polled evs).

Definition pending (requestPoll : PollResponse) : Prop :=
  status requestPoll = lit "pending".

(** One poll answered [pending], and the sleep that follows it. *)
Definition pending_round (requestId : jsstring) (requestPoll : PollResponse)
    : list Event :=
  [PostAuthRequestPoll requestId (Ok requestPoll); Sleep 1000].

Definition failed_to_confirm : Event :=
  SpinnerStop (lit "Failed to confirm code.") (Some 2%Z).

(** The terminal statuses of the specification (4.1): the answer, how
    the loop is to end on it, and what the loop does after that poll. *)
Inductive terminal : PollResponse -> LoopExit -> list Event -> Prop :=
| terminal_accepted info :
    terminal {| status := lit "accepted"; apiKey := KPair info |}
             (LoopDone (KPair info)) [Sleep 1000]
| terminal_expired apiKey :
    terminal {| status := lit "expired"; apiKey := apiKey |}
             (LoopThrew (CliError (lit "That confirmation code expired.")))
             [failed_to_confirm]
| terminal_consumed apiKey :
    terminal {| status := lit "consumed"; apiKey := apiKey |}
             (LoopThrew (CliError (lit "That confirmation code has already been used.")))
             [failed_to_confirm]
| terminal_unknown raw apiKey :
    raw ∉ [lit "pending"; lit "accepted"; lit "expired"; lit "consumed"] ->
    terminal {| status := raw; apiKey := apiKey |}
             (LoopThrew (CliError (lit "Received an unknown polling status "
                                   ++ raw ++ lit ".")))
             [failed_to_confirm].

(** What [login] does up to the polling loop, once the request is
    answered. *)
Definition opening (imports : Imports) (requestInfo : AuthRequest) : list Event :=
  [ClackIntro (green imports (inverse imports (lit " observable login ")));
   PostAuthRequest [lit "projects:deploy"; lit "projects:create"];
   ClackLogStep
     (lit "Your confirmation code is "
      ++ bold imports (yellow imports (confirmationCode requestInfo))
      ++ 10%N :: lit "Open "
      ++ link imports (confirmUrl imports (confirmationCode requestInfo))
      ++ 10%N :: lit "in your browser, and confirm the code matches.");
   SpinnerStart (lit "Waiting for confirmation...")].

Definition initial : State := {| events := []; credentials := None |}.

(** A service that answers [pending] once and then [revoked]. *)
Definition revoked_after_one_pending : World :=
  {| postAuthRequest :=
       Ok {| requestId := lit "request-1"; confirmationCode := lit "ABCD1234" |};
     postAuthRequestPoll :=
       [Ok {| status := lit "pending"; apiKey := KNull |};
        Ok {| status := lit "revoked"; apiKey := KNull |}];
     getCurrentUser := fun _ => Thrown (HttpError 401 (lit "Unauthorized"));
     getObservableApiKey := fun _ => Thrown (JsError (lit "not authenticated")) |}.

(** A configuration whose key comes from the environment, and a
    service that refuses it. *)
Definition key_from_env : World :=
  {| postAuthRequest := Thrown (HttpError 500 (lit "Internal Server Error"));
     postAuthRequestPoll := [];
     getCurrentUser := fun _ => Thrown (HttpError 401 (lit "Unauthorized"));
     getObservableApiKey := fun _ =>
       Ok {| source := lit "env"; apiKey_key := lit "stale";
             envVar := Some (lit "OBSERVABLE_TOKEN") |} |}.

(** Imports that style nothing. *)
Definition plain : Imports :=
  {| bold := fun s => s; green := fun s => s; inverse := fun s => s;
     yellow := fun s => s; link := fun s => s;
     commandInstruction := fun command => lit "observable " ++ command;
     hostname := lit "observablehq.com";
     confirmUrl := fun code => lit "https://observablehq.com/auth-device?code=" ++ code |}.

(** The sleeps among the events, in order. *)
Definition sleeps (evs : list Event) : list Z :=
  omap (fun e => match e with Sleep ms => Some ms | _ => None end) evs.

(** The request ids the polls among the events were made with. *)
Definition poll_ids (evs : list Event) : list jsstring :=
  omap (fun e => match e with PostAuthRequestPoll requestId _ => Some requestId | _ => None end) evs.

(** An answer after which the loop polls again: the variable [apiKey]
    is still [null] (lines 52-57). *)
Definition polls_again (answer : Result PollResponse) : bool :=
  match answer with
  | Ok requestPoll =>
      eqb (status requestPoll) (lit "pending")
      || (eqb (status requestPoll) (lit "accepted")
          && match apiKey requestPoll with KNull => true | _ => false end)
  | Thrown _ => false
  end.

(** The answers up to and with the first one that ends the loop. *)
Fixpoint polls_before_exit (answers : list (Result PollResponse)) : nat :=
  match answers with
  | [] => 0
  | answer :: answers' =>
      if polls_again answer then S (polls_before_exit answers') else 1
  end.

(** One turn of the loop that does not throw: the poll, then the pause
    of line 70. *)
Definition poll_round (requestId : jsstring) (answer : Result PollResponse)
    : list Event :=
  [PostAuthRequestPoll requestId answer; Sleep 1000].

(** The polls [login] makes in a world: none when the request fails,
    else the answers up to and with the first that ends the loop. *)
Definition asked (world : World) : list (Result PollResponse) :=
  match postAuthRequest world with
  | Ok _ =>
      take (polls_before_exit (postAuthRequestPoll world))
        (postAuthRequestPoll world)
  | Thrown _ => []
  end.

(** A service that accepts the code at the second poll, and whose user
    endpoint is down. *)
Definition accepted_then_down : World :=
  {| postAuthRequest :=
       Ok {| requestId := lit "request-1"; confirmationCode := lit "ABCD1234" |};
     postAuthRequestPoll :=
       [Ok {| status := lit "pending"; apiKey := KNull |};
        Ok {| status := lit "accepted";
              apiKey := KPair {| id := lit "1"; key := lit "secret" |} |}];
     getCurrentUser := fun _ => Thrown (HttpError 503 (lit "Service Unavailable"));
     getObservableApiKey := fun _ => Thrown (JsError (lit "not authenticated")) |}.

(** A configuration whose key comes from the file, and a user with two
    workspaces. *)
Definition two_workspaces : World :=
  {| postAuthRequest := Thrown (HttpError 500 (lit "Internal Server Error"));
     postAuthRequestPoll := [];
     getCurrentUser := fun _ =>
       Ok {| account := {| name := Some (lit "Ada"); login_ := lit "ada" |};
             workspaces :=
               [{| name := Some (lit "Ada"); login_ := lit "ada" |};
                {| name := None; login_ := lit "acme" |}] |};
     getObservableApiKey := fun _ =>
       Ok {| source := lit "file"; apiKey_key := lit "secret"; envVar := None |} |}.

End Auth.

(** ** The rest of [src/create.ts] *)

Module Scaffold.
Import Js Create.

(** [s.split(sep)] for a separator of one code unit. *)
Fixpoint split_on (sep : N) (s : jsstring) : list jsstring :=
  match s with
  | [] => [[]]
  | c :: s' =>
      if (c =? sep)%N then [] :: split_on sep s'
      else match split_on sep s' with
           | seg :: segs => (c :: seg) :: segs
           | [] => [[c]]
           end
  end.

(** [inferPackageManager] (lines 186-194), of the value of
    [process.env["npm_config_user_agent"]]; [None] is [undefined] in the
    argument and [null] in the result. *)
Definition inferPackageManager (userAgent : option jsstring) : option jsstring :=
  match userAgent with
  | None => None
  | Some userAgent =>
      if eqb userAgent [] then None                   (* !userAgent *)
      else
        match split_on 32 userAgent with
        | pkgSpec :: _ =>
            if eqb pkgSpec [] then None               (* !pkgSpec *)
            else
              match split_on 47 pkgSpec with
              | name :: version :: _ =>
                  if eqb name [] || eqb version [] then None
                  else Some name
              | _ => None                             (* version is undefined *)
              end
        | [] => None
        end
  end.

(** A run of code units none of which is a space or a slash. *)
Definition bare (s : jsstring) : Prop :=
  Forall (fun c => c <> 32%N /\ c <> 47%N) s.

(** What may follow [name/version] in a user agent: nothing, or more
    text after a space or a slash. *)
Definition cut_off (rest : jsstring) : Prop :=
  rest = [] \/ exists c rest', rest = c :: rest' /\ (c = 32%N \/ c = 47%N).

(** *** [JSON.stringify] of a string *)

Definition hex_digit (n : N) : N :=
  if (n <? 10)%N then (48 + n)%N else (87 + n)%N.

(** [\uXXXX], in lower-case hexadecimal. *)
Definition unicode_escape (c : N) : jsstring :=
  [92; 117; hex_digit ((c / 4096) mod 16); hex_digit ((c / 256) mod 16);
   hex_digit ((c / 16) mod 16); hex_digit (c mod 16)]%N.

Definition is_leading_surrogate (c : N) : bool := ((55296 <=? c) && (c <=? 56319))%N.
Definition is_trailing_surrogate (c : N) : bool := ((56320 <=? c) && (c <=? 57343))%N.

(** QuoteJSONString, code point by code point: the short escapes, then
    [\uXXXX] for the other control characters and for a surrogate that
    has no partner; everything else as it is. *)
Fixpoint quote_body (s : jsstring) : jsstring :=
  match s with
  | [] => []
  | c :: s' =>
      if (c =? 8)%N then lit "\b" ++ quote_body s'
      else if (c =? 9)%N then lit "\t" ++ quote_body s'
      else if (c =? 10)%N then lit "\n" ++ quote_body s'
      else if (c =? 12)%N then lit "\f" ++ quote_body s'
      else if (c =? 13)%N then lit "\r" ++ quote_body s'
      else if (c =? 34)%N then [92; 34]%N ++ quote_body s'
      else if (c =? 92)%N then [92; 92]%N ++ quote_body s'
      else if (c <? 32)%N then unicode_escape c ++ quote_body s'
      else if is_leading_surrogate c then
        match s' with
        | d :: s'' =>
            if is_trailing_surrogate d then c :: d :: quote_body s''
            else unicode_escape c ++ quote_body s'
        | [] => unicode_escape c
        end
      else if is_trailing_surrogate c then unicode_escape c ++ quote_body s'
      else c :: quote_body s'
  end.

(** A code unit that QuoteJSONString leaves as it is: not below U+0020,
    not the double quote, not the backslash, not a surrogate. *)
Definition ordinary (c : N) : Prop :=
  (32 <= c)%N /\ c <> 34%N /\ c <> 92%N
  /\ is_leading_surrogate c = false /\ is_trailing_surrogate c = false.

Definition JSON_stringify (s : jsstring) : jsstring :=
  34%N :: quote_body s ++ [34%N].

(** *** The [installing] step of [create] (lines 79-115) *)

(** The answers of the prompts that [installing] receives. *)
Record Answers := {
  rootPath : jsstring;
  includeSampleFiles : bool;
  (* "npm", "yarn" or null *)
  packageManager : option jsstring;
  initializeGit : bool
}.

(** [if (packageManager)]. *)
Definition chosen (packageManager : option jsstring) : bool :=
  match packageManager with
  | Some p => negb (eqb p [])
  | None => false
  end.

(** [packageManager ?? "npm"]. *)
Definition or_npm (packageManager : option jsstring) : jsstring :=
  match packageManager with
  | Some p => p
  | None => lit "npm"
  end.

Definition is_yarn (packageManager : option jsstring) : bool :=
  match packageManager with
  | Some p => eqb p (lit "yarn")
  | None => false
  end.

(** Line 85. *)
Definition runCommand (packageManager : option jsstring) : jsstring :=
  if is_yarn packageManager then lit "yarn"
  else or_npm packageManager ++ lit " run".

(** Line 86. *)
Definition installCommand (packageManager : option jsstring) : jsstring :=
  if is_yarn packageManager then lit "yarn"
  else or_npm packageManager ++ lit " install".

(** Line 82. *)
Definition template (answers : Answers) : jsstring :=
  if includeSampleFiles answers then lit "default" else lit "empty".

(** The context object of lines 91-97. *)
Definition context (answers : Answers) : gmap jsstring jsstring :=
  let title := Path.basename (rootPath answers) in
  <[lit "runCommand" := runCommand (packageManager answers)]>
  (<[lit "installCommand" := installCommand (packageManager answers)]>
  (<[lit "rootPath" := rootPath answers]>
  (<[lit "projectTitle" := title]>
  (<[lit "projectTitleString" := JSON_stringify title]> ∅)))).

(** Line 112. *)
Definition instructions (answers : Answers) : list jsstring :=
  (lit "cd " ++ rootPath answers)
  :: (if chosen (packageManager answers) then []
      else [installCommand (packageManager answers)])
  ++ [runCommand (packageManager answers) ++ lit " dev"].

(** What [installing] does, in order: the spinner, the sleeps, the calls
    of [recursiveCopyTemplate], the commands run, the closing notes. *)
Inductive Step :=
| SpinnerStart (message : jsstring)
| SpinnerMessage (message : jsstring)
| SpinnerStop (message : jsstring)
| SleepMs (ms : Z)
| Effect (call : Call)
| Exec (command cwd : jsstring)
| Note (message title : jsstring)
| Outro (message : jsstring).

(** Where [installing] runs: the installed templates, the injected
    effects, the child processes, and the styling of [./tty.js].
    Whether a command fails may depend on all the steps before it. *)
Record Machine := {
  (* resolve(fileURLToPath(import.meta.url), "..", "..", "templates", template) *)
  templateDir : jsstring -> jsstring;
  (* the tree found there *)
  templateTree : jsstring -> Node;
  effects : CreateEffects;
  (* promisify(exec)(command, {cwd}): [None] when it resolves *)
  exec : list Step -> jsstring -> jsstring -> option Error;
  cyan : jsstring -> jsstring;
  reset : jsstring -> jsstring;
  underline : jsstring -> jsstring
}.

Definition run_exec (machine : Machine) (command cwd : jsstring)
    (steps : list Step) : Result unit * list Step :=
  (completion (exec machine steps command cwd), steps ++ [Exec command cwd]).

(** Lines 100-104. *)
Definition install_step (machine : Machine) (answers : Answers)
    (steps : list Step) : Result unit * list Step :=
  match packageManager answers with
  | Some p =>
      if negb (eqb p []) then
        run_exec machine p (rootPath answers)
          (steps ++ [SpinnerMessage (lit "Installing dependencies via " ++ p);
                     SleepMs 1000])
      else (Ok tt, steps)
  | None => (Ok tt, steps)
  end.

(** Lines 105-110. *)
Definition git_step (machine : Machine) (answers : Answers)
    (steps : list Step) : Result unit * list Step :=
  if initializeGit answers then
    match run_exec machine (lit "git init") (rootPath answers)
            (steps ++ [SpinnerMessage (lit "Initializing git repository");
                       SleepMs 1000]) with
    | (Ok _, steps) => run_exec machine (lit "git add -A") (rootPath answers) steps
    | (Thrown e, steps) => (Thrown e, steps)
    end
  else (Ok tt, steps).

(** Lines 111-114. *)
Definition closing (machine : Machine) (answers : Answers) : list Step :=
  [SpinnerStop (lit "Installed!");
   Note (Auth.join_lines
           (map (fun line => reset machine (cyan machine line)) (instructions answers)))
        (lit "Next steps" ++ [8230%N]);
   Outro (lit "Problems? "
          ++ underline machine (lit "https://cli.observablehq.com/getting-started"))].

(** [installing] (lines 79-115). *)
Definition installing (machine : Machine) (answers : Answers)
    : Result unit * list Step :=
  let steps := [SpinnerStart (lit "Copying template files"); SleepMs 1000] in
  match recursiveCopyTemplate (effects machine)
          (templateDir machine (template answers)) (rootPath answers)
          (context answers) (templateTree machine (template answers))
          (lit ".") [] with
  | (Thrown e, calls) => (Thrown e, steps ++ (Effect <$> calls))
  | (Ok _, calls) =>
      match install_step machine answers (steps ++ (Effect <$> calls)) with
      | (Thrown e, steps) => (Thrown e, steps)
      | (Ok _, steps) =>
          match git_step machine answers steps with
          | (Thrown e, steps) => (Thrown e, steps)
          | (Ok _, steps) => (Ok tt, steps ++ closing machine answers)
          end
      end
  end.

(** The commands run, in order. *)
Definition commands (steps : list Step) : list (jsstring * jsstring) :=
  omap (fun step => match step with
                    | Exec command cwd => Some (command, cwd)
                    | _ => None
                    end) steps.

(** The commands a run is to make when nothing fails. *)
Definition planned_commands (answers : Answers) : list (jsstring * jsstring) :=
  (if chosen (packageManager answers)
   then [(or_npm (packageManager answers), rootPath answers)] else [])
  ++ (if initializeGit answers
      then [(lit "git init", rootPath answers); (lit "git add -A", rootPath answers)]
      else []).

Definition installed (steps : list Step) : Prop :=
  SpinnerStop (lit "Installed!") ∈ steps.

(** A machine on which nothing fails, with one template file. *)
Definition sample_machine : Machine :=
  {| templateDir := fun template => lit "/framework/templates/" ++ template;
     templateTree := fun _ =>
       Directory [(lit "README.md.tmpl", File (lit "# {{ projectTitle }}"))];
     effects := quiet;
     exec := fun _ _ _ => None;
     cyan := fun s => s; reset := fun s => s; underline := fun s => s |}.

Definition sample_answers : Answers :=
  {| rootPath := lit "./hello-framework"; includeSampleFiles := true;
     packageManager := Some (lit "npm"); initializeGit := true |}.

End Scaffold.

(* ================================================================= *)
(** * Part II: properties                                             *)
(* ================================================================= *)

(** ** Strings *)

Module JsFacts.
Import Js.

Lemma eqb_eq (a b : jsstring) : eqb a b = true <-> a = b.
Proof. unfold eqb. apply bool_decide_eq_true. Qed.

Lemma eqb_neq (a b : jsstring) : eqb a b = false <-> a <> b.
Proof. unfold eqb. apply bool_decide_eq_false. Qed.

Lemma eqb_refl (a : jsstring) : eqb a a = true.
Proof. by apply eqb_eq. Qed.

(** [endsWith] decides the suffix relation. *)
Lemma endsWith_suffix (s t : jsstring) :
  endsWith s t = true <-> t `suffix_of` s.
Proof.
  unfold endsWith. rewrite andb_true_iff, eqb_eq, bool_decide_eq_true.
  split.
  - intros [Hd _]. exists (take (length s - length t) s).
    by rewrite <- Hd at 2; rewrite take_drop.
  - intros [k ->]. rewrite length_app. split; [|lia].
    replace (length k + length t - length t) with (length k) by lia.
    by rewrite drop_app_length.
Qed.

(** Settle the comparisons of two literals in the goal. *)
Ltac compare_literals :=
  repeat match goal with
    | |- context [eqb (lit ?a) (lit ?b)] =>
        let v := eval vm_compute in (eqb (lit a) (lit b)) in
        change (eqb (lit a) (lit b)) with v
    end;
  cbv iota.

End JsFacts.

(** ** The template language *)

Module TemplateFacts.
Import Js Template JsFacts.

Lemma take_drop_while (p : N -> bool) (s : jsstring) :
  take_while p s ++ drop_while p s = s.
Proof. induction s as [|c s IH]; simpl; [done|]. destruct (p c); simpl; by rewrite ?IH. Qed.

Lemma take_while_Forall (p : N -> bool) (s : jsstring) :
  Forall (fun c => p c = true) (take_while p s).
Proof.
  induction s as [|c s IH]; simpl; [constructor|].
  destruct (p c) eqn:E; by constructor.
Qed.

Lemma drop_while_length (p : N -> bool) (s : jsstring) :
  length (drop_while p s) <= length s.
Proof. induction s as [|c s IH]; simpl; [lia|]. destruct (p c); simpl; lia. Qed.

(** Passing over a run of [p] in front of a text that does not start
    with [p]. *)
Lemma drop_while_run (p : N -> bool) (run rest : jsstring) :
  Forall (fun c => p c = true) run ->
  drop_while p (run ++ rest) = drop_while p rest.
Proof. induction 1 as [|c run Hc _ IH]; simpl; [done|]. by rewrite Hc. Qed.

Lemma take_while_run (p : N -> bool) (run rest : jsstring) :
  Forall (fun c => p c = true) run ->
  take_while p (run ++ rest) = run ++ take_while p rest.
Proof. induction 1 as [|c run Hc _ IH]; simpl; [done|]. by rewrite Hc, IH. Qed.

(** Appending text behind a scan that stopped before the end. *)
Lemma drop_while_app (p : N -> bool) (a b : jsstring) :
  drop_while p (a ++ b) =
  match drop_while p a with
  | [] => drop_while p b
  | rest => rest ++ b
  end.
Proof.
  induction a as [|c a IH]; simpl; [by destruct (drop_while p b)|].
  destruct (p c); [done|done].
Qed.

Lemma take_while_app (p : N -> bool) (a b : jsstring) :
  take_while p (a ++ b) =
  match drop_while p a with
  | [] => a ++ take_while p b
  | _ => take_while p a
  end.
Proof.
  induction a as [|c a IH]; simpl; [done|].
  destruct (p c); [|done]. rewrite IH. by destruct (drop_while p a).
Qed.

(** The classes of the pattern are pairwise disjoint. *)
Lemma word_not_space (c : N) : is_word c = true -> is_space c = false.
Proof.
  unfold is_word, is_space. intros Hw. apply not_true_is_false. intros Hs.
  rewrite ?orb_true_iff, ?andb_true_iff, ?N.leb_le, ?N.eqb_eq in Hw.
  rewrite ?orb_true_iff, ?andb_true_iff, ?N.leb_le, ?N.eqb_eq in Hs. lia.
Qed.

Lemma space_not_word (c : N) : is_space c = true -> is_word c = false.
Proof.
  intros Hs. destruct (is_word c) eqn:Hw; [|done].
  apply word_not_space in Hw. congruence.
Qed.

(** *** One match attempt *)

(** A written token is matched, capturing its key. *)
Lemma match_token_token (ws1 key ws2 rest : jsstring) :
  Forall (fun c => is_space c = true) ws1 ->
  Forall (fun c => is_word c = true) key ->
  key <> [] ->
  Forall (fun c => is_space c = true) ws2 ->
  match_token (123%N :: 123%N :: ws1 ++ key ++ ws2 ++ 125%N :: 125%N :: rest)
  = Some (key, rest).
Proof.
  intros Hws1 Hkey Hne Hws2. unfold match_token, match_after_open. simpl.
  rewrite (drop_while_run _ _ _ Hws1).
  destruct key as [|k key]; [done|]. clear Hne.
  assert (Hk : is_space k = false)
    by (apply word_not_space; by inversion Hkey).
  assert (Htail : take_while is_word (ws2 ++ 125%N :: 125%N :: rest) = []
                  /\ drop_while is_word (ws2 ++ 125%N :: 125%N :: rest)
                     = ws2 ++ 125%N :: 125%N :: rest).
  { destruct ws2 as [|w ws2]; [done|]. simpl.
    rewrite (space_not_word w); [done|]. by inversion Hws2. }
  destruct Htail as [Ht Hd].
  assert (Hs2 : drop_while is_space ((k :: key) ++ ws2 ++ 125%N :: 125%N :: rest)
                = (k :: key) ++ ws2 ++ 125%N :: 125%N :: rest)
    by (simpl; by rewrite Hk).
  rewrite Hs2.
  rewrite (take_while_run _ _ _ Hkey), Ht, app_nil_r.
  rewrite (drop_while_run _ _ _ Hkey), Hd.
  rewrite (drop_while_run _ _ _ Hws2). done.
Qed.

(** Conversely a match is a written token: the greedy scan finds the
    only way to read [\{\{\s*(\w+)\s*\}\}] at the head of [s]. *)
Lemma match_token_inv (s key rest : jsstring) :
  match_token s = Some (key, rest) ->
  exists ws1 ws2,
    s = 123%N :: 123%N :: ws1 ++ key ++ ws2 ++ 125%N :: 125%N :: rest
    /\ Forall (fun c => is_space c = true) ws1
    /\ Forall (fun c => is_word c = true) key
    /\ key <> []
    /\ Forall (fun c => is_space c = true) ws2.
Proof.
  unfold match_token. destruct s as [|c1 [|c2 s1]]; [done..|].
  destruct ((c1 =? 123)%N && (c2 =? 123)%N) eqn:Hopen; [|done].
  apply andb_true_iff in Hopen as [->%N.eqb_eq ->%N.eqb_eq].
  unfold match_after_open.
  set (s2 := drop_while is_space s1).
  set (s3 := drop_while is_word s2).
  destruct (take_while is_word s2) as [|k ks] eqn:Hkey; [done|].
  destruct (drop_while is_space s3) as [|c3 [|c4 r]] eqn:Hs4; [done..|].
  destruct ((c3 =? 125)%N && (c4 =? 125)%N) eqn:Hclose; [|done].
  apply andb_true_iff in Hclose as [->%N.eqb_eq ->%N.eqb_eq].
  intros [= <- <-].
  exists (take_while is_space s1), (take_while is_space s3).
  split_and!.
  - do 2 f_equal.
    rewrite <- Hs4, <- Hkey.
    rewrite (take_drop_while is_space s3). subst s3.
    rewrite (take_drop_while is_word s2). subst s2.
    by rewrite (take_drop_while is_space s1).
  - apply take_while_Forall.
  - rewrite <- Hkey. apply take_while_Forall.
  - done.
  - apply take_while_Forall.
Qed.

(** Together: what [match_token] accepts is what the pattern reads. *)
Lemma match_token_spec (s key rest : jsstring) :
  match_token s = Some (key, rest) <->
  exists ws1 ws2,
    s = 123%N :: 123%N :: ws1 ++ key ++ ws2 ++ 125%N :: 125%N :: rest
    /\ blank ws1 /\ identifier key /\ blank ws2.
Proof.
  split.
  - intros (ws1 & ws2 & ? & ? & ? & ? & ?)%match_token_inv.
    by exists ws1, ws2.
  - intros (ws1 & ws2 & -> & ? & [? ?] & ?). by apply match_token_token.
Qed.

(** A match is never empty and ends where [rest] starts. *)
Lemma match_token_rest (c : N) (s key rest : jsstring) :
  match_token (c :: s) = Some (key, rest) ->
  drop (length s - length rest) s = rest.
Proof.
  intros (ws1 & ws2 & Hs & _)%match_token_inv. injection Hs as _ Hs.
  assert (Hm : s = (123%N :: ws1 ++ key ++ ws2 ++ [125%N; 125%N]) ++ rest)
    by (rewrite Hs; simpl; by rewrite <- !app_assoc).
  rewrite Hm at 1 2. rewrite length_app.
  rewrite Nat.add_sub. apply drop_app_length.
Qed.

(** Text appended behind [p], starting with an opening [{{], neither
    completes a match begun in [p] nor disturbs one found there. *)
Lemma match_token_app (p more : jsstring) :
  p <> [] ->
  match_token (p ++ 123%N :: 123%N :: more) =
  match match_token p with
  | Some (key, rest) => Some (key, rest ++ 123%N :: 123%N :: more)
  | None => None
  end.
Proof.
  intros Hp. destruct p as [|c1 [|c2 p2]]; [done| |].
  { unfold match_token. simpl. by destruct (c1 =? 123)%N. }
  change (match_token ((c1 :: c2 :: p2) ++ 123%N :: 123%N :: more))
    with (if (c1 =? 123)%N && (c2 =? 123)%N
          then match_after_open (p2 ++ 123%N :: 123%N :: more) else None).
  change (match_token (c1 :: c2 :: p2))
    with (if (c1 =? 123)%N && (c2 =? 123)%N
          then match_after_open p2 else None).
  destruct ((c1 =? 123)%N && (c2 =? 123)%N); [|done].
  unfold match_after_open.
  rewrite drop_while_app.
  destruct (drop_while is_space p2) as [|x q2] eqn:Hq2; [done|].
  rewrite take_while_app, drop_while_app.
  destruct (drop_while is_word (x :: q2)) as [|y q3] eqn:Hq3.
  { simpl drop_while. rewrite app_nil_r.
    by destruct (take_while is_word (x :: q2)), (x :: q2). }
  rewrite drop_while_app.
  destruct (drop_while is_space (y :: q3)) as [|z1 [|z2 r]] eqn:Hq4.
  - simpl drop_while. by destruct (take_while is_word (x :: q2)).
  - simpl app. destruct (take_while is_word (x :: q2)); [done|].
    cbn. by rewrite andb_false_r.
  - simpl app. destruct (take_while is_word (x :: q2)); [done|].
    by destruct ((z1 =? 125)%N && (z2 =? 125)%N).
Qed.

(** *** The scan *)

Lemma replaceAll_from_skip (f : jsstring -> Result jsstring) (k : nat) (s : jsstring) :
  replaceAll_from f k s = replaceAll_from f 0 (drop k s).
Proof.
  revert k. induction s as [|c s IH]; intros [|k]; try done.
  simpl drop. by rewrite <- IH.
Qed.

Lemma replaceAll_from_cons (f : jsstring -> Result jsstring) (c : N) (s : jsstring) :
  replaceAll_from f 0 (c :: s) =
  match match_token (c :: s) with
  | Some (key, rest) =>
      match f key with
      | Thrown e => Thrown e
      | Ok v => then_append v (replaceAll_from f (length s - length rest) s)
      end
  | None => then_append [c] (replaceAll_from f 0 s)
  end.
Proof. reflexivity. Qed.

(** The two equations of [replaceAll]: at a match, and elsewhere. *)
Lemma replaceAll_match (f : jsstring -> Result jsstring) (s key rest : jsstring) :
  match_token s = Some (key, rest) ->
  replaceAll f s =
  match f key with
  | Thrown e => Thrown e
  | Ok v => then_append v (replaceAll f rest)
  end.
Proof.
  intros Hm. destruct s as [|c s]; [done|].
  unfold replaceAll. rewrite replaceAll_from_cons, Hm.
  destruct (f key) as [v|e]; [|done].
  rewrite replaceAll_from_skip, (match_token_rest _ _ _ _ Hm). done.
Qed.

Lemma replaceAll_no_match (f : jsstring -> Result jsstring) (c : N) (s : jsstring) :
  match_token (c :: s) = None ->
  replaceAll f (c :: s) = then_append [c] (replaceAll f s).
Proof.
  intros Hm. unfold replaceAll. by rewrite replaceAll_from_cons, Hm.
Qed.

Lemma then_append_app (u v : jsstring) (r : Result jsstring) :
  then_append u (then_append v r) = then_append (u ++ v) r.
Proof. destruct r; simpl; [|done]. by rewrite app_assoc. Qed.

(** The scan of a text followed by a token is the scan of the text,
    followed by the scan from the token on. *)
Lemma replaceAll_app (f : jsstring -> Result jsstring) (pre more : jsstring) :
  replaceAll f (pre ++ 123%N :: 123%N :: more) =
  match replaceAll f pre with
  | Thrown e => Thrown e
  | Ok out => then_append out (replaceAll f (123%N :: 123%N :: more))
  end.
Proof.
  remember (length pre) as n eqn:Hn. revert pre Hn.
  induction n as [n IH] using lt_wf_ind. intros pre ->.
  destruct pre as [|c pre]. { simpl. by destruct (replaceAll f _). }
  pose proof (match_token_app (c :: pre) more ltac:(done)) as Happ.
  destruct (match_token (c :: pre)) as [[key rest]|] eqn:Hm.
  - rewrite (replaceAll_match f _ _ _ Happ), (replaceAll_match f _ _ _ Hm).
    destruct (f key) as [v|e]; [|done].
    assert (Hlen : length rest < length (c :: pre)).
    { apply match_token_rest in Hm. simpl.
      rewrite <- Hm, length_drop. lia. }
    rewrite (IH _ Hlen rest eq_refl).
    destruct (replaceAll f rest) as [out|e]; [|done].
    simpl. by rewrite then_append_app.
  - change ((c :: pre) ++ 123%N :: 123%N :: more)
      with (c :: (pre ++ 123%N :: 123%N :: more)) in *.
    rewrite (replaceAll_no_match f _ _ Happ), (replaceAll_no_match f _ _ Hm).
    rewrite (IH (length pre) ltac:(simpl; lia) pre eq_refl).
    destruct (replaceAll f pre) as [out|e]; [|done].
    simpl. by rewrite then_append_app.
Qed.

(** *** Rendering *)

(** Rendering a text with a placeholder in it: the text before, what
    the context gives for the key, the text after. *)
Lemma render_token (context : gmap jsstring jsstring)
    (pre ws1 key ws2 post : jsstring) :
  blank ws1 -> identifier key -> blank ws2 ->
  render context (pre ++ token ws1 key ws2 ++ post) =
  match render context pre with
  | Thrown e => Thrown e
  | Ok pre' =>
      match replacer context key with
      | Thrown e => Thrown e
      | Ok v => then_append (pre' ++ v) (render context post)
      end
  end.
Proof.
  intros Hws1 [Hkey Hne] Hws2. unfold render, token.
  change (lit "{{") with [123%N; 123%N]. change (lit "}}") with [125%N; 125%N].
  replace (pre ++ ([123%N; 123%N] ++ ws1 ++ key ++ ws2 ++ [125%N; 125%N]) ++ post)
    with (pre ++ 123%N :: 123%N :: ws1 ++ key ++ ws2 ++ 125%N :: 125%N :: post)
    by (simpl; by rewrite <- !app_assoc).
  rewrite replaceAll_app.
  destruct (replaceAll (replacer context) pre) as [pre'|e]; [|done].
  rewrite (replaceAll_match _ _ key post)
    by (by apply match_token_token).
  destruct (replacer context key) as [v|e]; [|done].
  by rewrite then_append_app.
Qed.

End TemplateFacts.

(** ** Paths *)

Module PathFacts.
Import Js Template Path JsFacts TemplateFacts.

Lemma weight_bound (path : jsstring) : weight path < 2 * length path + 4.
Proof.
  unfold weight. destruct path; simpl length; [lia|].
  destruct (_ || _); lia.
Qed.

Lemma drop_segment_length (r : jsstring) :
  drop_while not_slash (drop_while is_slash r) = [] \/
  length (drop_while not_slash (drop_while is_slash r)) < length r.
Proof.
  pose proof (drop_while_length is_slash r) as H1.
  destruct (drop_while is_slash r) as [|y r1] eqn:Hr1; [by left|].
  assert (is_slash y = false) as Hy.
  { clear H1. induction r as [|c r IH]; [done|]. simpl in Hr1.
    destruct (is_slash c) eqn:Hc; [by apply IH|]. congruence. }
  assert (not_slash y = true) as Hy' by (unfold not_slash, is_slash in *; by rewrite Hy).
  simpl. rewrite Hy'.
  pose proof (drop_while_length not_slash r1). simpl in H1. right. lia.
Qed.

Lemma weight_cons (c : N) (path : jsstring) :
  2 * S (length path) <= weight (c :: path) <= 2 * S (length path) + 1.
Proof. unfold weight. simpl length. destruct (_ || _); lia. Qed.

(** [dirname] moves down in [weight] unless it stays where it is. *)
Lemma dirname_weight (path : jsstring) :
  dirname path <> path -> weight (dirname path) < weight path.
Proof.
  destruct path as [|c0 tl]; [intros _; vm_compute; lia|].
  assert (weight (lit "/") = 2 /\ weight (lit ".") = 2 /\ weight (lit "//") = 5)
    as (Wroot & Wdot & Wroot2) by done.
  pose proof (weight_cons c0 tl) as Hw.
  unfold dirname.
  pose proof (drop_segment_length (rev tl)) as Hlt.
  destruct (drop_while not_slash (drop_while is_slash (rev tl)))
    as [|x before] eqn:Hd.
  - (* no cut: the result is "/" or "." *)
    destruct tl as [|c1 tl].
    + destruct (is_slash c0) eqn:Hc0; intros Hne.
      * apply N.eqb_eq in Hc0 as ->. done.
      * rewrite Wdot. unfold weight. change (lit ".") with [46%N] in *.
        destruct (eqb [c0] [46%N]) eqn:E; [by apply eqb_eq in E|].
        destruct (eqb [c0] (lit "/")) eqn:E'; simpl; [|lia].
        apply eqb_eq in E'. injection E' as ->. done.
    + intros _. simpl length in Hw.
      destruct (is_slash c0); rewrite ?Wroot, ?Wdot; lia.
  - destruct Hlt as [|Hlt]; [done|].
    rewrite length_rev in Hlt. simpl in Hlt. intros _.
    destruct (is_slash c0 && bool_decide (before = [])).
    + rewrite Wroot2. lia.
    + pose proof (weight_cons c0 (rev before)) as Hw'.
      rewrite length_rev in Hw'. lia.
Qed.

(** *** The last segment of a joined path *)

Lemma split_nonempty (path : jsstring) : split path <> [].
Proof.
  induction path as [|c path IH]; simpl; [done|].
  destruct (is_slash c); [done|]. by destruct (split path).
Qed.

Lemma split_app (a b : jsstring) :
  split (a ++ 47%N :: b) = split a ++ split b.
Proof.
  induction a as [|c a IH]; simpl; [done|].
  destruct (is_slash c); [by rewrite IH|].
  rewrite IH. pose proof (split_nonempty a). by destruct (split a).
Qed.

Lemma split_name (name : jsstring) :
  Forall (fun c => is_slash c = false) name -> split name = [name].
Proof.
  induction 1 as [|c name Hc _ IH]; simpl; [done|]. by rewrite Hc, IH.
Qed.

Lemma join_segments_snoc (segs : list jsstring) (seg : jsstring) :
  join_segments (segs ++ [seg]) =
  match segs with
  | [] => seg
  | _ => join_segments segs ++ 47%N :: seg
  end.
Proof.
  induction segs as [|s segs IH]; [done|].
  change (join_segments ((s :: segs) ++ [seg]))
    with (match segs ++ [seg] with
          | [] => s
          | _ => s ++ 47%N :: join_segments (segs ++ [seg])
          end).
  rewrite IH. destruct segs as [|s' segs]; [done|].
  simpl. by rewrite <- app_assoc.
Qed.

Lemma normalize_step_name (allowAboveRoot : bool) (res : list jsstring)
    (name : jsstring) :
  entry_name name -> normalize_step allowAboveRoot res name = name :: res.
Proof.
  intros (Hne & _ & Hdot & Hdots). unfold normalize_step.
  apply eqb_neq in Hne, Hdot, Hdots. by rewrite Hne, Hdot, Hdots.
Qed.

(** Normalizing keeps a name that ends the path, and puts nothing or a
    text ending with a slash in front of it. *)
Lemma normalizeString_keeps_name (allowAboveRoot : bool) (q name : jsstring) :
  entry_name name -> up_to_slash q ->
  exists prefix,
    normalizeString (q ++ name) allowAboveRoot = prefix ++ name
    /\ up_to_slash prefix.
Proof.
  intros Hname Hq. unfold normalizeString.
  assert (Hfold : exists res,
            fold_left (normalize_step allowAboveRoot) (split (q ++ name)) []
            = name :: res).
  { destruct Hname as (Hne & Hslash & Hdot & Hdots).
    destruct Hq as [-> | [before ->]].
    - simpl. rewrite (split_name _ Hslash). simpl.
      rewrite normalize_step_name by done. by eexists.
    - rewrite <- app_assoc. simpl. rewrite split_app, (split_name _ Hslash).
      rewrite fold_left_app. simpl.
      rewrite normalize_step_name by done. by eexists. }
  destruct Hfold as [res ->]. simpl rev. rewrite join_segments_snoc.
  destruct (rev res) as [|seg segs].
  - exists []. split; [done|by left].
  - exists (join_segments (seg :: segs) ++ [47%N]).
    split; [by rewrite <- app_assoc|]. right. by eexists.
Qed.

Lemma normalize_keeps_name (q name : jsstring) :
  entry_name name -> up_to_slash q ->
  exists prefix, normalize (q ++ name) = prefix ++ name /\ up_to_slash prefix.
Proof.
  intros Hname Hq.
  assert (Hlast : last (q ++ name) = last name).
  { destruct Hname as (Hne & _). destruct name as [|c name]; [done|].
    clear. induction q as [|x q IH]; [done|].
    simpl. rewrite <- IH. by destruct (q ++ c :: name) eqn:E;
      [destruct q; discriminate|]. }
  assert (Htrail : match last (q ++ name) with
                   | Some c => is_slash c
                   | None => false
                   end = false).
  { rewrite Hlast. destruct Hname as (_ & Hslash & _).
    destruct (last name) as [c|] eqn:E; [|done].
    apply last_Some in E as [l' ->]. apply Forall_app in Hslash as [_ Hc].
    by inversion Hc. }
  unfold normalize. destruct (q ++ name) as [|c0 rest] eqn:Hpath.
  { destruct Hname as (Hne & _). by destruct q, name. }
  rewrite Htrail.
  destruct (normalizeString_keeps_name (negb (is_slash c0)) q name Hname Hq)
    as (prefix & Hnorm & Hprefix).
  rewrite Hpath in Hnorm. rewrite Hnorm.
  assert (Hnonempty : prefix ++ name <> []).
  { destruct Hname as (Hne & _). by destruct prefix, name. }
  destruct (prefix ++ name) as [|y ys] eqn:E; [done|]. rewrite <- E.
  destruct (is_slash c0).
  - exists (47%N :: prefix). split; [done|].
    destruct Hprefix as [-> | [before ->]]; right; [by exists []|].
    by exists (47%N :: before).
  - by exists prefix.
Qed.

Lemma join_keeps_name (a q name : jsstring) :
  entry_name name -> up_to_slash q ->
  exists prefix, join a (q ++ name) = prefix ++ name /\ up_to_slash prefix.
Proof.
  intros Hname Hq. unfold join.
  assert (q ++ name <> []) as Hb
    by (destruct Hname as (Hne & _); by destruct q, name).
  destruct a as [|c a]; destruct (q ++ name) as [|y ys] eqn:E; try done.
  - rewrite <- E. by apply normalize_keeps_name.
  - rewrite <- E.
    replace ((c :: a) ++ 47%N :: q ++ name)
      with (((c :: a) ++ 47%N :: q) ++ name) by (by rewrite <- app_assoc).
    apply normalize_keeps_name; [done|]. right.
    destruct Hq as [-> | [before ->]].
    + by exists (c :: a).
    + exists ((c :: a) ++ 47%N :: before). by rewrite <- app_assoc.
Qed.

(** The path of an entry, as [recursiveCopyTemplate] builds it with two
    joins, ends with the name of the entry, a slash in front of it. *)
Lemma entry_path_keeps_name (root stepPath entry : jsstring) :
  entry_name entry ->
  exists prefix,
    join root (join stepPath entry) = prefix ++ entry /\ up_to_slash prefix.
Proof.
  intros Hname.
  destruct (join_keeps_name stepPath [] entry Hname ltac:(by left))
    as (q & Hjoin & Hq).
  simpl in Hjoin. rewrite Hjoin. by apply join_keeps_name.
Qed.

(** A suffix without a slash is a suffix of the last segment. *)
Lemma endsWith_last_segment (prefix name suffix : jsstring) :
  up_to_slash prefix ->
  Forall (fun c => is_slash c = false) suffix ->
  endsWith (prefix ++ name) suffix = endsWith name suffix.
Proof.
  intros Hprefix Hsuffix. apply eq_true_iff_eq.
  rewrite !endsWith_suffix. split.
  - intros [k Hk]. symmetry in Hk.
    apply app_eq_inv in Hk as [(m & -> & ->) | (m & -> & ->)].
    + by eexists.
    + destruct m as [|x m _] using rev_ind; [by exists []|].
      exfalso. destruct Hprefix as [Hnil | [before Hbefore]].
      * by destruct k, m.
      * rewrite app_assoc in Hbefore. apply app_inj_tail in Hbefore as [_ ->].
        apply Forall_app in Hsuffix as [Hm _].
        apply Forall_app in Hm as [_ Hx]. by inversion Hx.
  - intros [k ->]. exists (prefix ++ k). by rewrite app_assoc.
Qed.

End PathFacts.

(** ** Path validation *)

Module ValidateFacts.
Import Js Path Create JsFacts PathFacts.

Section Fs.
Context (fs : SyncFs).

Lemma ancestor_fixed (dir path : jsstring) :
  ancestor dir path -> dirname path = path -> dir = path.
Proof.
  induction 1 as [path|dir path _ IH]; intros Hfix; [done|].
  rewrite Hfix in IH. by apply IH.
Qed.

(** The loop ends once the fuel exceeds the weight of the path. *)
Lemma canWriteRecursive_loop_total (fuel : nat) (rootPath : jsstring) :
  weight rootPath < fuel ->
  exists b, canWriteRecursive_loop fuel fs rootPath = Some b.
Proof.
  revert rootPath. induction fuel as [|fuel IH]; intros rootPath Hw; [lia|].
  simpl. destruct (accessSync_W_OK fs (dirname rootPath)); [|by eexists].
  destruct (eqb (dirname rootPath) rootPath) eqn:Hfix; [by eexists|].
  apply IH. apply eqb_neq, dirname_weight in Hfix. lia.
Qed.

(** What the loop answers is whether a writable ancestor exists. *)
Lemma canWriteRecursive_loop_spec (fuel : nat) (rootPath : jsstring) (b : bool) :
  canWriteRecursive_loop fuel fs rootPath = Some b ->
  b = true <-> writable_ancestor fs rootPath.
Proof.
  revert rootPath. induction fuel as [|fuel IH]; intros rootPath; [done|].
  simpl. destruct (accessSync_W_OK fs (dirname rootPath)) as [e|] eqn:Hacc.
  - destruct (eqb (dirname rootPath) rootPath) eqn:Hfix.
    + intros [= <-]. split; [done|]. intros (dir & Hanc & Hdir).
      apply eqb_eq in Hfix.
      apply ancestor_fixed in Hanc; [|done]. congruence.
    + intros Hloop. rewrite (IH _ Hloop). split.
      * intros (dir & Hanc & Hdir). exists dir. split; [|done].
        by apply ancestor_further.
      * intros (dir & Hanc & Hdir). inversion Hanc; subst; [congruence|].
        by exists dir.
  - intros [= <-]. split; [|done]. intros _.
    exists (dirname rootPath). split; [constructor|done].
Qed.

Lemma canWriteRecursive_total (rootPath : jsstring) :
  exists b, canWriteRecursive fs rootPath = Some b.
Proof. apply canWriteRecursive_loop_total, weight_bound. Qed.

Lemma canWriteRecursive_true (rootPath : jsstring) :
  writable_ancestor fs rootPath -> canWriteRecursive fs rootPath = Some true.
Proof.
  intros Hw. destruct (canWriteRecursive_total rootPath) as [b Hb].
  rewrite Hb. f_equal. by apply (canWriteRecursive_loop_spec _ _ _ Hb).
Qed.

Lemma canWriteRecursive_false (rootPath : jsstring) :
  ~ writable_ancestor fs rootPath -> canWriteRecursive fs rootPath = Some false.
Proof.
  intros Hw. destruct (canWriteRecursive_total rootPath) as [b Hb].
  rewrite Hb. f_equal. destruct b; [|done].
  exfalso. by apply Hw, (canWriteRecursive_loop_spec _ _ _ Hb).
Qed.

(** The cases of [validateRootPath], read on the chain of [dirname]
    that the code walks.  It accepts the empty input, which stands for
    the default value, on any file system.  Any other input is
    normalized; then, in this order: when no path on its [dirname]
    chain passes the write check it is rejected as not writable; a path
    that does not exist is accepted; an existing path that is not a
    directory is rejected as an existing file; an existing directory
    that is not empty is rejected as not empty.  The [dirname] chain is
    not always the ancestor directories of the path: for [../x] it is
    [..], then [.]. *)
Theorem validateRootPath_cases (rootPath : jsstring) :
  validateRootPath fs [] = Some (Ok None)
  /\ (rootPath <> [] ->
      let path := normalize rootPath in
      (~ writable_ancestor fs path ->
       validateRootPath fs rootPath = Some (Ok (Some (lit "Path is not writable."))))
      /\ (writable_ancestor fs path ->
          existsSync fs path = false ->
          validateRootPath fs rootPath = Some (Ok None))
      /\ (writable_ancestor fs path ->
          existsSync fs path = true ->
          statSync_isDirectory fs path = Ok false ->
          validateRootPath fs rootPath = Some (Ok (Some (lit "File already exists."))))
      /\ (writable_ancestor fs path ->
          existsSync fs path = true ->
          statSync_isDirectory fs path = Ok true ->
          forall entries,
            readdirSync fs path = Ok entries ->
            entries <> [] ->
            validateRootPath fs rootPath
            = Some (Ok (Some (lit "Directory is not empty."))))).
Proof.
  split; [done|]. intros Hne path.
  assert (Hv : validateRootPath fs rootPath =
               match canWriteRecursive fs path with
               | None => None
               | Some false => Some (Ok (Some (lit "Path is not writable.")))
               | Some true =>
                   Some
                     (if negb (existsSync fs path) then Ok None
                      else
                        match statSync_isDirectory fs path with
                        | Thrown e => Thrown e
                        | Ok false => Ok (Some (lit "File already exists."))
                        | Ok true =>
                            match readdirSync fs path with
                            | Thrown e => Thrown e
                            | Ok entries =>
                                if negb (length entries =? 0)
                                then Ok (Some (lit "Directory is not empty."))
                                else Ok None
                            end
                        end)
               end).
  { unfold validateRootPath. by apply eqb_neq in Hne as ->. }
  rewrite Hv. split_and!.
  - intros Hw. by rewrite canWriteRecursive_false.
  - intros Hw Hex. by rewrite canWriteRecursive_true, Hex.
  - intros Hw Hex Hstat. by rewrite canWriteRecursive_true, Hex, Hstat.
  - intros Hw Hex Hstat entries Hread Hentries.
    rewrite canWriteRecursive_true, Hex, Hstat, Hread by done.
    by destruct entries.
Qed.

End Fs.

Lemma validateRootPath_cases_witness :
  validateRootPath project_exists (lit "./hello-framework")
  = Some (Ok (Some (lit "Directory is not empty."))).
Proof.
  refine (proj2 (proj2 (proj2 (proj2
            (validateRootPath_cases project_exists (lit "./hello-framework"))
            _))) _ eq_refl eq_refl [lit "README.md"] eq_refl _).
  - done.
  - exists (lit "."). split; [apply (ancestor_parent (lit "hello-framework"))|done].
  - done.
Defined.

End ValidateFacts.

(** ** Template materialization *)

Module CreateFacts.
Import Js Template Create JsFacts TemplateFacts.

(** Induction on a template tree, with the property known for every
    entry of a directory. *)
Lemma Node_entries_ind (P : Node -> Prop) :
  (forall contents, P (File contents)) ->
  (forall entries, Forall (fun entry => P entry.2) entries -> P (Directory entries)) ->
  forall node, P node.
Proof.
  intros HFile HDir. fix IH 1. intros [contents|entries].
  - apply HFile.
  - apply HDir. induction entries as [|[entry child] entries IHentries].
    + constructor.
    + constructor; [apply IH | apply IHentries].
Qed.

Section Walk.
Context (fx : CreateEffects) (inputRoot outputRoot : jsstring)
        (context : gmap jsstring jsstring).

(** What [recursiveCopyTemplate] does at a file. *)
Lemma recursiveCopyTemplate_File (contents stepPath : jsstring) (calls : list Call) :
  recursiveCopyTemplate fx inputRoot outputRoot context (File contents) stepPath calls =
  let templatePath := Path.join inputRoot stepPath in
  let outputPath := Path.join outputRoot stepPath in
  if endsWith templatePath (lit ".DS_Store") then (Ok tt, calls)
  else if endsWith templatePath (lit ".tmpl") then
    match render context contents with
    | Thrown e => (Thrown e, calls)
    | Ok contents' => call_writeFile fx (strip_tmpl outputPath) contents' calls
    end
  else call_copyFile fx templatePath outputPath calls.
Proof. reflexivity. Qed.

(** What it does at a directory: the [mkdir] call, whose completion
    is dropped, then the entries in order. *)
Lemma recursiveCopyTemplate_Directory (entries : list (jsstring * Node))
    (stepPath : jsstring) (calls : list Call) :
  recursiveCopyTemplate fx inputRoot outputRoot context (Directory entries) stepPath calls =
  copy_entries fx inputRoot outputRoot context stepPath entries
    (calls ++ [Mkdir (Path.join outputRoot stepPath) true]).
Proof.
  simpl. generalize (calls ++ [Mkdir (Path.join outputRoot stepPath) true]).
  induction entries as [|[entry child] entries IH]; intros calls'; [done|].
  simpl. destruct (recursiveCopyTemplate _ _ _ _ child _ calls') as [[[]|e] calls''];
    [apply IH|done].
Qed.

End Walk.

(** Only what [copyFile] and [writeFile] do decides a run: two
    implementations of the effects that agree on these two give the
    same completion and the same calls, whatever their [mkdir] throws. *)
Lemma recursiveCopyTemplate_mkdir_irrelevant (fx fx' : CreateEffects)
    (inputRoot outputRoot : jsstring) (context : gmap jsstring jsstring)
    (node : Node) :
  copyFile fx = copyFile fx' ->
  writeFile fx = writeFile fx' ->
  forall stepPath calls,
    recursiveCopyTemplate fx inputRoot outputRoot context node stepPath calls =
    recursiveCopyTemplate fx' inputRoot outputRoot context node stepPath calls.
Proof.
  intros Hcopy Hwrite.
  induction node as [contents|entries IH] using Node_entries_ind;
    intros stepPath calls.
  - rewrite !recursiveCopyTemplate_File. unfold call_writeFile, call_copyFile.
    by rewrite Hcopy, Hwrite.
  - rewrite !recursiveCopyTemplate_Directory.
    generalize (calls ++ [Mkdir (Path.join outputRoot stepPath) true]).
    induction IH as [|[entry child] entries Hchild _ IHentries]; intros calls'; [done|].
    simpl in *. rewrite Hchild.
    destruct (recursiveCopyTemplate fx' _ _ _ child _ calls') as [[[]|e] calls''];
      [apply IHentries|done].
Qed.

(** *** Directories *)

(** C10.  Whatever error [effects.mkdir] throws for an output
    directory, [recursiveCopyTemplate] drops it and goes on with the
    entries of the directory; a whole run is the run it would be with a
    [mkdir] that never throws. *)
Theorem mkdir_errors_are_swallowed (fx : CreateEffects)
    (inputRoot outputRoot : jsstring) (context : gmap jsstring jsstring)
    (entries : list (jsstring * Node)) (stepPath : jsstring)
    (calls : list Call) (e : Error) :
  mkdir fx calls (Path.join outputRoot stepPath) true = Some e ->
  recursiveCopyTemplate fx inputRoot outputRoot context (Directory entries) stepPath calls
  = copy_entries fx inputRoot outputRoot context stepPath entries
      (calls ++ [Mkdir (Path.join outputRoot stepPath) true])
  /\ forall node stepPath' calls',
       recursiveCopyTemplate fx inputRoot outputRoot context node stepPath' calls'
       = recursiveCopyTemplate (with_quiet_mkdir fx) inputRoot outputRoot context
           node stepPath' calls'.
Proof.
  intros _. split.
  - apply recursiveCopyTemplate_Directory.
  - intros node. by apply recursiveCopyTemplate_mkdir_irrelevant.
Qed.

Lemma mkdir_errors_are_swallowed_witness :
  recursiveCopyTemplate mkdir_denied (lit "/templates/empty") (lit "hello") ∅
    (Directory [(lit "docs", Directory [(lit "data.csv", File (lit "1,2"))])])
    (lit ".") []
  = (Ok tt,
     [Mkdir (lit "hello") true; Mkdir (lit "hello/docs") true;
      CopyFile (lit "/templates/empty/docs/data.csv") (lit "hello/docs/data.csv")]).
Proof.
  destruct (mkdir_errors_are_swallowed mkdir_denied (lit "/templates/empty")
              (lit "hello") ∅
              [(lit "docs", Directory [(lit "data.csv", File (lit "1,2"))])]
              (lit ".") [] (SystemError (lit "EACCES")) eq_refl) as [-> _].
  reflexivity.
Defined.

(** *** Files *)

Lemma snoc_neq {A} (l : list A) (x : A) : l ++ [x] <> l.
Proof.
  intros H. apply (f_equal length) in H. rewrite length_app in H. simpl in H. lia.
Qed.

(** A file is passed over, with no call made for it, exactly when its
    template path ends in [.DS_Store]; a file whose path ends neither in
    [.DS_Store] nor in [.tmpl] is handed to [copyFile]. *)
Lemma file_by_path_suffix (fx : CreateEffects)
    (inputRoot outputRoot : jsstring) (context : gmap jsstring jsstring)
    (contents stepPath : jsstring) (calls : list Call) :
  let templatePath := Path.join inputRoot stepPath in
  let outputPath := Path.join outputRoot stepPath in
  let result :=
    recursiveCopyTemplate fx inputRoot outputRoot context (File contents) stepPath calls in
  (result = (Ok tt, calls) <-> endsWith templatePath (lit ".DS_Store") = true)
  /\ (endsWith templatePath (lit ".DS_Store") = false ->
      endsWith templatePath (lit ".tmpl") = false ->
      result = call_copyFile fx templatePath outputPath calls).
Proof.
  intros templatePath outputPath result. subst result.
  rewrite recursiveCopyTemplate_File. fold templatePath outputPath. cbv zeta.
  destruct (endsWith templatePath (lit ".DS_Store")) eqn:Hmarker.
  - split; [done|]. done.
  - split; [|by intros _ ->].
    split; [|done]. intros H. exfalso.
    destruct (endsWith templatePath (lit ".tmpl")).
    + destruct (render context contents) as [out|e]; [|done].
      unfold call_writeFile in H. injection H as _ H. by apply snoc_neq in H.
    + unfold call_copyFile in H. injection H as _ H. by apply snoc_neq in H.
Qed.

(** C5, as the code has it.  The file of a directory entry is passed
    over, with no call made for it, exactly when its name ends in
    [.DS_Store]; a file whose name ends neither in [.DS_Store] nor in
    [.tmpl] is handed to [copyFile], template path to output path. *)
Theorem file_skipped_iff_name_ends_with_marker (fx : CreateEffects)
    (inputRoot outputRoot : jsstring) (context : gmap jsstring jsstring)
    (parentStep entry contents : jsstring) (calls : list Call) :
  Path.entry_name entry ->
  let stepPath := Path.join parentStep entry in
  let templatePath := Path.join inputRoot stepPath in
  let outputPath := Path.join outputRoot stepPath in
  let result :=
    recursiveCopyTemplate fx inputRoot outputRoot context (File contents) stepPath calls in
  (result = (Ok tt, calls) <-> endsWith entry (lit ".DS_Store") = true)
  /\ (endsWith entry (lit ".DS_Store") = false ->
      endsWith entry (lit ".tmpl") = false ->
      result = (completion (copyFile fx calls templatePath outputPath),
                calls ++ [CopyFile templatePath outputPath])).
Proof.
  intros Hname stepPath templatePath outputPath result.
  destruct (PathFacts.entry_path_keeps_name inputRoot parentStep entry Hname)
    as (prefix & Hpath & Hprefix).
  assert (Hsuffix : forall suffix,
            Forall (fun c => Path.is_slash c = false) suffix ->
            endsWith templatePath suffix = endsWith entry suffix).
  { intros suffix Hs. subst templatePath stepPath. rewrite Hpath.
    by apply PathFacts.endsWith_last_segment. }
  rewrite <- !Hsuffix by (by repeat constructor).
  apply file_by_path_suffix.
Qed.

Lemma file_skipped_iff_name_ends_with_marker_witness :
  recursiveCopyTemplate quiet (lit "/templates/default") (lit "hello") ∅
    (File (lit "1,2")) (Path.join (lit "docs") (lit "data.csv")) []
  = (Ok tt, [CopyFile (lit "/templates/default/docs/data.csv") (lit "hello/docs/data.csv")]).
Proof.
  refine (proj2 (file_skipped_iff_name_ends_with_marker quiet
                   (lit "/templates/default") (lit "hello") ∅ (lit "docs")
                   (lit "data.csv") (lit "1,2") [] _) eq_refl eq_refl).
  split_and!; try done. by repeat constructor.
Defined.

(** C5, as the specification words it, fails: the file [a.DS_Store] is
    not named [.DS_Store], and it is passed over all the same. *)
Lemma skipped_iff_named_marker_counterexample :
  ~ (recursiveCopyTemplate quiet (lit "/templates/default") (lit "hello") ∅
       (File (lit "x")) (Path.join (lit "docs") (lit "a.DS_Store")) []
     = (Ok tt, [])
     <-> lit "a.DS_Store" = lit ".DS_Store").
Proof. intros [H _]. by specialize (H eq_refl). Qed.

(** *** Placeholders *)

(** C6.  In a template that holds the token [{{projectTitle}}], blanks
    allowed inside the braces, a context that maps [projectTitle] to
    [hello-framework] puts exactly [hello-framework] in the place of
    the token, braces included; and this is what is written for a
    [.tmpl] file. *)
Theorem render_projectTitle (context : gmap jsstring jsstring)
    (pre ws1 ws2 post : jsstring) :
  context !! lit "projectTitle" = Some (lit "hello-framework") ->
  blank ws1 -> blank ws2 ->
  let contents := pre ++ token ws1 (lit "projectTitle") ws2 ++ post in
  render context contents =
  match render context pre, render context post with
  | Ok pre', Ok post' => Ok (pre' ++ lit "hello-framework" ++ post')
  | Thrown e, _ | _, Thrown e => Thrown e
  end
  /\ forall fx inputRoot outputRoot stepPath calls pre' post',
       endsWith (Path.join inputRoot stepPath) (lit ".tmpl") = true ->
       render context pre = Ok pre' ->
       render context post = Ok post' ->
       recursiveCopyTemplate fx inputRoot outputRoot context (File contents) stepPath calls
       = call_writeFile fx (strip_tmpl (Path.join outputRoot stepPath))
           (pre' ++ lit "hello-framework" ++ post') calls.
Proof.
  intros Hctx Hws1 Hws2 contents.
  assert (Hrender : render context contents =
                    match render context pre, render context post with
                    | Ok pre', Ok post' => Ok (pre' ++ lit "hello-framework" ++ post')
                    | Thrown e, _ | _, Thrown e => Thrown e
                    end).
  { subst contents. rewrite render_token; [|done|split; [|done]|done].
    - unfold replacer, get. rewrite Hctx.
      destruct (render context pre) as [pre'|e]; [|done].
      change (truthy (VString (lit "hello-framework"))) with true. cbv iota.
      destruct (render context post) as [post'|e]; simpl; [|done].
      by rewrite <- app_assoc.
    - by vm_compute; repeat constructor. }
  split; [done|].
  intros fx inputRoot outputRoot stepPath calls pre' post' Htmpl Hpre Hpost.
  rewrite recursiveCopyTemplate_File. cbv zeta.
  assert (endsWith (Path.join inputRoot stepPath) (lit ".DS_Store") = false) as ->.
  { apply not_true_is_false. intros [k1 H1]%endsWith_suffix.
    apply endsWith_suffix in Htmpl as [k2 H2].
    rewrite H1 in H2. apply (f_equal reverse) in H2.
    rewrite !reverse_app in H2. by vm_compute in H2. }
  by rewrite Htmpl, Hrender, Hpre, Hpost.
Qed.

Lemma render_projectTitle_witness :
  render (<[lit "projectTitle" := lit "hello-framework"]> ∅)
    (lit "# " ++ token (lit " ") (lit "projectTitle") (lit " ") ++ lit "!")
  = Ok (lit "# hello-framework!").
Proof.
  exact (proj1 (render_projectTitle
                  (<[lit "projectTitle" := lit "hello-framework"]> ∅)
                  (lit "# ") (lit " ") (lit " ") (lit "!")
                  eq_refl
                  ltac:(by repeat constructor) ltac:(by repeat constructor))).
Defined.

Lemma replacer_unresolved (context : gmap jsstring jsstring) (key : jsstring) :
  unresolved context key ->
  replacer context key = Thrown (JsError (lit "no template variable " ++ key)).
Proof.
  unfold replacer, get. by intros [[-> ->]| ->].
Qed.

(** The first unresolved placeholder of a [.tmpl] file makes the file
    fail with an error naming the key, and no call is made for the
    file. *)
Lemma unresolved_placeholder_throws (fx : CreateEffects)
    (inputRoot outputRoot : jsstring) (context : gmap jsstring jsstring)
    (pre pre' ws1 key ws2 post stepPath : jsstring) (calls : list Call) :
  blank ws1 -> identifier key -> blank ws2 ->
  unresolved context key ->
  render context pre = Ok pre' ->
  endsWith (Path.join inputRoot stepPath) (lit ".tmpl") = true ->
  let contents := pre ++ token ws1 key ws2 ++ post in
  render context contents = Thrown (JsError (lit "no template variable " ++ key))
  /\ recursiveCopyTemplate fx inputRoot outputRoot context (File contents) stepPath calls
     = (Thrown (JsError (lit "no template variable " ++ key)), calls).
Proof.
  intros Hws1 Hkey Hws2 Hun Hpre Htmpl contents.
  assert (Hrender : render context contents
                    = Thrown (JsError (lit "no template variable " ++ key))).
  { subst contents. rewrite render_token by done.
    by rewrite Hpre, replacer_unresolved. }
  split; [done|].
  rewrite recursiveCopyTemplate_File. cbv zeta.
  assert (endsWith (Path.join inputRoot stepPath) (lit ".DS_Store") = false) as ->.
  { apply not_true_is_false. intros [k1 H1]%endsWith_suffix.
    apply endsWith_suffix in Htmpl as [k2 H2].
    rewrite H1 in H2. apply (f_equal reverse) in H2.
    rewrite !reverse_app in H2. by vm_compute in H2. }
  by rewrite Htmpl, Hrender.
Qed.

(** C3 does not hold of the code.  The key [constructor] has no mapping
    in the context, yet [context[key]] finds the function inherited
    from [Object.prototype], which is truthy: nothing is thrown, and
    the text of that function is written in place of the token. *)
Theorem inherited_property_is_substituted :
  let context : gmap jsstring jsstring :=
    <[lit "projectTitle" := lit "hello-framework"]> ∅ in
  context !! lit "constructor" = None
  /\ render context (lit "{{constructor}}")
     = Ok (lit "function Object() { [native code] }")
  /\ recursiveCopyTemplate quiet (lit "/templates/default") (lit "hello") context
       (File (lit "{{constructor}}")) (lit "README.md.tmpl") []
     = (Ok tt,
        [WriteFile (lit "hello/README.md")
           (lit "function Object() { [native code] }")]).
Proof. by vm_compute. Qed.

End CreateFacts.

(** ** Login, logout, whoami *)

Module AuthFacts.
Import Js Auth JsFacts.

(** *** Events *)

Lemma emit_all_nil (st : State) : emit_all [] st = st.
Proof. destruct st. unfold emit_all. simpl. by rewrite app_nil_r. Qed.

Lemma emit_all_app (a b : list Event) (st : State) :
  emit_all b (emit_all a st) = emit_all (a ++ b) st.
Proof. unfold emit_all. simpl. by rewrite app_assoc. Qed.

Lemma emit_one (e : Event) (st : State) : emit e st = emit_all [e] st.
Proof. reflexivity. Qed.

Lemma polled_app (a b : list Event) : polled (a ++ b) = polled a ++ polled b.
Proof. apply omap_app. Qed.

Lemma writes_app (a b : list Event) : writes (a ++ b) = writes a ++ writes b.
Proof. apply omap_app. Qed.

Lemma polled_pending_rounds (requestId : jsstring) (pendings : list PollResponse) :
  polled (flat_map (pending_round requestId) pendings) = map Ok pendings.
Proof. induction pendings as [|p ps IH]; simpl; [done|]. by rewrite <- IH. Qed.

(** *** The polling loop *)

Lemma poll_loop_cons (requestId : jsstring) (answer : Result PollResponse)
    (answers : list (Result PollResponse)) (st : State) :
  poll_loop requestId (answer :: answers) st =
  let st := emit (PostAuthRequestPoll requestId answer) st in
  match answer with
  | Thrown e => (LoopThrew e, st)
  | Ok requestPoll =>
      match poll_switch requestPoll st with
      | (Thrown e, st) => (LoopThrew e, st)
      | (Ok apiKey, st) =>
          let st := emit (Sleep 1000) st in
          match apiKey with
          | KNull => poll_loop requestId answers st
          | _ => (LoopDone apiKey, st)
          end
      end
  end.
Proof. reflexivity. Qed.

(** Polls answered [pending] are each followed by one sleep, and the
    loop goes on. *)
Lemma poll_loop_pendings (requestId : jsstring) (pendings : list PollResponse)
    (answers : list (Result PollResponse)) (st : State) :
  Forall pending pendings ->
  poll_loop requestId (map Ok pendings ++ answers) st =
  poll_loop requestId answers
    (emit_all (flat_map (pending_round requestId) pendings) st).
Proof.
  intros H. revert st. induction H as [|p ps Hp _ IH]; intros st.
  - by rewrite emit_all_nil.
  - simpl map. simpl app. rewrite poll_loop_cons. cbv zeta.
    unfold poll_switch. unfold pending in Hp. rewrite Hp, eqb_refl.
    rewrite IH, !emit_one, !emit_all_app. done.
Qed.

(** On a terminal status the loop ends as the contract says, whatever
    answers are still to come. *)
Lemma poll_loop_terminal (requestId : jsstring) (requestPoll : PollResponse)
    (exit : LoopExit) (closing : list Event)
    (answers : list (Result PollResponse)) (st : State) :
  terminal requestPoll exit closing ->
  poll_loop requestId (Ok requestPoll :: answers) st =
  (exit, emit_all (PostAuthRequestPoll requestId (Ok requestPoll) :: closing) st).
Proof.
  intros [info|a|a|raw a Hraw]; rewrite poll_loop_cons; cbv zeta;
    unfold poll_switch; simpl status; simpl apiKey.
  - compare_literals. by rewrite !emit_one, !emit_all_app.
  - compare_literals. by rewrite !emit_one, !emit_all_app.
  - compare_literals. by rewrite !emit_one, !emit_all_app.
  - rewrite !not_elem_of_cons in Hraw. destruct Hraw as (H1 & H2 & H3 & H4 & _).
    apply eqb_neq in H1, H2, H3, H4. rewrite H1, H2, H3, H4.
    by rewrite !emit_one, !emit_all_app.
Qed.

Lemma terminal_closing_no_poll (requestPoll : PollResponse) (exit : LoopExit)
    (closing : list Event) :
  terminal requestPoll exit closing -> polled closing = [].
Proof. by intros []. Qed.

(** C1.  On any run of [pending] answers followed by one terminal
    answer, the polling loop of [login] makes one poll and one sleep of
    1000 ms for each [pending] answer, then the poll that gets the
    terminal answer, and ends there as the contract of that status
    says: it polls [length pendings + 1] times and never again,
    whatever answers would follow. *)
Theorem polling_loop_contract (requestId : jsstring)
    (pendings : list PollResponse) (requestPoll : PollResponse)
    (exit : LoopExit) (closing : list Event)
    (answers : list (Result PollResponse)) (st : State) :
  Forall pending pendings ->
  terminal requestPoll exit closing ->
  let new :=
    flat_map (pending_round requestId) pendings
    ++ PostAuthRequestPoll requestId (Ok requestPoll) :: closing in
  poll_loop requestId (map Ok pendings ++ Ok requestPoll :: answers) st
  = (exit, emit_all new st)
  /\ polled new = map Ok pendings ++ [Ok requestPoll].
Proof.
  intros Hpendings Hterminal new. split.
  - rewrite (poll_loop_pendings _ _ _ _ Hpendings).
    rewrite (poll_loop_terminal _ _ _ _ _ _ Hterminal).
    by rewrite emit_all_app.
  - subst new. rewrite polled_app, polled_pending_rounds. simpl.
    by rewrite (terminal_closing_no_poll _ _ _ Hterminal).
Qed.

Lemma polling_loop_contract_witness :
  poll_loop (lit "request-1")
    [Ok {| status := lit "pending"; apiKey := KNull |};
     Ok {| status := lit "pending"; apiKey := KNull |};
     Ok {| status := lit "expired"; apiKey := KNull |};
     Ok {| status := lit "accepted";
           apiKey := KPair {| id := lit "1"; key := lit "secret" |} |}]
    initial
  = (LoopThrew (CliError (lit "That confirmation code expired.")),
     {| events :=
          [PostAuthRequestPoll (lit "request-1")
             (Ok {| status := lit "pending"; apiKey := KNull |});
           Sleep 1000;
           PostAuthRequestPoll (lit "request-1")
             (Ok {| status := lit "pending"; apiKey := KNull |});
           Sleep 1000;
           PostAuthRequestPoll (lit "request-1")
             (Ok {| status := lit "expired"; apiKey := KNull |});
           failed_to_confirm];
        credentials := None |}).
Proof.
  exact (proj1 (polling_loop_contract (lit "request-1")
                  [ {| status := lit "pending"; apiKey := KNull |};
                    {| status := lit "pending"; apiKey := KNull |} ]
                  {| status := lit "expired"; apiKey := KNull |} _ _
                  [Ok {| status := lit "accepted";
                         apiKey := KPair {| id := lit "1"; key := lit "secret" |} |}]
                  initial
                  ltac:(by repeat constructor)
                  (terminal_expired KNull))).
Defined.

(** *** Login *)

Lemma accepted_pairs_app (a b : list Event) :
  accepted_pairs (a ++ b) = accepted_pairs a ++ accepted_pairs b.
Proof. unfold accepted_pairs. by rewrite polled_app, omap_app. Qed.

Lemma login_unfold (imports : Imports) (world : World) (st : State)
    (requestInfo : AuthRequest) :
  postAuthRequest world = Ok requestInfo ->
  login imports world st =
  match poll_loop (requestId requestInfo) (postAuthRequestPoll world)
          (emit_all (opening imports requestInfo) st) with
  | (LoopWaiting, st) => (Waiting, st)
  | (LoopThrew e, st) => (Failed e, st)
  | (LoopDone (KPair info), st) =>
      login_finish imports world info (setObservableApiKey (Some info) st)
  | (LoopDone _, st) =>
      (Failed (CliError (lit "No API key returned from server.")), st)
  end.
Proof.
  intros H. unfold login. rewrite H. rewrite !emit_one, !emit_all_app. simpl app.
  fold (opening imports requestInfo).
  destruct (poll_loop _ _ _) as [[[]| |] ?]; done.
Qed.

(** C7.  When a poll is answered with a status that is none of
    [pending], [accepted], [expired], [consumed], [login] fails with a
    [CliError] whose message holds that status as it was received. *)
Theorem unknown_status_is_reported (imports : Imports) (world : World)
    (requestInfo : AuthRequest) (pendings : list PollResponse)
    (requestPoll : PollResponse) (answers : list (Result PollResponse))
    (st : State) :
  postAuthRequest world = Ok requestInfo ->
  postAuthRequestPoll world = map Ok pendings ++ Ok requestPoll :: answers ->
  Forall pending pendings ->
  status requestPoll ∉ [lit "pending"; lit "accepted"; lit "expired"; lit "consumed"] ->
  let message :=
    lit "Received an unknown polling status " ++ status requestPoll ++ lit "." in
  (login imports world st).1 = Failed (CliError message)
  /\ includes message (status requestPoll).
Proof.
  intros Hrequest Hpolls Hpendings Hraw message. split; [|by eexists _, _].
  rewrite (login_unfold _ _ _ _ Hrequest), Hpolls.
  rewrite (poll_loop_pendings _ _ _ _ Hpendings).
  destruct requestPoll as [raw a].
  by rewrite (poll_loop_terminal _ _ _ _ _ _ (terminal_unknown raw a Hraw)).
Qed.

Lemma unknown_status_is_reported_witness :
  (login plain revoked_after_one_pending initial).1
  = Failed (CliError (lit "Received an unknown polling status revoked."))
  /\ includes (lit "Received an unknown polling status revoked.") (lit "revoked").
Proof.
  refine (unknown_status_is_reported plain revoked_after_one_pending
            {| requestId := lit "request-1"; confirmationCode := lit "ABCD1234" |}
            [ {| status := lit "pending"; apiKey := KNull |} ]
            {| status := lit "revoked"; apiKey := KNull |} [] initial
            eq_refl eq_refl _ _).
  - by repeat constructor.
  - rewrite !not_elem_of_cons. split_and!; try done. apply not_elem_of_nil.
Defined.

(** *** The trace of the loop *)

Lemma emit_all_inj (a b : list Event) (st : State) :
  emit_all a st = emit_all b st -> a = b.
Proof.
  intros H. apply (f_equal events) in H. simpl in H. by apply app_inv_head in H.
Qed.

Lemma polled_rounds (requestId : jsstring) (answers : list (Result PollResponse)) :
  polled (flat_map (poll_round requestId) answers) = answers.
Proof. induction answers as [|a l IH]; simpl; [done|]. by rewrite IH. Qed.

(** What the [switch] does, by whether the answer asks to poll again. *)
Lemma poll_switch_cases (requestPoll : PollResponse) (st : State) :
  if polls_again (Ok requestPoll)
  then poll_switch requestPoll st = (Ok KNull, st)
  else (exists e, poll_switch requestPoll st
                  = (Thrown e, emit failed_to_confirm st))
       \/ (exists apiKey, poll_switch requestPoll st = (Ok apiKey, st)
                          /\ apiKey <> KNull).
Proof.
  unfold polls_again, poll_switch.
  destruct (eqb (status requestPoll) (lit "pending")) eqn:Hpending; [done|].
  destruct (eqb (status requestPoll) (lit "accepted")) eqn:Haccepted.
  { destruct (apiKey requestPoll) eqn:Hkey; simpl; [done|right; by eexists..]. }
  simpl. left.
  destruct (eqb (status requestPoll) (lit "expired"));
    [|destruct (eqb (status requestPoll) (lit "consumed"))]; by eexists.
Qed.

(** The whole trace of the loop, for any answers: one round (the poll,
    then the pause) per answer up to the first that ends the loop; the
    poll that makes the loop throw is followed by no pause, only by the
    stop of the spinner when it was answered. *)
Lemma poll_loop_trace (requestId : jsstring)
    (answers : list (Result PollResponse)) (st : State) :
  let taken := take (polls_before_exit answers) answers in
  match (poll_loop requestId answers st).1 with
  | LoopThrew _ =>
      exists before last,
        taken = before ++ [last]
        /\ (poll_loop requestId answers st).2
           = emit_all
               (flat_map (poll_round requestId) before
                ++ PostAuthRequestPoll requestId last
                   :: match last with
                      | Ok _ => [failed_to_confirm]
                      | Thrown _ => []
                      end) st
  | _ =>
      (poll_loop requestId answers st).2
      = emit_all (flat_map (poll_round requestId) taken) st
  end.
Proof.
  revert st. induction answers as [|answer answers IH]; intros st.
  { simpl. by rewrite emit_all_nil. }
  rewrite poll_loop_cons. cbv zeta. cbn [polls_before_exit].
  destruct answer as [requestPoll|e].
  { pose proof (poll_switch_cases requestPoll
                  (emit (PostAuthRequestPoll requestId (Ok requestPoll)) st))
      as Hcases.
    destruct (polls_again (Ok requestPoll)).
    - rewrite Hcases.
      specialize (IH (emit (Sleep 1000)
                        (emit (PostAuthRequestPoll requestId (Ok requestPoll)) st))).
      cbv zeta in IH.
      destruct (poll_loop requestId answers _) as [exit st']. cbn [fst snd] in *.
      destruct exit as [apiKey|e|].
      + subst st'. by rewrite !emit_one, !emit_all_app.
      + destruct IH as (before & last & Htaken & ->).
        exists (Ok requestPoll :: before), last. split.
        * cbn [take]. by rewrite Htaken.
        * by rewrite !emit_one, !emit_all_app.
      + subst st'. by rewrite !emit_one, !emit_all_app.
    - destruct Hcases as [(e & ->) | (apiKey & -> & Hkey)].
      + exists [], (Ok requestPoll). split; [done|].
        by rewrite !emit_one, !emit_all_app.
      + destruct apiKey; [done|..]; cbn [fst snd];
          by rewrite !emit_one, !emit_all_app. }
  exists [], (Thrown e). split; [done|]. by rewrite emit_one.
Qed.

(** The polls of the loop are the answers up to and with the first that
    ends it. *)
Lemma poll_loop_polled (requestId : jsstring)
    (answers : list (Result PollResponse)) (st : State) (new : list Event) :
  (poll_loop requestId answers st).2 = emit_all new st ->
  polled new = take (polls_before_exit answers) answers.
Proof.
  intros Hnew. pose proof (poll_loop_trace requestId answers st) as Htrace.
  cbv zeta in Htrace.
  destruct (poll_loop requestId answers st).1.
  - rewrite Hnew in Htrace. apply emit_all_inj in Htrace as ->.
    apply polled_rounds.
  - destruct Htrace as (before & last & -> & Hst).
    rewrite Hnew in Hst. apply emit_all_inj in Hst as ->.
    rewrite polled_app, polled_rounds. by destruct last.
  - rewrite Hnew in Htrace. apply emit_all_inj in Htrace as ->.
    apply polled_rounds.
Qed.

(** After answers that are all [pending], an answer that does not ask
    to poll again is the last one polled. *)
Lemma take_polls_before_exit (pendings : list PollResponse)
    (answer : Result PollResponse) (rest : list (Result PollResponse)) :
  Forall pending pendings ->
  polls_again answer = false ->
  take (polls_before_exit (map Ok pendings ++ answer :: rest))
    (map Ok pendings ++ answer :: rest)
  = map Ok pendings ++ [answer].
Proof.
  intros Hpendings Hanswer.
  induction Hpendings as [|p ps Hp _ IH]; simpl.
  - by rewrite Hanswer.
  - unfold pending in Hp. rewrite Hp, eqb_refl. simpl. by rewrite IH.
Qed.

(** Any run of the polling loop: it writes no credential, and it ends
    with a key only on an answer [accepted] that carries one. *)
Lemma poll_loop_run (requestId : jsstring)
    (answers : list (Result PollResponse)) (st : State) :
  exists new,
    (poll_loop requestId answers st).2 = emit_all new st
    /\ writes new = []
    /\ match (poll_loop requestId answers st).1 with
       | LoopDone apiKey =>
           apiKey <> KNull
           /\ accepted_pairs new
              = match apiKey with KPair info => [info] | _ => [] end
           /\ exists requestPoll,
                last (polled new) = Some (Ok requestPoll)
                /\ status requestPoll = lit "accepted"
       | _ => accepted_pairs new = []
       end.
Proof.
  revert st. induction answers as [|answer answers IH]; intros st.
  { exists []. by rewrite emit_all_nil. }
  rewrite poll_loop_cons. cbv zeta.
  destruct answer as [requestPoll|e]; [|by eexists [_]].
  set (poll := PostAuthRequestPoll requestId (Ok requestPoll)).
  assert (Hcontinue :
    accepted_pair (Ok requestPoll) = None ->
    exists new,
      (poll_loop requestId answers (emit (Sleep 1000) (emit poll st))).2
      = emit_all new st
      /\ writes new = []
      /\ match (poll_loop requestId answers (emit (Sleep 1000) (emit poll st))).1 with
         | LoopDone apiKey =>
             apiKey <> KNull
             /\ accepted_pairs new
                = match apiKey with KPair info => [info] | _ => [] end
             /\ exists requestPoll,
                  last (polled new) = Some (Ok requestPoll)
                  /\ status requestPoll = lit "accepted"
         | _ => accepted_pairs new = []
         end).
  { intros Hnone.
    destruct (IH (emit (Sleep 1000) (emit poll st))) as (new & Hst & Hw & Hexit).
    exists ([poll; Sleep 1000] ++ new). split_and!.
    - by rewrite Hst, !emit_one, !emit_all_app.
    - by rewrite writes_app, Hw.
    - assert (Hpairs : accepted_pairs ([poll; Sleep 1000] ++ new)
                       = accepted_pairs new).
      { rewrite accepted_pairs_app. unfold accepted_pairs at 1. simpl.
        unfold accepted_pair in Hnone. by rewrite Hnone. }
      rewrite Hpairs.
      destruct (poll_loop _ _ _).1; [|done..].
      destruct Hexit as (Hnull & Hp & r & Hlast & Hr).
      split_and!; [done..|]. exists r. split; [|done].
      rewrite polled_app. simpl.
      destruct (polled new) as [|x xs]; [done|].
      by rewrite last_cons, Hlast. }
  unfold poll_switch.
  destruct (eqb (status requestPoll) (lit "pending")) eqn:Ep.
  { apply Hcontinue. unfold accepted_pair. apply eqb_eq in Ep. by rewrite Ep. }
  destruct (eqb (status requestPoll) (lit "accepted")) eqn:Ea.
  { destruct (apiKey requestPoll) as [| |info] eqn:Hkey.
    - apply Hcontinue. unfold accepted_pair. by rewrite Ea, Hkey.
    - exists [poll; Sleep 1000]. simpl. split_and!; try done.
      + by rewrite !emit_one, !emit_all_app.
      + unfold accepted_pairs. simpl. by rewrite Ea, Hkey.
      + exists requestPoll. by apply eqb_eq in Ea.
    - exists [poll; Sleep 1000]. simpl. split_and!; try done.
      + by rewrite !emit_one, !emit_all_app.
      + unfold accepted_pairs. simpl. by rewrite Ea, Hkey.
      + exists requestPoll. by apply eqb_eq in Ea. }
  assert (accepted_pairs [poll; failed_to_confirm] = []) as Hnone
    by (unfold accepted_pairs; simpl; by rewrite Ea).
  destruct (eqb (status requestPoll) (lit "expired"));
    [|destruct (eqb (status requestPoll) (lit "consumed"))];
    exists [poll; failed_to_confirm]; simpl;
    by rewrite !emit_one, !emit_all_app.
Qed.

(** The end of [login], once the key is stored: no write, no poll. *)
Lemma login_finish_run (imports : Imports) (world : World) (info : KeyPair)
    (st : State) :
  exists new,
    (login_finish imports world info st).2 = emit_all new st
    /\ writes new = [] /\ polled new = [].
Proof.
  unfold login_finish.
  destruct (getCurrentUser world (key info)) as [user|e].
  - destruct (length (workspaces user) =? 0);
      [|destruct (1 <? length (workspaces user))];
      rewrite !emit_one, !emit_all_app; by eexists.
  - rewrite !emit_one, !emit_all_app. by eexists.
Qed.

(** Any run of [login], read on its own trace: the polls are those the
    world answers up to the end of the loop, and the writes are the key
    pairs of the polls answered [accepted]. *)
Lemma login_run (imports : Imports) (world : World) (st : State) :
  exists new,
    events (login imports world st).2 = events st ++ new
    /\ polled new = asked world
    /\ writes new = Some <$> accepted_pairs new
    /\ length (accepted_pairs new) <= 1
    /\ credentials (login imports world st).2
       = match accepted_pairs new with
         | info :: _ => Some info
         | [] => credentials st
         end
    /\ forall requestPoll,
         last (polled new) = Some (Ok requestPoll) ->
         status requestPoll <> lit "accepted" ->
         writes new = []
         /\ credentials (login imports world st).2 = credentials st.
Proof.
  unfold asked.
  destruct (postAuthRequest world) as [requestInfo|e] eqn:Hrequest.
  2:{ unfold login. rewrite Hrequest. rewrite !emit_one, !emit_all_app.
      eexists. split; [done|]. split_and!; simpl; by try lia. }
  rewrite (login_unfold _ _ _ _ Hrequest).
  destruct (poll_loop_run (requestId requestInfo) (postAuthRequestPoll world)
              (emit_all (opening imports requestInfo) st))
    as (new & Hst & Hw & Hexit).
  pose proof (poll_loop_polled _ _ _ _ Hst) as Hpolled.
  destruct (poll_loop _ _ _) as [exit st']. simpl in Hst, Hexit. subst st'.
  rewrite emit_all_app.
  assert (Hopening : forall evs,
            writes (opening imports requestInfo ++ evs) = writes evs
            /\ polled (opening imports requestInfo ++ evs) = polled evs
            /\ accepted_pairs (opening imports requestInfo ++ evs)
               = accepted_pairs evs) by done.
  destruct exit as [[| |info]|e|].
  - by destruct Hexit.
  - destruct Hexit as (_ & Hpairs & _).
    exists (opening imports requestInfo ++ new). split; [done|].
    destruct (Hopening new) as (-> & -> & ->). rewrite Hw, Hpairs.
    split_and!; simpl; by try lia.
  - destruct Hexit as (_ & Hpairs & r & Hlast & Hr).
    destruct (login_finish_run imports world info
                (setObservableApiKey (Some info)
                   (emit_all (opening imports requestInfo ++ new) st)))
      as (post & -> & Hwp & Hpp).
    exists (opening imports requestInfo
            ++ new ++ SetObservableApiKey (Some info) :: post).
    split; [simpl; by rewrite <- !app_assoc|].
    destruct (Hopening (new ++ SetObservableApiKey (Some info) :: post))
      as (-> & -> & ->).
    rewrite writes_app, accepted_pairs_app, Hw, Hpairs, polled_app.
    assert (accepted_pairs (SetObservableApiKey (Some info) :: post) = []) as ->
      by (unfold accepted_pairs; simpl; by rewrite Hpp).
    change (polled (SetObservableApiKey (Some info) :: post)) with (polled post).
    change (writes (SetObservableApiKey (Some info) :: post))
      with (Some info :: writes post).
    rewrite Hwp, Hpp, app_nil_r.
    split_and!; simpl; try done; try lia.
    intros r' Hr'. rewrite Hlast in Hr'. injection Hr' as <-. done.
  - exists (opening imports requestInfo ++ new). split; [done|].
    destruct (Hopening new) as (-> & -> & ->). rewrite Hw, Hexit.
    split_and!; simpl; by try lia.
  - exists (opening imports requestInfo ++ new). split; [done|].
    destruct (Hopening new) as (-> & -> & ->). rewrite Hw, Hexit.
    split_and!; simpl; by try lia.
Qed.

(** C2.  In any run of [login], the polls made are the answers of the
    service up to and with the first that ends the loop, none when the
    request fails; the credential-store writes are the key pairs of
    those answers that are [accepted], each written as it was received,
    and there is at most one; the store ends holding that pair, or else
    what it held before.  So when, after any number of [pending]
    answers, the service answers [accepted] with a pair, that pair is
    written, once, and the store holds it; and when it answers with
    another status ([expired], [consumed], an unknown one) nothing is
    written and the store is as it was. *)
Theorem login_writes_accepted_key (imports : Imports) (world : World) (st : State) :
  exists new,
    events (login imports world st).2 = events st ++ new
    /\ polled new = asked world
    /\ writes new = Some <$> omap accepted_pair (asked world)
    /\ length (omap accepted_pair (asked world)) <= 1
    /\ credentials (login imports world st).2
       = match omap accepted_pair (asked world) with
         | info :: _ => Some info
         | [] => credentials st
         end
    /\ (forall requestPoll,
          last (asked world) = Some (Ok requestPoll) ->
          status requestPoll <> lit "accepted" ->
          writes new = []
          /\ credentials (login imports world st).2 = credentials st)
    /\ (forall requestInfo pendings info rest,
          postAuthRequest world = Ok requestInfo ->
          postAuthRequestPoll world
          = map Ok pendings
            ++ Ok {| status := lit "accepted"; apiKey := KPair info |} :: rest ->
          Forall pending pendings ->
          writes new = [Some info]
          /\ credentials (login imports world st).2 = Some info)
    /\ (forall requestInfo pendings requestPoll rest,
          postAuthRequest world = Ok requestInfo ->
          postAuthRequestPoll world = map Ok pendings ++ Ok requestPoll :: rest ->
          Forall pending pendings ->
          status requestPoll ∉ [lit "pending"; lit "accepted"] ->
          writes new = []
          /\ credentials (login imports world st).2 = credentials st).
Proof.
  destruct (login_run imports world st)
    as (new & Hevents & Hpolled & Hwrites & Hcount & Hstore & Hother).
  unfold accepted_pairs in Hwrites, Hcount, Hstore. rewrite Hpolled in *.
  exists new. split_and!; try done.
  - intros requestInfo pendings info rest Hrequest Hanswers Hpendings.
    assert (Hasked : asked world
                     = map Ok pendings
                       ++ [Ok {| status := lit "accepted"; apiKey := KPair info |}]).
    { unfold asked. rewrite Hrequest, Hanswers. by apply take_polls_before_exit. }
    assert (Hpairs : omap accepted_pair (asked world) = [info]).
    { rewrite Hasked, omap_app.
      assert (omap accepted_pair (map Ok pendings) = []) as ->; [|done].
      clear -Hpendings. induction Hpendings as [|p ps Hp _ IH]; [done|].
      simpl. unfold pending in Hp. by rewrite Hp. }
    by rewrite Hwrites, Hstore, Hpairs.
  - intros requestInfo pendings requestPoll rest Hrequest Hanswers Hpendings
      Hstatus.
    apply (Hother requestPoll).
    + unfold asked. rewrite Hrequest, Hanswers.
      rewrite take_polls_before_exit; [by rewrite last_snoc|done|].
      unfold polls_again.
      assert (eqb (status requestPoll) (lit "pending") = false) as ->
        by (apply eqb_neq; intros H; apply Hstatus; rewrite H; rewrite !elem_of_cons; auto).
      assert (eqb (status requestPoll) (lit "accepted") = false) as ->
        by (apply eqb_neq; intros H; apply Hstatus; rewrite H; rewrite !elem_of_cons; auto).
      done.
    + intros H. apply Hstatus. rewrite H. rewrite !elem_of_cons; auto.
Qed.

Lemma login_writes_accepted_key_witness :
  (exists new,
     events (login plain accepted_then_down initial).2 = [] ++ new
     /\ writes new = [Some {| id := lit "1"; key := lit "secret" |}]
     /\ credentials (login plain accepted_then_down initial).2
        = Some {| id := lit "1"; key := lit "secret" |})
  /\ (exists new,
        events (login plain revoked_after_one_pending initial).2 = [] ++ new
        /\ writes new = []
        /\ credentials (login plain revoked_after_one_pending initial).2 = None).
Proof.
  split.
  - destruct (login_writes_accepted_key plain accepted_then_down initial)
      as (new & Hev & _ & _ & _ & _ & _ & Haccepted & _).
    exists new. split; [exact Hev|].
    apply (Haccepted
             {| requestId := lit "request-1"; confirmationCode := lit "ABCD1234" |}
             [{| status := lit "pending"; apiKey := KNull |}]
             {| id := lit "1"; key := lit "secret" |} []); [done..|].
    by repeat constructor.
  - destruct (login_writes_accepted_key plain revoked_after_one_pending initial)
      as (new & Hev & _ & _ & _ & _ & _ & _ & Hother).
    exists new. split; [exact Hev|].
    apply (Hother
             {| requestId := lit "request-1"; confirmationCode := lit "ABCD1234" |}
             [{| status := lit "pending"; apiKey := KNull |}]
             {| status := lit "revoked"; apiKey := KNull |} []); [done..| |].
    + by repeat constructor.
    + apply (bool_decide_unpack _). by vm_compute.
Defined.

(** An answer [accepted] that carries no key pair is outside the
    contract: with [apiKey: null] the loop sleeps and polls again, and
    without [apiKey] the login fails; neither writes a credential. *)
Lemma accepted_with_null_polls_again (requestId : jsstring)
    (answers : list (Result PollResponse)) (st : State) :
  let requestPoll := {| status := lit "accepted"; apiKey := KNull |} in
  poll_loop requestId (Ok requestPoll :: answers) st
  = poll_loop requestId answers
      (emit_all [PostAuthRequestPoll requestId (Ok requestPoll); Sleep 1000] st).
Proof.
  intros requestPoll. rewrite poll_loop_cons. cbv zeta.
  unfold poll_switch. simpl status. compare_literals.
  simpl apiKey. by rewrite !emit_one, !emit_all_app.
Qed.

Lemma accepted_without_key_fails (imports : Imports) (world : World)
    (requestInfo : AuthRequest) (answers : list (Result PollResponse))
    (st : State) :
  let requestPoll := {| status := lit "accepted"; apiKey := KUndefined |} in
  postAuthRequest world = Ok requestInfo ->
  postAuthRequestPoll world = Ok requestPoll :: answers ->
  login imports world st
  = (Failed (CliError (lit "No API key returned from server.")),
     emit_all (opening imports requestInfo
               ++ [PostAuthRequestPoll (requestId requestInfo) (Ok requestPoll);
                   Sleep 1000]) st).
Proof.
  intros requestPoll Hrequest Hpolls.
  rewrite (login_unfold _ _ _ _ Hrequest), Hpolls, poll_loop_cons.
  cbv zeta. unfold poll_switch. simpl status. compare_literals.
  simpl apiKey. by rewrite !emit_one, !emit_all_app.
Qed.

(** *** Whoami *)

Lemma is_http_401_true (error : Error) :
  is_http_401 error = true <-> exists message, error = HttpError 401 message.
Proof.
  split.
  - destruct error as [| |statusCode message|]; simpl; try done.
    intros ->%Z.eqb_eq. by eexists.
  - by intros [message ->].
Qed.

Lemma is_http_401_false (error : Error) :
  is_http_401 error = false <-> forall message, error <> HttpError 401 message.
Proof.
  rewrite <- not_true_iff_false, is_http_401_true. split.
  - intros H message ->. apply H. by eexists.
  - intros H [message ->]. by apply (H message).
Qed.

(** C8.  When the user fetch of [whoami] throws an HTTP error with
    status 401, [whoami] completes and logs one line, chosen by the
    source of the key: the environment variable for [env], the login
    command for [file], a plain line otherwise.  Any other error is
    thrown on as it is, with nothing logged. *)
Theorem whoami_unauthorized (imports : Imports) (world : World) (st : State)
    (apiKey : ApiKey) (error : Error) :
  getObservableApiKey world (credentials st) = Ok apiKey ->
  getCurrentUser world (apiKey_key apiKey) = Thrown error ->
  let fetched :=
    emit_all [GetObservableApiKey; GetCurrentUser (apiKey_key apiKey)] st in
  ((exists message, error = HttpError 401 message) ->
   (source apiKey = lit "env" ->
    whoami imports world st
    = (Completed,
       emit (LoggerLog (lit "Your API key is invalid. Check the value of the "
                        ++ interpolate (envVar apiKey)
                        ++ lit " environment variable.")) fetched))
   /\ (source apiKey = lit "file" ->
       whoami imports world st
       = (Completed,
          emit (LoggerLog (lit "Your API key is invalid. Run "
                           ++ commandInstruction imports (lit "login")
                           ++ lit " to log in again.")) fetched))
   /\ (source apiKey ∉ [lit "env"; lit "file"] ->
       whoami imports world st
       = (Completed, emit (LoggerLog (lit "Your API key is invalid.")) fetched)))
  /\ ((forall message, error <> HttpError 401 message) ->
      whoami imports world st = (Failed error, fetched)).
Proof.
  intros Hkey Huser fetched.
  assert (Hwhoami : whoami imports world st = whoami_catch imports apiKey error fetched).
  { unfold whoami. simpl credentials. rewrite Hkey, Huser.
    subst fetched. by rewrite !emit_one, !emit_all_app. }
  rewrite Hwhoami. unfold whoami_catch. split.
  - intros ->%is_http_401_true. split_and!.
    + intros ->. by compare_literals.
    + intros ->. by compare_literals.
    + rewrite !not_elem_of_cons. intros (Henv & Hfile & _).
      apply eqb_neq in Henv, Hfile. by rewrite Henv, Hfile.
  - by intros ->%is_http_401_false.
Qed.

(** An error of [getObservableApiKey] is thrown on, whatever it is: the
    call is made before the [try]. *)
Lemma whoami_without_key (imports : Imports) (world : World) (st : State)
    (error : Error) :
  getObservableApiKey world (credentials st) = Thrown error ->
  whoami imports world st = (Failed error, emit GetObservableApiKey st).
Proof. intros H. unfold whoami. simpl credentials. by rewrite H. Qed.

Lemma whoami_unauthorized_witness :
  whoami plain key_from_env initial
  = (Completed,
     {| events :=
          [GetObservableApiKey; GetCurrentUser (lit "stale");
           LoggerLog (lit "Your API key is invalid. Check the value of the OBSERVABLE_TOKEN environment variable.")];
        credentials := None |}).
Proof.
  exact (proj1 (proj1 (whoami_unauthorized plain key_from_env initial
                         {| source := lit "env"; apiKey_key := lit "stale";
                            envVar := Some (lit "OBSERVABLE_TOKEN") |}
                         (HttpError 401 (lit "Unauthorized")) eq_refl eq_refl)
                  (ex_intro _ (lit "Unauthorized") eq_refl))
           eq_refl).
Defined.

(** *** Logout *)

(** C9.  [logout] makes one store write, of [null], whatever the store
    holds, and completes; the store is then empty, and a second
    [logout] leaves it as the first did. *)
Theorem logout_erases_credential (st : State) :
  logout st
  = (Completed,
     {| events := events st ++ [SetObservableApiKey None]; credentials := None |})
  /\ writes (events (logout st).2) = writes (events st) ++ [None]
  /\ credentials (logout (logout st).2).2 = credentials (logout st).2.
Proof.
  split_and!; [done| |done]. simpl. by rewrite writes_app.
Qed.

End AuthFacts.

(** ** The package manager of the invoking process *)

Module ScaffoldFacts.
Import Js Template Create Scaffold JsFacts TemplateFacts.

Lemma split_on_nonempty (sep : N) (s : jsstring) : split_on sep s <> [].
Proof.
  induction s as [|c s IH]; simpl; [done|].
  destruct (c =? sep)%N; [done|]. by destruct (split_on sep s).
Qed.

(** The first piece holds no separator, and the text is that piece, or
    that piece, a separator and the text the other pieces come from. *)
Lemma split_on_head (sep : N) (s seg : jsstring) (segs : list jsstring) :
  split_on sep s = seg :: segs ->
  Forall (fun c => c <> sep) seg
  /\ ((s = seg /\ segs = [])
      \/ exists rest, s = seg ++ sep :: rest /\ segs = split_on sep rest).
Proof.
  revert seg segs. induction s as [|c s IH]; intros seg segs; simpl.
  { intros [= <- <-]. split; [constructor|by left]. }
  destruct (N.eqb_spec c sep) as [->|Hc].
  - intros [= <- <-]. split; [constructor|]. right. by exists s.
  - destruct (split_on sep s) as [|seg' segs'] eqn:Hs;
      [by apply split_on_nonempty in Hs|].
    intros [= <- <-]. destruct (IH _ _ eq_refl) as [Hseg Hrest].
    split; [by constructor|].
    destruct Hrest as [[-> ->] | (rest & -> & ->)]; [by left|].
    right. by exists rest.
Qed.

(** A text without separator in front of another joins its first piece. *)
Lemma split_on_app (sep : N) (x y : jsstring) :
  Forall (fun c => c <> sep) x ->
  split_on sep (x ++ y) =
  match split_on sep y with
  | seg :: segs => (x ++ seg) :: segs
  | [] => [x]
  end.
Proof.
  induction 1 as [|c x Hc _ IH]; simpl.
  - pose proof (split_on_nonempty sep y). by destruct (split_on sep y).
  - apply N.eqb_neq in Hc. rewrite Hc, IH.
    pose proof (split_on_nonempty sep y). by destruct (split_on sep y).
Qed.

Lemma bare_no_space (s : jsstring) : bare s -> Forall (fun c => c <> 32%N) s.
Proof. intros H. eapply Forall_impl; [done|]. by intros c [? ?]. Qed.

Lemma bare_no_slash (s : jsstring) : bare s -> Forall (fun c => c <> 47%N) s.
Proof. intros H. eapply Forall_impl; [done|]. by intros c [? ?]. Qed.

(** [inferPackageManager] answers [name] exactly for a user agent that
    starts with [name/version], both non-empty and free of spaces and
    slashes, the version ending at a space, at a slash or with the
    text; an unset variable gives [null]. *)
Theorem inferPackageManager_spec (userAgent name : jsstring) :
  inferPackageManager None = None
  /\ (inferPackageManager (Some userAgent) = Some name <->
      exists version rest,
        userAgent = name ++ 47%N :: version ++ rest
        /\ name <> [] /\ version <> []
        /\ bare name /\ bare version /\ cut_off rest).
Proof.
  split; [done|]. unfold inferPackageManager. split.
  - destruct (eqb userAgent []); [done|].
    destruct (split_on 32 userAgent) as [|pkgSpec pieces] eqn:Hua; [done|].
    destruct (eqb pkgSpec []); [done|].
    destruct (split_on 47 pkgSpec) as [|name' [|version parts]] eqn:Hspec;
      [done..|].
    destruct (eqb name' []) eqn:Hname; [done|].
    destruct (eqb version []) eqn:Hversion; [done|]. simpl.
    intros [= ->]. apply eqb_neq in Hname, Hversion.
    apply split_on_head in Hua as [Hnospace Hua].
    apply split_on_head in Hspec as [Hnoslash Hspec].
    destruct Hspec as [[_ [=]] | (after & -> & Hafter)].
    symmetry in Hafter. apply split_on_head in Hafter as [Hvslash Hafter].
    apply Forall_app in Hnospace as [Hnspace Hrest].
    assert (Hname_bare : bare name)
      by (apply Forall_forall; intros c Hc; split;
          [by apply (proj1 (Forall_forall _ _) Hnspace)
          |by apply (proj1 (Forall_forall _ _) Hnoslash)]).
    assert (Hversion_bare : forall tail, Forall (fun c => c <> 32%N) (47%N :: version ++ tail) ->
                                         bare version).
    { intros tail Ht. inversion Ht as [|? ? _ Ht']; subst.
      apply Forall_app in Ht' as [Hvspace _].
      apply Forall_forall; intros c Hc; split;
        [by apply (proj1 (Forall_forall _ _) Hvspace)
        |by apply (proj1 (Forall_forall _ _) Hvslash)]. }
    destruct Hafter as [[-> ->] | (more & -> & _)].
    + destruct Hua as [[-> ->] | (rest & -> & _)].
      * exists version, []. rewrite app_nil_r. split_and!; try done.
        -- by apply (Hversion_bare []); rewrite app_nil_r.
        -- by left.
      * exists version, (32%N :: rest). split_and!; try done.
        -- by rewrite <- !app_assoc.
        -- by apply (Hversion_bare []); rewrite app_nil_r.
        -- right. exists 32%N, rest. split; [done|by left].
    + destruct Hua as [[-> ->] | (rest & -> & _)].
      * exists version, (47%N :: more). split_and!; try done.
        -- by apply (Hversion_bare (47%N :: more)).
        -- right. exists 47%N, more. split; [done|by right].
      * exists version, (47%N :: more ++ 32%N :: rest). split_and!; try done.
        -- rewrite <- !app_assoc. simpl. by rewrite <- !app_assoc.
        -- by apply (Hversion_bare (47%N :: more)).
        -- right. eexists 47%N, _. split; [done|by right].
  - intros (version & rest & -> & Hname & Hversion & Hnb & Hvb & Hrest).
    assert (eqb (name ++ 47%N :: version ++ rest) [] = false) as ->
      by (apply eqb_neq; by destruct name).
    (* the first space-separated piece *)
    assert (Hpiece : exists tail pieces,
              split_on 32 (name ++ 47%N :: version ++ rest)
              = (name ++ 47%N :: version ++ tail) :: pieces
              /\ (tail = [] \/ exists more, tail = 47%N :: more)).
    { replace (name ++ 47%N :: version ++ rest)
        with ((name ++ 47%N :: version) ++ rest) by (by rewrite <- app_assoc).
      rewrite split_on_app.
      2:{ apply Forall_app. split; [by apply bare_no_space|].
          constructor; [done|by apply bare_no_space]. }
      destruct Hrest as [-> | (c & rest' & -> & [-> | ->])].
      - exists [], []. simpl. rewrite <- app_assoc. by split; [|left].
      - exists [], (split_on 32 rest'). simpl. rewrite <- app_assoc.
        by split; [|left].
      - simpl. destruct (split_on 32 rest') as [|seg segs] eqn:Hsplit;
          [by apply split_on_nonempty in Hsplit|].
        exists (47%N :: seg), segs. rewrite <- app_assoc. simpl.
        split; [done|]. right. by eexists. }
    destruct Hpiece as (tail & pieces & -> & Htail).
    assert (eqb (name ++ 47%N :: version ++ tail) [] = false) as ->
      by (apply eqb_neq; by destruct name).
    rewrite split_on_app by (by apply bare_no_slash). simpl.
    rewrite split_on_app by (by apply bare_no_slash).
    assert (exists parts, match split_on 47 tail with
                          | seg :: segs => (version ++ seg) :: segs
                          | [] => [version]
                          end = version :: parts) as [parts ->].
    { destruct Htail as [-> | [more ->]]; simpl.
      - rewrite app_nil_r. by eexists.
      - rewrite app_nil_r. by eexists. }
    rewrite app_nil_r.
    apply eqb_neq in Hname, Hversion. by rewrite Hname, Hversion.
Qed.

(** ** The [installing] step *)

Lemma commands_app (a b : list Step) : commands (a ++ b) = commands a ++ commands b.
Proof. apply omap_app. Qed.

Lemma commands_effects (calls : list Call) : commands (Effect <$> calls) = [].
Proof. induction calls as [|c calls IH]; [done|]. by simpl. Qed.

Lemma not_installed_app (a b : list Step) :
  ~ installed a -> ~ installed b -> ~ installed (a ++ b).
Proof. unfold installed. rewrite elem_of_app. tauto. Qed.

Lemma not_installed_effects (calls : list Call) : ~ installed (Effect <$> calls).
Proof. unfold installed. by intros (c & ? & _)%list_elem_of_fmap. Qed.

Lemma not_installed_cons (step : Step) (steps : list Step) :
  step <> SpinnerStop (lit "Installed!") -> ~ installed steps ->
  ~ installed (step :: steps).
Proof.
  unfold installed. rewrite elem_of_cons. intros Hne Hnot [Heq|Hin]; [|done].
  by apply Hne.
Qed.

(** What [install_step] adds: the one command, if a package manager
    was chosen, and no closing step. *)
Lemma install_step_run (machine : Machine) (answers : Answers) (steps : list Step) :
  exists new,
    (install_step machine answers steps).2 = steps ++ new
    /\ commands new
       = (if chosen (packageManager answers)
          then [(or_npm (packageManager answers), rootPath answers)] else [])
    /\ ~ installed new.
Proof.
  unfold install_step, chosen, or_npm.
  destruct (packageManager answers) as [p|];
    [destruct (eqb p [])|]; simpl.
  - exists []. rewrite app_nil_r. split_and!; [done..|]. by intros ?%elem_of_nil.
  - eexists. rewrite <- app_assoc. split_and!; [done..|].
    repeat (apply not_installed_cons; [done|]). by intros ?%elem_of_nil.
  - exists []. rewrite app_nil_r. split_and!; [done..|]. by intros ?%elem_of_nil.
Qed.

(** What [git_step] adds: [git init], then [git add -A] unless the first
    failed, and no closing step. *)
Lemma git_step_run (machine : Machine) (answers : Answers) (steps : list Step) :
  exists new,
    (git_step machine answers steps).2 = steps ++ new
    /\ commands new `prefix_of`
       (if initializeGit answers
        then [(lit "git init", rootPath answers); (lit "git add -A", rootPath answers)]
        else [])
    /\ ((git_step machine answers steps).1 = Ok tt ->
        commands new
        = (if initializeGit answers
           then [(lit "git init", rootPath answers); (lit "git add -A", rootPath answers)]
           else []))
    /\ ~ installed new.
Proof.
  unfold git_step. destruct (initializeGit answers).
  2:{ exists []. rewrite app_nil_r. split_and!; [done..|]. by intros ?%elem_of_nil. }
  unfold run_exec.
  destruct (exec machine _ (lit "git init") (rootPath answers)) as [e|]; simpl.
  - eexists. rewrite <- app_assoc. split_and!; [done| |done|].
    + simpl. by exists [(lit "git add -A", rootPath answers)].
    + repeat (apply not_installed_cons; [done|]). by intros ?%elem_of_nil.
  - eexists. rewrite <- !app_assoc. split_and!; [done| | |].
    + done.
    + done.
    + repeat (apply not_installed_cons; [done|]). by intros ?%elem_of_nil.
Qed.

(** In any run of [installing], the commands run are an initial part
    of the planned ones: the chosen package manager, by its bare name,
    then [git init] and [git add -A], all in the project directory.  A
    run that completes has run them all and stopped the spinner with
    [Installed!]; a run that throws has not stopped it; and when copying
    the template throws, no command is run at all. *)
Theorem installing_commands (machine : Machine) (answers : Answers) :
  let copy :=
    recursiveCopyTemplate (effects machine)
      (templateDir machine (template answers)) (rootPath answers)
      (context answers) (templateTree machine (template answers)) (lit ".") [] in
  let run := installing machine answers in
  commands run.2 `prefix_of` planned_commands answers
  /\ (run.1 = Ok tt -> commands run.2 = planned_commands answers /\ installed run.2)
  /\ (forall e, run.1 = Thrown e -> ~ installed run.2)
  /\ (forall e, copy.1 = Thrown e -> run.1 = Thrown e /\ commands run.2 = []).
Proof.
  intros copy run. subst run. unfold installing. fold copy.
  destruct copy as [[[]|e] calls].
  2:{ cbn [fst snd]. rewrite commands_app, commands_effects. split_and!.
      - apply prefix_nil.
      - done.
      - intros _ _. apply not_installed_app; [|apply not_installed_effects].
        repeat (apply not_installed_cons; [done|]). by intros ?%elem_of_nil.
      - by intros ? [= ->]. }
  set (steps0 := [SpinnerStart (lit "Copying template files"); SleepMs 1000]
                 ++ (Effect <$> calls)).
  assert (Hsteps0 : commands steps0 = [] /\ ~ installed steps0).
  { subst steps0. rewrite commands_app, commands_effects. split; [done|].
    apply not_installed_app; [|apply not_installed_effects].
    repeat (apply not_installed_cons; [done|]). by intros ?%elem_of_nil. }
  destruct Hsteps0 as [Hc0 Hi0]. clearbody steps0.
  destruct (install_step_run machine answers steps0) as (new1 & H1 & Hc1 & Hi1).
  destruct (install_step machine answers steps0) as [[[]|e] steps1];
    simpl in H1; subst steps1.
  2:{ cbn [fst snd]. rewrite commands_app, Hc0, Hc1. unfold planned_commands.
      split_and!; [by apply prefix_app_r| done | | done].
      intros _ _. by apply not_installed_app. }
  destruct (git_step_run machine answers (steps0 ++ new1))
    as (new2 & H2 & Hp2 & Hc2 & Hi2).
  destruct (git_step machine answers (steps0 ++ new1)) as [[[]|e] steps2];
    simpl in H2, Hc2; subst steps2; cbn [fst snd].
  - rewrite !commands_app, Hc0, Hc1, (Hc2 eq_refl).
    change (commands (closing machine answers)) with (@nil (jsstring * jsstring)).
    unfold planned_commands. rewrite app_nil_r.
    split_and!; [done| |done|done].
    intros _. split; [done|]. unfold installed, closing.
    rewrite elem_of_app. right. apply list_elem_of_here.
  - rewrite !commands_app, Hc0, Hc1. unfold planned_commands.
    split_and!; [by apply prefix_app| done | | done].
    intros _ _. by repeat apply not_installed_app.
Qed.

Lemma installing_commands_witness :
  commands (installing sample_machine sample_answers).2
  = [(lit "npm", lit "./hello-framework");
     (lit "git init", lit "./hello-framework");
     (lit "git add -A", lit "./hello-framework")]
  /\ installed (installing sample_machine sample_answers).2.
Proof.
  exact (proj1 (proj2 (installing_commands sample_machine sample_answers)) eq_refl).
Defined.

(** ** The context of [create] *)

Lemma runCommand_nonempty (packageManager : option jsstring) :
  runCommand packageManager <> [].
Proof.
  unfold runCommand. destruct (is_yarn packageManager); [done|].
  by destruct (or_npm packageManager).
Qed.

Lemma installCommand_nonempty (packageManager : option jsstring) :
  installCommand packageManager <> [].
Proof.
  unfold installCommand. destruct (is_yarn packageManager); [done|].
  by destruct (or_npm packageManager).
Qed.

Lemma replacer_own (context : gmap jsstring jsstring) (key value : jsstring) :
  context !! key = Some value ->
  replacer context key =
  if eqb value [] then Thrown (JsError (lit "no template variable " ++ key))
  else Ok value.
Proof. intros H. unfold replacer, get. rewrite H. simpl. by destruct (eqb value []). Qed.

(** In the context that [create] builds, the placeholders [runCommand],
    [installCommand] and [projectTitleString] resolve whatever was
    answered; [projectTitle] and [rootPath] resolve unless the base name
    of the path, or the path, is empty, and throw then. *)
Theorem context_resolves (answers : Answers) :
  let title := Path.basename (rootPath answers) in
  let unresolved key := Thrown (JsError (lit "no template variable " ++ key)) in
  replacer (context answers) (lit "runCommand")
  = Ok (runCommand (packageManager answers))
  /\ replacer (context answers) (lit "installCommand")
     = Ok (installCommand (packageManager answers))
  /\ replacer (context answers) (lit "projectTitleString") = Ok (JSON_stringify title)
  /\ replacer (context answers) (lit "projectTitle")
     = (if eqb title [] then unresolved (lit "projectTitle") else Ok title)
  /\ replacer (context answers) (lit "rootPath")
     = (if eqb (rootPath answers) [] then unresolved (lit "rootPath")
        else Ok (rootPath answers)).
Proof.
  intros title unresolved. unfold context. fold title. split_and!.
  - rewrite (replacer_own _ _ (runCommand (packageManager answers))).
    + pose proof (runCommand_nonempty (packageManager answers)) as H.
      by apply eqb_neq in H as ->.
    + by rewrite lookup_insert_eq.
  - rewrite (replacer_own _ _ (installCommand (packageManager answers))).
    + pose proof (installCommand_nonempty (packageManager answers)) as H.
      by apply eqb_neq in H as ->.
    + rewrite lookup_insert_ne by done. by rewrite lookup_insert_eq.
  - rewrite (replacer_own _ _ (JSON_stringify title)); [done|].
    do 4 (rewrite lookup_insert_ne by done). by rewrite lookup_insert_eq.
  - rewrite (replacer_own _ _ title); [done|].
    do 3 (rewrite lookup_insert_ne by done). by rewrite lookup_insert_eq.
  - rewrite (replacer_own _ _ (rootPath answers)); [done|].
    do 2 (rewrite lookup_insert_ne by done). by rewrite lookup_insert_eq.
Qed.

Lemma hex_digit_printable (n : N) : (32 <= hex_digit n)%N.
Proof. unfold hex_digit. destruct (n <? 10)%N; lia. Qed.

Lemma unicode_escape_printable (c : N) :
  Forall (fun u => (32 <= u)%N) (unicode_escape c).
Proof.
  unfold unicode_escape.
  repeat (constructor; [first [apply hex_digit_printable | lia]|]). constructor.
Qed.

Lemma quote_body_cons (c : N) (s : jsstring) :
  quote_body (c :: s) =
  if (c =? 8)%N then lit "\b" ++ quote_body s
  else if (c =? 9)%N then lit "\t" ++ quote_body s
  else if (c =? 10)%N then lit "\n" ++ quote_body s
  else if (c =? 12)%N then lit "\f" ++ quote_body s
  else if (c =? 13)%N then lit "\r" ++ quote_body s
  else if (c =? 34)%N then [92; 34]%N ++ quote_body s
  else if (c =? 92)%N then [92; 92]%N ++ quote_body s
  else if (c <? 32)%N then unicode_escape c ++ quote_body s
  else if is_leading_surrogate c then
    match s with
    | d :: s'' =>
        if is_trailing_surrogate d then c :: d :: quote_body s''
        else unicode_escape c ++ quote_body s
    | [] => unicode_escape c
    end
  else if is_trailing_surrogate c then unicode_escape c ++ quote_body s
  else c :: quote_body s.
Proof. by destruct s. Qed.

Lemma quote_body_printable (s : jsstring) :
  Forall (fun u => (32 <= u)%N) (quote_body s).
Proof.
  remember (length s) as n eqn:Hn. revert s Hn.
  induction n as [n IH] using lt_wf_ind. intros s ->.
  destruct s as [|c s]; [constructor|].
  assert (Hs : Forall (fun u => (32 <= u)%N) (quote_body s))
    by (apply (IH (length s)); simpl; [lia|done]).
  rewrite quote_body_cons.
  repeat match goal with
         | |- Forall _ (if (c =? ?k)%N then _ else _) =>
             destruct (c =? k)%N;
             [apply Forall_app; split; [by repeat constructor|done]|]
         end.
  destruct (N.ltb_spec c 32);
    [apply Forall_app; split; [apply unicode_escape_printable|done]|].
  destruct (is_leading_surrogate c).
  - destruct s as [|d s']; [apply unicode_escape_printable|].
    destruct (is_trailing_surrogate d) eqn:Hd.
    + constructor; [done|]. constructor.
      * unfold is_trailing_surrogate in Hd.
        apply andb_true_iff in Hd as [Hd%N.leb_le _]. lia.
      * apply (IH (length s')); simpl; [lia|done].
    + apply Forall_app; split; [apply unicode_escape_printable|done].
  - destruct (is_trailing_surrogate c);
      [apply Forall_app; split; [apply unicode_escape_printable|done]|].
    by constructor.
Qed.

Lemma quote_body_ordinary (s : jsstring) :
  Forall ordinary s -> quote_body s = s.
Proof.
  intros Hs. induction Hs as [|c s (H32 & H34 & H92 & Hlead & Htrail) _ IH];
    [done|].
  rewrite quote_body_cons, Hlead, Htrail, IH.
  repeat match goal with
         | |- (if (c =? ?k)%N then _ else _) = _ =>
             destruct (N.eqb_spec c k); [lia|]
         end.
  by destruct (N.ltb_spec c 32); [lia|].
Qed.

(** What [create] puts for [projectTitleString], [JSON.stringify] of the
    title, starts and ends with a double quote and holds no code unit
    below U+0020 between them: no raw control character of that range,
    so no raw line feed, carriage return or tab.  Nothing more is
    escaped than the quote, the backslash and lone surrogates: a title
    of other code units from U+0020 on, U+007F, U+0085, U+2028 and
    U+2029 among them, stands between the quotes as it is. *)
Theorem projectTitleString_no_control_character (answers : Answers) :
  let title := Path.basename (rootPath answers) in
  exists quoted,
    context answers !! lit "projectTitleString" = Some (34%N :: quoted ++ [34%N])
    /\ Forall (fun u => (32 <= u)%N) quoted
    /\ (Forall ordinary title -> quoted = title).
Proof.
  intros title. exists (quote_body title). split_and!.
  - unfold context. do 4 (rewrite lookup_insert_ne by done).
    by rewrite lookup_insert_eq.
  - apply quote_body_printable.
  - apply quote_body_ordinary.
Qed.

Lemma projectTitleString_no_control_character_witness :
  context {| rootPath := lit "./a" ++ [8232%N] ++ lit "b";
             includeSampleFiles := true;
             packageManager := None;
             initializeGit := false |} !! lit "projectTitleString"
  = Some (34%N :: (lit "a" ++ [8232%N] ++ lit "b") ++ [34%N]).
Proof.
  destruct (projectTitleString_no_control_character
              {| rootPath := lit "./a" ++ [8232%N] ++ lit "b";
                 includeSampleFiles := true;
                 packageManager := None;
                 initializeGit := false |})
    as (quoted & Hvalue & _ & Hordinary).
  rewrite Hvalue, Hordinary; [done|].
  repeat constructor; by vm_compute.
Defined.

End ScaffoldFacts.

(** ** More on rendering *)

Module RenderFacts.
Import Js Template Create JsFacts TemplateFacts CreateFacts.

(** A text that nowhere holds two opening braces in a row is rendered
    as it is, whatever the context. *)
Theorem render_plain_text (context : gmap jsstring jsstring) (contents : jsstring) :
  ~ opens_token contents -> render context contents = Ok contents.
Proof.
  unfold render. induction contents as [|c contents IH]; intros Hplain; [done|].
  assert (Hnone : match_token (c :: contents) = None).
  { unfold match_token. destruct contents as [|c2 rest]; [done|].
    destruct ((c =? 123)%N && (c2 =? 123)%N) eqn:E; [|done].
    apply andb_true_iff in E as [->%N.eqb_eq ->%N.eqb_eq].
    exfalso. apply Hplain. by exists [], rest. }
  rewrite (replaceAll_no_match _ _ _ Hnone), IH; [done|].
  intros (pre & post & ->). apply Hplain. by exists (c :: pre), post.
Qed.

Lemma render_plain_text_witness :
  render ∅ (lit "a { b } c") = Ok (lit "a { b } c").
Proof.
  apply render_plain_text. intros (pre & post & H). vm_compute in H.
  repeat (destruct pre as [|? pre]; [discriminate|injection H as _ H]).
  by destruct pre.
Defined.

(** A placeholder whose key the context maps to a non-empty value is
    replaced by that value as it is: the value is not scanned again,
    even if it holds a placeholder itself. *)
Theorem render_substitutes_verbatim (context : gmap jsstring jsstring)
    (pre ws1 key ws2 post value : jsstring) :
  blank ws1 -> identifier key -> blank ws2 ->
  context !! key = Some value -> value <> [] ->
  render context (pre ++ token ws1 key ws2 ++ post) =
  match render context pre, render context post with
  | Ok pre', Ok post' => Ok (pre' ++ value ++ post')
  | Thrown e, _ | _, Thrown e => Thrown e
  end.
Proof.
  intros Hws1 Hkey Hws2 Hctx Hvalue. rewrite render_token by done.
  destruct (render context pre) as [pre'|e]; [|done].
  unfold replacer, get. rewrite Hctx. simpl.
  apply eqb_neq in Hvalue as ->. simpl.
  destruct (render context post) as [post'|e]; simpl; [|done].
  by rewrite <- app_assoc.
Qed.

Lemma render_substitutes_verbatim_witness :
  render (<[lit "a" := lit "{{b}}"]> (<[lit "b" := lit "x"]> ∅))
    (lit "<" ++ token [] (lit "a") [] ++ lit ">")
  = Ok (lit "<{{b}}>").
Proof.
  exact (render_substitutes_verbatim
           (<[lit "a" := lit "{{b}}"]> (<[lit "b" := lit "x"]> ∅))
           (lit "<") [] (lit "a") [] (lit ">") (lit "{{b}}")
           ltac:(constructor) ltac:(split; [by repeat constructor|done])
           ltac:(constructor) eq_refl ltac:(done)).
Defined.

Lemma unresolved_placeholder_throws_witness :
  recursiveCopyTemplate quiet (lit "/templates/default") (lit "hello")
    (<[lit "projectTitle" := lit "hello"]> ∅)
    (File (lit "# " ++ token [] (lit "missingKey") [] ++ lit "!"))
    (lit "README.md.tmpl") []
  = (Thrown (JsError (lit "no template variable missingKey")), []).
Proof.
  exact (proj2 (unresolved_placeholder_throws quiet (lit "/templates/default")
                  (lit "hello") (<[lit "projectTitle" := lit "hello"]> ∅)
                  (lit "# ") (lit "# ") [] (lit "missingKey") [] (lit "!")
                  (lit "README.md.tmpl") []
                  ltac:(constructor) ltac:(split; [by repeat constructor|done])
                  ltac:(constructor) ltac:(by left) eq_refl eq_refl)).
Defined.

End RenderFacts.

(** ** More on the walk *)

Module WalkFacts.
Import Js Template Path Create JsFacts TemplateFacts PathFacts CreateFacts.

Lemma entry_name_last (before name : jsstring) :
  entry_name name ->
  match last (before ++ name) with Some c => is_slash c | None => false end = false.
Proof.
  intros (Hne & Hslash & _).
  destruct name as [|x name _] using rev_ind; [done|].
  rewrite app_assoc, last_snoc.
  apply Forall_app in Hslash as [_ Hx]. by inversion Hx.
Qed.

Lemma normalized_prefix_up_to_slash (before : jsstring) :
  up_to_slash (normalized_prefix before).
Proof.
  unfold normalized_prefix.
  destruct (match before with c0 :: _ => is_slash c0 | [] => true end);
    destruct (rev _) as [|seg segs]; simpl.
  - right. by exists [].
  - right. exists (47%N :: join_segments (seg :: segs)). done.
  - by left.
  - right. by eexists.
Qed.

Lemma normalize_unfold (path : jsstring) (c0 : N) (rest : jsstring) :
  path = c0 :: rest ->
  normalize path =
    match normalizeString path (negb (is_slash c0)) with
    | [] =>
        if is_slash c0 then lit "/"
        else if match last path with Some c => is_slash c | None => false end
             then lit "./" else lit "."
    | path' =>
        let path'' :=
          if match last path with Some c => is_slash c | None => false end
          then path' ++ lit "/" else path' in
        if is_slash c0 then 47%N :: path'' else path''
    end.
Proof. intros ->. unfold normalize. by destruct (normalizeString _ _). Qed.

(** Normalizing puts a name that follows a slash behind a prefix that
    does not depend on the name. *)
Lemma normalize_after_slash (before name : jsstring) :
  entry_name name ->
  normalize (before ++ 47%N :: name) = normalized_prefix before ++ name.
Proof.
  intros Hname. pose proof Hname as (Hne & Hslash & _).
  unfold normalized_prefix.
  set (absolute := match before with c0 :: _ => is_slash c0 | [] => true end).
  assert (Hhead : exists c0 rest,
            before ++ 47%N :: name = c0 :: rest /\ is_slash c0 = absolute).
  { subst absolute. destruct before as [|c0 before]; simpl; by do 2 eexists. }
  destruct Hhead as (c0 & rest & Hpath & Habs).
  rewrite (normalize_unfold _ _ _ Hpath), Habs.
  pose proof (entry_name_last (before ++ [47%N]) _ Hname) as Hlast.
  rewrite <- app_assoc in Hlast. simpl app in Hlast. rewrite Hlast.
  unfold normalizeString.
  rewrite split_app, (split_name _ Hslash), fold_left_app. simpl fold_left.
  rewrite normalize_step_name by done. simpl rev. rewrite join_segments_snoc.
  set (segs := rev (fold_left (normalize_step (negb absolute)) (split before) [])).
  assert (Hbody : exists y ys,
            match segs with
            | [] => name
            | _ :: _ => join_segments segs ++ 47%N :: name
            end = y :: ys).
  { destruct segs as [|seg segs']; [destruct name; [done|by do 2 eexists]|].
    destruct (join_segments (seg :: segs')); by do 2 eexists. }
  destruct Hbody as (y & ys & Hbody). rewrite Hbody, <- Hbody.
  destruct absolute, segs as [|seg segs']; simpl; try done;
    by rewrite <- app_assoc.
Qed.

Lemma normalize_name (name : jsstring) : entry_name name -> normalize name = name.
Proof.
  intros Hname. pose proof Hname as (Hne & Hslash & _).
  destruct name as [|c0 name'] eqn:E; [done|]. rewrite <- E in *.
  rewrite (normalize_unfold _ _ _ E).
  pose proof (entry_name_last [] _ Hname) as Hlast.
  simpl app in Hlast. rewrite Hlast.
  assert (is_slash c0 = false) as ->
    by (rewrite E in Hslash; by inversion Hslash).
  unfold normalizeString. rewrite (split_name _ Hslash). simpl.
  rewrite normalize_step_name by done. simpl. by rewrite E.
Qed.

(** The path [join] gives to an entry is a prefix that does not depend
    on the name of the entry, then the name. *)
Lemma join_uniform (a q : jsstring) :
  up_to_slash q ->
  exists prefix,
    up_to_slash prefix
    /\ forall name, entry_name name -> join a (q ++ name) = prefix ++ name.
Proof.
  intros Hq. destruct a as [|c a], Hq as [-> | [before ->]].
  - exists []. split; [by left|]. intros name Hname.
    pose proof Hname as (Hne & _). unfold join. simpl.
    destruct name; [done|]. by apply normalize_name.
  - exists (normalized_prefix before). split; [apply normalized_prefix_up_to_slash|].
    intros name Hname. unfold join.
    destruct ((before ++ [47%N]) ++ name) eqn:E; [by destruct before|].
    rewrite <- E, <- app_assoc. by apply normalize_after_slash.
  - exists (normalized_prefix (c :: a)).
    split; [apply normalized_prefix_up_to_slash|].
    intros name Hname. pose proof Hname as (Hne & _). unfold join. simpl app.
    destruct name as [|x name'] eqn:E; [done|]. rewrite <- E in *.
    exact (normalize_after_slash (c :: a) name Hname).
  - exists (normalized_prefix ((c :: a) ++ 47%N :: before)).
    split; [apply normalized_prefix_up_to_slash|].
    intros name Hname. unfold join.
    destruct ((before ++ [47%N]) ++ name) eqn:E; [by destruct before|].
    rewrite <- E.
    replace ((c :: a) ++ 47%N :: (before ++ [47%N]) ++ name)
      with (((c :: a) ++ 47%N :: before) ++ 47%N :: name)
      by (simpl; by rewrite <- !app_assoc).
    by apply normalize_after_slash.
Qed.

Lemma entry_path_uniform (root stepPath : jsstring) :
  exists prefix,
    up_to_slash prefix
    /\ forall entry, entry_name entry ->
                     join root (join stepPath entry) = prefix ++ entry.
Proof.
  destruct (join_uniform stepPath [] ltac:(by left)) as (q & Hq & Hstep).
  destruct (join_uniform root q Hq) as (prefix & Hprefix & Hroot).
  exists prefix. split; [done|]. intros entry Hentry.
  pose proof (Hstep entry Hentry) as Hinner. simpl app in Hinner.
  by rewrite Hinner, (Hroot entry Hentry).
Qed.

Lemma entry_name_tmpl (base : jsstring) :
  entry_name base -> entry_name (base ++ lit ".tmpl").
Proof.
  intros (Hne & Hslash & _). split_and!.
  - by destruct base.
  - apply Forall_app. split; [done|by repeat constructor].
  - intros H. apply (f_equal length) in H. rewrite length_app in H.
    simpl in H. lia.
  - intros H. apply (f_equal length) in H. rewrite length_app in H.
    simpl in H. lia.
Qed.

Lemma strip_tmpl_app (path : jsstring) : strip_tmpl (path ++ lit ".tmpl") = path.
Proof.
  unfold strip_tmpl.
  assert (endsWith (path ++ lit ".tmpl") (lit ".tmpl") = true) as ->
    by (apply endsWith_suffix; by exists path).
  rewrite length_app. simpl. rewrite Nat.add_sub. by rewrite take_app_length.
Qed.

(** The template [base.tmpl], once rendered, is written, in one call,
    to the output path that a file named [base] has in the same
    directory; nothing is copied. *)
Theorem template_lands_beside (fx : CreateEffects)
    (inputRoot outputRoot : jsstring) (context : gmap jsstring jsstring)
    (parentStep base contents rendered : jsstring) (calls : list Call) :
  entry_name base ->
  render context contents = Ok rendered ->
  let target := Path.join outputRoot (Path.join parentStep base) in
  recursiveCopyTemplate fx inputRoot outputRoot context (File contents)
    (Path.join parentStep (base ++ lit ".tmpl")) calls
  = (completion (writeFile fx calls target rendered),
     calls ++ [WriteFile target rendered]).
Proof.
  intros Hbase Hrender target.
  pose proof (entry_name_tmpl _ Hbase) as Hentry.
  destruct (entry_path_keeps_name inputRoot parentStep _ Hentry)
    as (prefix & Hpath & Hprefix).
  destruct (entry_path_uniform outputRoot parentStep) as (out & _ & Hout).
  rewrite recursiveCopyTemplate_File. cbv zeta.
  rewrite Hpath, (Hout _ Hentry).
  rewrite (endsWith_last_segment prefix _ (lit ".DS_Store"))
    by (done || by repeat constructor).
  rewrite (endsWith_last_segment prefix _ (lit ".tmpl"))
    by (done || by repeat constructor).
  assert (endsWith (base ++ lit ".tmpl") (lit ".tmpl") = true) as Htmpl
    by (apply endsWith_suffix; by exists base).
  assert (endsWith (base ++ lit ".tmpl") (lit ".DS_Store") = false) as ->.
  { apply not_true_is_false. intros [k1 H1]%endsWith_suffix.
    apply (f_equal reverse) in H1. rewrite !reverse_app in H1.
    by vm_compute in H1. }
  rewrite Htmpl, Hrender. subst target. rewrite (Hout _ Hbase).
  by rewrite app_assoc, strip_tmpl_app.
Qed.

Lemma template_lands_beside_witness :
  recursiveCopyTemplate quiet (lit "/templates/default") (lit "hello") ∅
    (File (lit "# title")) (Path.join (lit "docs") (lit "index.md" ++ lit ".tmpl")) []
  = (Ok tt, [WriteFile (lit "hello/docs/index.md") (lit "# title")]).
Proof.
  refine (template_lands_beside quiet (lit "/templates/default") (lit "hello") ∅
            (lit "docs") (lit "index.md") (lit "# title") (lit "# title") [] _ eq_refl).
  split_and!; try done. by repeat constructor.
Defined.

(** A run only adds calls: those recorded before it are an initial part
    of those recorded after it, also when it throws; nothing is undone.
    At a directory the first call added is its [mkdir]. *)
Theorem calls_only_grow (fx : CreateEffects)
    (inputRoot outputRoot : jsstring) (context : gmap jsstring jsstring)
    (node : Node) (stepPath : jsstring) (calls : list Call) :
  calls `prefix_of`
    (recursiveCopyTemplate fx inputRoot outputRoot context node stepPath calls).2
  /\ forall entries, node = Directory entries ->
       (calls ++ [Mkdir (Path.join outputRoot stepPath) true]) `prefix_of`
         (recursiveCopyTemplate fx inputRoot outputRoot context node stepPath calls).2.
Proof.
  assert (Hgrow : forall node stepPath calls,
            calls `prefix_of`
              (recursiveCopyTemplate fx inputRoot outputRoot context node stepPath calls).2).
  { clear. intros node.
    induction node as [contents|entries IH] using Node_entries_ind;
      intros stepPath calls.
    - rewrite recursiveCopyTemplate_File. cbv zeta.
      destruct (endsWith _ (lit ".DS_Store")); [done|].
      destruct (endsWith _ (lit ".tmpl")).
      + destruct (render context contents); [|done]. by apply prefix_app_r.
      + by apply prefix_app_r.
    - rewrite recursiveCopyTemplate_Directory.
      transitivity (calls ++ [Mkdir (Path.join outputRoot stepPath) true]);
        [by apply prefix_app_r|].
      generalize (calls ++ [Mkdir (Path.join outputRoot stepPath) true]).
      induction IH as [|[entry child] entries Hchild _ IHentries];
        intros calls'; [done|].
      simpl in *. specialize (Hchild (Path.join stepPath entry) calls').
      destruct (recursiveCopyTemplate fx _ _ _ child _ calls') as [[[]|e] calls''];
        [|done].
      simpl in Hchild. by transitivity calls''. }
  split; [apply Hgrow|]. intros entries ->.
  rewrite recursiveCopyTemplate_Directory.
  generalize (calls ++ [Mkdir (Path.join outputRoot stepPath) true]).
  induction entries as [|[entry child] entries IH]; intros calls'; [done|].
  simpl. pose proof (Hgrow child (Path.join stepPath entry) calls') as Hchild.
  destruct (recursiveCopyTemplate fx _ _ _ child _ calls') as [[[]|e] calls''];
    [|done].
  simpl in Hchild. by transitivity calls''.
Qed.

End WalkFacts.

(** ** Where the walk writes *)

Module ConfinementFacts.
Import Js Template Path Create JsFacts TemplateFacts PathFacts CreateFacts WalkFacts.

Lemma copy_entries_app (fx : CreateEffects) (inputRoot outputRoot : jsstring)
    (context : gmap jsstring jsstring) (stepPath : jsstring)
    (before after : list (jsstring * Node)) (calls : list Call) :
  copy_entries fx inputRoot outputRoot context stepPath (before ++ after) calls
  = match copy_entries fx inputRoot outputRoot context stepPath before calls with
    | (Ok _, calls') =>
        copy_entries fx inputRoot outputRoot context stepPath after calls'
    | (Thrown e, calls') => (Thrown e, calls')
    end.
Proof.
  revert calls. induction before as [|[entry child] before IH]; intros calls;
    [done|].
  simpl. destruct (recursiveCopyTemplate _ _ _ _ child _ calls) as [[[]|e] calls'];
    [apply IH|done].
Qed.

Lemma copy_entries_cons (fx : CreateEffects) (inputRoot outputRoot : jsstring)
    (context : gmap jsstring jsstring) (stepPath entry : jsstring)
    (child : Node) (entries : list (jsstring * Node)) (calls : list Call) :
  copy_entries fx inputRoot outputRoot context stepPath ((entry, child) :: entries) calls
  = match recursiveCopyTemplate fx inputRoot outputRoot context
            child (Path.join stepPath entry) calls with
    | (Ok _, calls') =>
        copy_entries fx inputRoot outputRoot context stepPath entries calls'
    | (Thrown e, calls') => (Thrown e, calls')
    end.
Proof. reflexivity. Qed.

(** The walk stops at the first failure: when the entries before one
    are gone through and that one throws, the directory's run throws the
    same error with the same calls, whatever entries come after it. *)
Theorem walk_stops_at_first_failure (fx : CreateEffects)
    (inputRoot outputRoot : jsstring) (context : gmap jsstring jsstring)
    (stepPath : jsstring) (before after : list (jsstring * Node))
    (entry : jsstring) (child : Node) (calls calls1 calls2 : list Call)
    (e : Error) :
  recursiveCopyTemplate fx inputRoot outputRoot context (Directory before)
    stepPath calls = (Ok tt, calls1) ->
  recursiveCopyTemplate fx inputRoot outputRoot context child
    (Path.join stepPath entry) calls1 = (Thrown e, calls2) ->
  recursiveCopyTemplate fx inputRoot outputRoot context
    (Directory (before ++ (entry, child) :: after)) stepPath calls
  = (Thrown e, calls2).
Proof.
  rewrite !recursiveCopyTemplate_Directory. intros Hbefore Hchild.
  rewrite copy_entries_app, Hbefore. simpl. by rewrite Hchild.
Qed.

Lemma walk_stops_at_first_failure_witness :
  recursiveCopyTemplate quiet (lit "/templates/default") (lit "hello") ∅
    broken_template (lit ".") []
  = (Thrown (JsError (lit "no template variable missing")),
     [Mkdir (lit "hello") true;
      CopyFile (lit "/templates/default/a.md") (lit "hello/a.md")]).
Proof.
  refine (walk_stops_at_first_failure quiet (lit "/templates/default")
            (lit "hello") ∅ (lit ".")
            [(lit "a.md", File (lit "first"))]
            [(lit "c.md", File (lit "last"))]
            (lit "b.md.tmpl") (File (lit "{{ missing }}")) []
            [Mkdir (lit "hello") true;
             CopyFile (lit "/templates/default/a.md") (lit "hello/a.md")]
            _ _ _ _); by vm_compute.
Defined.

Lemma join_segments_app (a b : list jsstring) :
  b <> [] ->
  join_segments (a ++ b)
  = match a with
    | [] => join_segments b
    | _ => join_segments a ++ 47%N :: join_segments b
    end.
Proof.
  intros Hb. induction a as [|x a IH]; [done|].
  destruct a as [|y a].
  - simpl. by destruct b.
  - change (join_segments ((x :: y :: a) ++ b))
      with (x ++ 47%N :: join_segments ((y :: a) ++ b)).
    rewrite IH. change (join_segments (x :: y :: a))
      with (x ++ 47%N :: join_segments (y :: a)).
    by rewrite <- app_assoc.
Qed.

Lemma split_join_segments (names : list jsstring) :
  names <> [] -> Forall entry_name names ->
  split (join_segments names) = names.
Proof.
  intros Hne Hnames. induction Hnames as [|name names Hname Hnames IH]; [done|].
  destruct names as [|next names].
  - simpl. apply split_name. by destruct Hname as (_ & ? & _).
  - change (join_segments (name :: next :: names))
      with (name ++ 47%N :: join_segments (next :: names)).
    rewrite split_app, IH by done.
    rewrite split_name; [done|]. by destruct Hname as (_ & ? & _).
Qed.

Lemma fold_left_names (allowAboveRoot : bool) (names res : list jsstring) :
  Forall entry_name names ->
  fold_left (normalize_step allowAboveRoot) names res = rev names ++ res.
Proof.
  intros Hnames. revert res.
  induction Hnames as [|name names Hname Hnames IH]; intros res; [done|].
  simpl. rewrite normalize_step_name by done. rewrite IH.
  by rewrite <- app_assoc.
Qed.

Lemma join_segments_head (names : list jsstring) :
  names <> [] -> Forall entry_name names ->
  exists c rest, join_segments names = c :: rest /\ is_slash c = false.
Proof.
  intros Hne Hnames. destruct Hnames as [|name names Hname Hnames]; [done|].
  destruct Hname as (Hname & Hslash & _).
  destruct name as [|c name]; [done|].
  inversion Hslash; subst.
  destruct names; simpl; by do 2 eexists.
Qed.

(** The prefix put in front of a name that follows a relative path of
    names: the prefix of that path, and the path. *)
Lemma normalized_prefix_names (before : jsstring) (names : list jsstring) :
  names <> [] -> Forall entry_name names ->
  normalized_prefix (before ++ 47%N :: join_segments names)
  = normalized_prefix before ++ join_segments names ++ [47%N].
Proof.
  intros Hne Hnames. unfold normalized_prefix.
  assert (match before ++ 47%N :: join_segments names with
          | c0 :: _ => is_slash c0
          | [] => true
          end
          = match before with c0 :: _ => is_slash c0 | [] => true end) as ->
    by (by destruct before).
  set (absolute := match before with c0 :: _ => is_slash c0 | [] => true end).
  rewrite split_app, split_join_segments, fold_left_app by done.
  rewrite fold_left_names, rev_app_distr, rev_involutive by done.
  set (segs := rev (fold_left (normalize_step (negb absolute)) (split before) [])).
  assert (exists seg rest, segs ++ names = seg :: rest) as (seg & rest & Hsegs).
  { destruct segs; [destruct names; [done|]|]; by do 2 eexists. }
  rewrite Hsegs, <- Hsegs, join_segments_app by done.
  destruct segs; simpl; by rewrite <- ?app_assoc.
Qed.

Lemma normalized_prefix_of_names (names : list jsstring) :
  names <> [] -> Forall entry_name names ->
  normalized_prefix (join_segments names) = join_segments names ++ [47%N].
Proof.
  intros Hne Hnames. unfold normalized_prefix.
  destruct (join_segments_head names Hne Hnames) as (c & rest & Hhead & Hc).
  rewrite Hhead, Hc, <- Hhead.
  rewrite split_join_segments, fold_left_names by done.
  rewrite app_nil_r, rev_involutive. by destruct names.
Qed.

(** Normalizing leaves a relative path of names alone, and puts one
    that follows a slash behind the prefix of what is before it. *)
Lemma normalize_names (names : list jsstring) :
  names <> [] -> Forall entry_name names ->
  normalize (join_segments names) = join_segments names.
Proof.
  intros Hne Hnames.
  destruct names as [|name names _] using rev_ind; [done|].
  apply Forall_app in Hnames as [Hinit Hname]. inversion Hname; subst.
  rewrite join_segments_snoc. destruct names as [|first names].
  - by apply normalize_name.
  - rewrite normalize_after_slash, normalized_prefix_of_names by done.
    by rewrite <- app_assoc.
Qed.

Lemma normalize_after_slash_names (before : jsstring) (names : list jsstring) :
  names <> [] -> Forall entry_name names ->
  normalize (before ++ 47%N :: join_segments names)
  = normalized_prefix before ++ join_segments names.
Proof.
  intros Hne Hnames.
  destruct names as [|name names _] using rev_ind; [done|].
  apply Forall_app in Hnames as [Hinit Hname]. inversion Hname; subst.
  rewrite join_segments_snoc. destruct names as [|first names].
  - by apply normalize_after_slash.
  - replace (before ++ 47%N :: join_segments (first :: names) ++ 47%N :: name)
      with ((before ++ 47%N :: join_segments (first :: names)) ++ 47%N :: name)
      by (by rewrite <- app_assoc).
    rewrite normalize_after_slash, normalized_prefix_names by done.
    by rewrite <- !app_assoc.
Qed.

(** The step path of an entry: the names from the root of the template
    down to it. *)
Lemma step_of_root (entry : jsstring) :
  entry_name entry -> join (lit ".") entry = join_segments [entry].
Proof.
  intros Hentry. pose proof Hentry as (Hne & _). unfold join.
  destruct entry as [|c entry'] eqn:E; [done|]. rewrite <- E in *.
  change (lit ".") with (46%N :: []) at 1. cbv iota.
  by rewrite normalize_after_slash.
Qed.

Lemma step_of_names (names : list jsstring) (entry : jsstring) :
  names <> [] -> Forall entry_name names -> entry_name entry ->
  join (join_segments names) entry = join_segments (names ++ [entry]).
Proof.
  intros Hne Hnames Hentry. pose proof Hentry as (Hentry_ne & _).
  destruct (join_segments_head names Hne Hnames) as (c & rest & Hhead & _).
  unfold join. rewrite Hhead, <- Hhead.
  destruct entry as [|x entry'] eqn:E; [done|]. rewrite <- E in *.
  rewrite normalize_after_slash, normalized_prefix_of_names by done.
  rewrite join_segments_snoc, <- app_assoc. by destruct names.
Qed.

Lemma output_of_names (outputRoot : jsstring) (names : list jsstring) :
  names <> [] -> Forall entry_name names ->
  join outputRoot (join_segments names)
  = root_prefix outputRoot ++ join_segments names.
Proof.
  intros Hne Hnames.
  destruct (join_segments_head names Hne Hnames) as (c & rest & Hhead & _).
  unfold join, root_prefix. rewrite Hhead, <- Hhead.
  destruct outputRoot as [|c0 outputRoot].
  - by apply normalize_names.
  - by apply (normalize_after_slash_names (c0 :: outputRoot)).
Qed.

Lemma root_prefix_up_to_slash (root : jsstring) : up_to_slash (root_prefix root).
Proof.
  destruct root; [by left|]. apply normalized_prefix_up_to_slash.
Qed.

(** The final [.tmpl] is dropped from the last segment. *)
Lemma strip_tmpl_last_segment (prefix name : jsstring) :
  up_to_slash prefix ->
  strip_tmpl (prefix ++ name) = prefix ++ strip_tmpl name.
Proof.
  intros Hprefix. destruct (endsWith name (lit ".tmpl")) eqn:E.
  - apply endsWith_suffix in E as [k ->]. by rewrite app_assoc, !strip_tmpl_app.
  - unfold strip_tmpl.
    rewrite endsWith_last_segment by (done || by repeat constructor).
    by rewrite E.
Qed.

(** The path of the entry [last] in the directory of step path [init],
    cut before the name. *)
Lemma names_snoc (init : list jsstring) (last : jsstring) (root : jsstring) :
  exists prefix,
    up_to_slash prefix
    /\ forall name,
         root_prefix root ++ join_segments (init ++ [name]) = prefix ++ name.
Proof.
  destruct init as [|first init].
  - exists (root_prefix root). split; [apply root_prefix_up_to_slash|done].
  - exists (root_prefix root ++ join_segments (first :: init) ++ [47%N]). split.
    + right. exists (root_prefix root ++ join_segments (first :: init)).
      by rewrite <- app_assoc.
    + intros name. rewrite join_segments_snoc. by rewrite <- !app_assoc.
Qed.

Section Under.
Context (fx : CreateEffects) (inputRoot outputRoot : jsstring)
        (context : gmap jsstring jsstring).

Lemma walk_below_root (node : Node) :
  well_named node ->
  forall (init : list jsstring) (last : jsstring) (calls : list Call),
    Forall entry_name init -> entry_name last ->
    (forall contents, node = File contents -> entry_name (strip_tmpl last)) ->
    exists added,
      (recursiveCopyTemplate fx inputRoot outputRoot context node
         (join_segments (init ++ [last])) calls).2 = calls ++ added
      /\ Forall (fun call => below_root outputRoot (output_of call)) added.
Proof.
  induction node as [contents|entries IH] using Node_entries_ind;
    intros Hnamed init last calls Hinit Hlast Hstripped.
  - assert (Hne : init ++ [last] <> []) by (by destruct init).
    assert (Hnames : Forall entry_name (init ++ [last]))
      by (apply Forall_app; split; [done|by constructor]).
    rewrite recursiveCopyTemplate_File. cbv zeta.
    rewrite (output_of_names outputRoot) by done.
    destruct (endsWith _ (lit ".DS_Store"));
      [exists []; by rewrite app_nil_r|].
    destruct (endsWith _ (lit ".tmpl")).
    + destruct (render context contents) as [contents'|e];
        [|exists []; by rewrite app_nil_r].
      eexists. split; [done|]. constructor; [|done].
      destruct (names_snoc init last outputRoot) as (prefix & Hprefix & Hpath).
      cbn [output_of]. rewrite Hpath, strip_tmpl_last_segment, <- Hpath by done.
      exists (init ++ [strip_tmpl last]). split_and!; [by destruct init| |done].
      apply Forall_app. split; [done|]. constructor; [|done].
      by apply (Hstripped contents).
    + eexists. split; [done|]. constructor; [|done].
      by exists (init ++ [last]).
  - assert (Hne : init ++ [last] <> []) by (by destruct init).
    assert (Hnames : Forall entry_name (init ++ [last]))
      by (apply Forall_app; split; [done|by constructor]).
    rewrite recursiveCopyTemplate_Directory.
    rewrite (output_of_names outputRoot) by done.
    assert (Hentries : forall calls',
              exists added,
                (copy_entries fx inputRoot outputRoot context
                   (join_segments (init ++ [last])) entries calls').2
                = calls' ++ added
                /\ Forall (fun call => below_root outputRoot (output_of call))
                     added).
    { clear calls Hstripped.
      induction IH as [|[entry child] entries Hchild _ IHentries];
        intros calls'; [exists []; by rewrite app_nil_r|].
      destruct Hnamed as (Hentry & Hfile & Hchild_named & Hrest).
      rewrite copy_entries_cons, step_of_names by done.
      destruct (Hchild Hchild_named (init ++ [last]) entry calls')
        as (added1 & Hadded1 & Hunder1); [done..| |].
      { intros contents Hcontents. cbn [snd] in Hcontents.
        by rewrite Hcontents in Hfile. }
      cbn [snd] in Hadded1.
      destruct (recursiveCopyTemplate fx _ _ _ child _ calls')
        as [[[]|e] calls''] eqn:Hrun; simpl in Hadded1; subst calls''.
      - destruct (IHentries Hrest (calls' ++ added1))
          as (added2 & Hadded2 & Hunder2).
        exists (added1 ++ added2). rewrite Hadded2, <- app_assoc.
        split; [done|]. by apply Forall_app.
      - by exists added1. }
    destruct (Hentries (calls ++ [Mkdir (root_prefix outputRoot
                                         ++ join_segments (init ++ [last])) true]))
      as (added & Hadded & Hunder).
    exists (Mkdir (root_prefix outputRoot ++ join_segments (init ++ [last])) true
            :: added).
    rewrite Hadded, <- app_assoc. split; [done|].
    constructor; [by exists (init ++ [last])|done].
Qed.

(** In a run over a template directory whose names are names of
    directory entries, and in which no file is named [.tmpl], [..tmpl]
    or [...tmpl], every call after the [mkdir] of the output root itself
    creates or writes a path below the root: the normalized root and a
    slash (nothing, for an empty root), then one or more names joined by
    slashes, none of them empty, ["."] or [".."]. *)
Theorem calls_stay_under_root (entries : list (jsstring * Node))
    (calls : list Call) :
  well_named (Directory entries) ->
  exists added,
    (recursiveCopyTemplate fx inputRoot outputRoot context (Directory entries)
       (lit ".") calls).2
    = calls ++ Mkdir (Path.join outputRoot (lit ".")) true :: added
    /\ Forall (fun call => below_root outputRoot (output_of call)) added.
Proof.
  intros Hnamed. rewrite recursiveCopyTemplate_Directory.
  generalize (Mkdir (Path.join outputRoot (lit ".")) true). intros root.
  assert (Hentries : forall calls',
            exists added,
              (copy_entries fx inputRoot outputRoot context (lit ".") entries
                 calls').2 = calls' ++ added
              /\ Forall (fun call => below_root outputRoot (output_of call))
                   added).
  { clear calls. induction entries as [|[entry child] entries IH];
      intros calls'; [exists []; by rewrite app_nil_r|].
    destruct Hnamed as (Hentry & Hfile & Hchild & Hrest).
    rewrite copy_entries_cons, step_of_root by done.
    destruct (walk_below_root child Hchild [] entry calls')
      as (added1 & Hadded1 & Hunder1); [done..| |].
    { intros contents Hcontents. by rewrite Hcontents in Hfile. }
    cbn [app] in Hadded1.
    destruct (recursiveCopyTemplate fx _ _ _ child _ calls')
      as [[[]|e] calls''] eqn:Hrun; simpl in Hadded1; subst calls''.
    - destruct (IH Hrest (calls' ++ added1)) as (added2 & Hadded2 & Hunder2).
      exists (added1 ++ added2). rewrite Hadded2, <- app_assoc.
      split; [done|]. by apply Forall_app.
    - by exists added1. }
  destruct (Hentries (calls ++ [root])) as (added & Hadded & Hunder).
  exists added. by rewrite Hadded, <- app_assoc.
Qed.

(** The condition on the names of template files is needed: a
    template file named [...tmpl] at the top of the template is
    rendered and written to the path [..] under the output root, which
    is the directory that holds the root. *)
Theorem dotted_template_leaves_root (contents rendered : jsstring)
    (calls : list Call) :
  render context contents = Ok rendered ->
  (recursiveCopyTemplate fx inputRoot outputRoot context
     (Directory [(lit "...tmpl", File contents)]) (lit ".") calls).2
  = calls ++ [Mkdir (Path.join outputRoot (lit ".")) true;
              WriteFile (root_prefix outputRoot ++ lit "..") rendered]
  /\ ~ below_root outputRoot (root_prefix outputRoot ++ lit "..").
Proof.
  intros Hrender.
  assert (Hname : entry_name (lit "...tmpl")).
  { split_and!; [done|by repeat constructor|done..]. }
  split.
  - rewrite recursiveCopyTemplate_Directory, copy_entries_cons.
    rewrite step_of_root by done.
    rewrite recursiveCopyTemplate_File. cbv zeta.
    rewrite (output_of_names inputRoot [lit "...tmpl"]),
      (output_of_names outputRoot [lit "...tmpl"])
      by (done || by constructor).
    cbn [join_segments].
    rewrite !endsWith_last_segment
      by (apply root_prefix_up_to_slash || by repeat constructor).
    change (endsWith (lit "...tmpl") (lit ".DS_Store")) with false.
    change (endsWith (lit "...tmpl") (lit ".tmpl")) with true.
    cbv iota. rewrite Hrender.
    rewrite strip_tmpl_last_segment by apply root_prefix_up_to_slash.
    change (strip_tmpl (lit "...tmpl")) with (lit "..").
    cbn [copy_entries call_writeFile snd].
    destruct (completion _); cbn [snd]; by rewrite <- app_assoc.
  - intros (names & Hne & Hnames & Hpath).
    apply app_inv_head in Hpath.
    destruct names as [|name names _] using rev_ind; [done|].
    apply Forall_app in Hnames as [_ Hname']. inversion Hname' as [|? ? Hlast _].
    subst. destruct Hlast as (_ & Hslash & _ & Hdots).
    rewrite join_segments_snoc in Hpath. destruct names as [|first names].
    + by subst.
    + assert (Hin : 47%N ∈ lit "..").
      { rewrite Hpath. apply elem_of_app. right. apply list_elem_of_here. }
      revert Hin. apply (bool_decide_unpack _). by vm_compute.
Qed.

End Under.

Lemma calls_stay_under_root_witness :
  exists added,
    (recursiveCopyTemplate quiet (lit "/templates/default") (lit "./hello")
       ∅ (Directory [(lit "docs", Directory [(lit "index.md.tmpl", File (lit "# hi"))])])
       (lit ".") []).2
    = [] ++ Mkdir (lit "hello") true :: added
    /\ Forall (fun call => below_root (lit "./hello") (output_of call)) added.
Proof.
  refine (calls_stay_under_root quiet (lit "/templates/default") (lit "./hello")
           ∅ [(lit "docs", Directory [(lit "index.md.tmpl", File (lit "# hi"))])]
           [] _).
  simpl. split_and!; try done; by repeat constructor.
Defined.

Lemma dotted_template_leaves_root_witness :
  (recursiveCopyTemplate quiet (lit "/templates/default") (lit "/srv/app") ∅
     (Directory [(lit "...tmpl", File (lit "# hi"))]) (lit ".") []).2
  = [Mkdir (lit "/srv/app") true; WriteFile (lit "/srv/app/..") (lit "# hi")]
  /\ normalize (lit "/srv/app/..") = lit "/srv".
Proof.
  split; [|done].
  exact (proj1 (dotted_template_leaves_root quiet (lit "/templates/default")
                  (lit "/srv/app") ∅ (lit "# hi") (lit "# hi") [] eq_refl)).
Defined.

End ConfinementFacts.

(** ** The dirname chain and the ancestor directories *)

Module AncestorFacts.
Import Js Path Create JsFacts PathFacts ValidateFacts WalkFacts.

Lemma above_head (k : nat) : exists rest, above k = 46%N :: 46%N :: rest.
Proof. destruct k; by eexists. Qed.

Lemma above_last (k : nat) :
  match last (above k ++ 47%N :: lit "..") with
  | Some c => is_slash c
  | None => false
  end = false.
Proof.
  replace (above k ++ 47%N :: lit "..") with ((above k ++ [47%N; 46%N]) ++ [46%N])
    by (by rewrite <- app_assoc).
  by rewrite last_snoc.
Qed.

Lemma split_above (k : nat) : split (above k) = replicate (S k) (lit "..").
Proof.
  induction k as [|k IH]; [done|].
  change (above (S k)) with (lit ".." ++ 47%N :: above k).
  rewrite split_app, IH. done.
Qed.

Lemma normalize_step_dots (j : nat) :
  normalize_step true (replicate j (lit "..")) (lit "..")
  = replicate (S j) (lit "..").
Proof. by destruct j. Qed.

Lemma fold_left_dots (k j : nat) :
  fold_left (normalize_step true) (replicate k (lit "..")) (replicate j (lit ".."))
  = replicate (k + j) (lit "..").
Proof.
  revert j. induction k as [|k IH]; intros j; [done|].
  simpl fold_left. rewrite normalize_step_dots, IH. f_equal. lia.
Qed.

Lemma fold_left_dots_nil (k : nat) :
  fold_left (normalize_step true) (replicate k (lit "..")) []
  = replicate k (lit "..").
Proof.
  pose proof (fold_left_dots k 0) as H. rewrite Nat.add_0_r in H. exact H.
Qed.

Lemma rev_dots (k : nat) : rev (replicate k (lit "..")) = replicate k (lit "..").
Proof.
  induction k as [|k IH]; [done|]. simpl. rewrite IH.
  clear IH. induction k as [|k IH]; [done|]. simpl. by rewrite IH.
Qed.

Lemma join_segments_dots (k : nat) :
  join_segments (replicate (S k) (lit "..")) = above k.
Proof.
  induction k as [|k IH]; [done|].
  change (join_segments (replicate (S (S k)) (lit "..")))
    with (lit ".." ++ 47%N :: join_segments (replicate (S k) (lit ".."))).
  by rewrite IH.
Qed.

(** The directory that holds [../..] (k times) is one more [..] up. *)
Lemma parent_directory_above (k : nat) :
  parent_directory (above k) = above (S k).
Proof.
  unfold parent_directory, join.
  destruct (above_head k) as (rest & Hhead). rewrite Hhead, <- Hhead.
  assert (Hpath : above k ++ 47%N :: lit ".."
                  = 46%N :: (46%N :: rest) ++ 47%N :: lit "..")
    by (by rewrite Hhead).
  change (46%N :: 46%N :: []) with (lit "..").
  rewrite (normalize_unfold _ _ _ Hpath), above_last.
  change (is_slash 46) with false. cbn [negb].
  unfold normalizeString. rewrite split_app, split_above.
  change (split (lit "..")) with (replicate 1 (lit "..")).
  rewrite <- replicate_add.
  rewrite fold_left_dots_nil, rev_dots.
  replace (S k + 1) with (S (S k)) by lia.
  rewrite join_segments_dots.
  destruct (above_head (S k)) as (rest' & ->). done.
Qed.

(** The ancestor directories of [../x] are [..], [../..], and so on:
    the working directory is not among them. *)
Lemma ancestor_directory_above (dir path : jsstring) :
  ancestor_directory dir path ->
  path = lit "../x" \/ (exists k, path = above k) ->
  exists k, dir = above k.
Proof.
  intros Hdir. induction Hdir as [path|dir path _ IH]; intros Hpath.
  - destruct Hpath as [-> | [k ->]].
    + by exists 0.
    + exists (S k). apply parent_directory_above.
  - apply IH. right. destruct Hpath as [-> | [k ->]].
    + by exists 0.
    + exists (S k). apply parent_directory_above.
Qed.

(** C4 does not hold of the code.  The path [../x] lies one level
    under the read-only directory [..], and none of its ancestor
    directories can be written: the claim requires the answer "Path is
    not writable.".  The loop of [canWriteRecursive] goes from [..] on
    to [dirname("..")], which is ["."], the working directory, not the
    parent ("try parent", line 142); the working directory can be
    written, so the path is taken for writable, and accepted. *)
Theorem validateRootPath_accepts_under_read_only_parent :
  let fs := only_here_writable in
  let rootPath := lit "../x" in
  normalize rootPath = rootPath
  /\ parent_directory rootPath = lit ".."
  /\ accessSync_W_OK fs (lit "..") = Some (SystemError (lit "EACCES"))
  /\ ~ writable_ancestor_directory fs rootPath
  /\ (forall dir, ancestor_directory dir rootPath -> accessSync_W_OK fs dir <> None)
  /\ dirname rootPath = lit ".." /\ dirname (lit "..") = lit "."
  /\ canWriteRecursive fs rootPath = Some true
  /\ validateRootPath fs rootPath = Some (Ok None).
Proof.
  intros fs rootPath.
  assert (Hnone : forall dir,
            ancestor_directory dir rootPath -> accessSync_W_OK fs dir <> None).
  { intros dir Hdir.
    destruct (ancestor_directory_above dir rootPath Hdir) as [k ->];
      [by left|].
    destruct (above_head k) as (rest & ->). by simpl. }
  split_and!;
    [by vm_compute | by vm_compute | by vm_compute | | exact Hnone
    | by vm_compute..].
  intros (dir & Hdir & _ & Haccess). by apply (Hnone dir).
Qed.

End AncestorFacts.

(** ** More on path validation *)

Module WritableFacts.
Import Js Path Create JsFacts PathFacts ValidateFacts.

Lemma ancestor_trans (a b c : jsstring) :
  ancestor a b -> ancestor b c -> ancestor a c.
Proof.
  intros Hab Hbc. induction Hbc as [path|dir path _ IH].
  - by apply ancestor_further.
  - by apply ancestor_further, IH.
Qed.

(** [canWriteRecursive] always returns, and returns [true] exactly when
    some directory up the [dirname] chain of the path passes
    [accessSync(dir, W_OK)]. *)
Theorem canWriteRecursive_decides (fs : SyncFs) (rootPath : jsstring) :
  (exists b, canWriteRecursive fs rootPath = Some b)
  /\ (canWriteRecursive fs rootPath = Some true <-> writable_ancestor fs rootPath)
  /\ (canWriteRecursive fs rootPath = Some false <-> ~ writable_ancestor fs rootPath).
Proof.
  destruct (canWriteRecursive_total fs rootPath) as [b Hb].
  pose proof (canWriteRecursive_loop_spec fs _ _ _ Hb) as Hspec.
  rewrite Hb. split; [by exists b|].
  destruct b; split; split; intros H; try done.
  - by apply Hspec.
  - exfalso. by apply H, Hspec.
  - apply Hspec in H. congruence.
  - intros Hw. by apply Hspec in Hw.
Qed.

(** Where a directory could be created, so could everything below it:
    the verdict [true] passes from a path to every path it is an
    ancestor of. *)
Theorem canWriteRecursive_inherits (fs : SyncFs) (dir path : jsstring) :
  ancestor dir path ->
  canWriteRecursive fs dir = Some true ->
  canWriteRecursive fs path = Some true.
Proof.
  intros Hdir Hcan. apply canWriteRecursive_true.
  destruct (canWriteRecursive_total fs dir) as [b Hb].
  pose proof (canWriteRecursive_loop_spec fs _ _ _ Hb) as Hspec.
  assert (b = true) as -> by congruence.
  destruct (proj1 Hspec eq_refl) as (top & Htop & Haccess).
  exists top. split; [|done]. by apply (ancestor_trans _ dir).
Qed.

Lemma canWriteRecursive_inherits_witness :
  canWriteRecursive project_exists (lit "docs/notes") = Some true.
Proof.
  apply (canWriteRecursive_inherits project_exists (lit "docs") (lit "docs/notes")).
  - exact (ancestor_parent (lit "docs/notes")).
  - by vm_compute.
Defined.

(** [validateRootPath] always ends.  Call a path passable when some
    path on the [dirname] chain of its normalized form passes
    [accessSync(dir, W_OK)] (for [../x] the chain is [..], then [.]:
    it is the chain the loop walks, not the ancestor directories).  It
    accepts exactly the empty input and the passable paths that do not
    exist or are a directory listed as empty; it throws exactly what
    [statSync] or [readdirSync] throws at an existing passable path; it
    rejects with one of three messages. *)
Theorem validateRootPath_outcomes (fs : SyncFs) (rootPath : jsstring) :
  let path := normalize rootPath in
  (exists outcome, validateRootPath fs rootPath = Some outcome)
  /\ (validateRootPath fs rootPath = Some (Ok None) <->
      rootPath = []
      \/ (writable_ancestor fs path
          /\ (existsSync fs path = false
              \/ (statSync_isDirectory fs path = Ok true
                  /\ readdirSync fs path = Ok []))))
  /\ (forall e,
        validateRootPath fs rootPath = Some (Thrown e) <->
        rootPath <> [] /\ writable_ancestor fs path
        /\ existsSync fs path = true
        /\ (statSync_isDirectory fs path = Thrown e
            \/ (statSync_isDirectory fs path = Ok true
                /\ readdirSync fs path = Thrown e)))
  /\ (forall message,
        validateRootPath fs rootPath = Some (Ok (Some message)) ->
        message ∈ [lit "Path is not writable."; lit "File already exists.";
                   lit "Directory is not empty."]).
Proof.
  intros path. unfold validateRootPath. fold path.
  destruct (eqb rootPath []) eqn:Hempty.
  { apply eqb_eq in Hempty as ->. split_and!; [by eexists|(try intros ?; intuition congruence)..]. }
  apply eqb_neq in Hempty.
  destruct (canWriteRecursive_total fs path) as [b Hb].
  pose proof (canWriteRecursive_loop_spec fs _ _ _ Hb) as Hspec.
  rewrite Hb.
  assert (Hw : b = false -> ~ writable_ancestor fs path).
  { intros -> Hwr. by apply Hspec in Hwr. }
  destruct b.
  - pose proof (proj1 Hspec eq_refl) as Hwr.
    destruct (existsSync fs path); simpl.
    + destruct (statSync_isDirectory fs path) as [[]|e'].
      * destruct (readdirSync fs path) as [[|entry entries]|e']; simpl;
          (split_and!; [by eexists|(try intros ?; intuition congruence)..|]);
          intros message [= <-]; rewrite !elem_of_cons; auto.
      * split_and!; [by eexists|(try intros ?; intuition congruence)..|].
        intros message [= <-]. rewrite !elem_of_cons; auto.
      * split_and!; [by eexists|(try intros ?; intuition congruence)..].
    + split_and!; [by eexists|(try intros ?; intuition congruence)..].
  - specialize (Hw eq_refl).
    split_and!; [by eexists|(try intros ?; intuition congruence)..|].
    intros message [= <-]. rewrite !elem_of_cons; auto.
Qed.

End WritableFacts.

(** ** More on the session commands *)

Module SessionFacts.
Import Js Auth JsFacts AuthFacts.

Lemma sleeps_app (a b : list Event) : sleeps (a ++ b) = sleeps a ++ sleeps b.
Proof. apply omap_app. Qed.

Lemma poll_ids_app (a b : list Event) : poll_ids (a ++ b) = poll_ids a ++ poll_ids b.
Proof. apply omap_app. Qed.

Lemma polls_again_cases (requestPoll : PollResponse) (st : State) :
  if polls_again (Ok requestPoll)
  then poll_switch requestPoll st = (Ok KNull, st)
  else (exists e st', poll_switch requestPoll st = (Thrown e, st')
                      /\ exists closing, st' = emit_all closing st
                                         /\ polled closing = []
                                         /\ poll_ids closing = []
                                         /\ sleeps closing = [])
       \/ (exists apiKey, poll_switch requestPoll st = (Ok apiKey, st)
                          /\ apiKey <> KNull).
Proof.
  unfold polls_again, poll_switch.
  destruct (eqb (status requestPoll) (lit "pending")) eqn:Hpending; [done|].
  destruct (eqb (status requestPoll) (lit "accepted")) eqn:Haccepted.
  { destruct (apiKey requestPoll) eqn:Hkey; simpl; [done|right; by eexists..]. }
  simpl. left.
  destruct (eqb (status requestPoll) (lit "expired"));
    [|destruct (eqb (status requestPoll) (lit "consumed"))];
    do 2 eexists; (split; [done|]); eexists; by rewrite emit_one.
Qed.

(** The loop polls up to and with the first answer that is neither
    [pending] nor [accepted] with a [null] key, always with the id of
    the request, and leaves the rest of the answers alone; it is still
    waiting exactly when every answer asks to poll again. *)
Theorem poll_loop_stops_at_first_verdict (requestId : jsstring)
    (answers : list (Result PollResponse)) (st : State) :
  exists new,
    (poll_loop requestId answers st).2 = emit_all new st
    /\ polled new = take (polls_before_exit answers) answers
    /\ poll_ids new = replicate (polls_before_exit answers) requestId
    /\ ((poll_loop requestId answers st).1 = LoopWaiting
        <-> forallb polls_again answers = true).
Proof.
  revert st. induction answers as [|answer answers IH]; intros st.
  { exists []. by rewrite emit_all_nil. }
  rewrite poll_loop_cons. cbv zeta. cbn [polls_before_exit forallb].
  destruct answer as [requestPoll|e].
  2:{ exists [PostAuthRequestPoll requestId (Thrown e)].
      rewrite emit_one. by split_and!. }
  pose proof (polls_again_cases requestPoll
                (emit (PostAuthRequestPoll requestId (Ok requestPoll)) st))
    as Hcases.
  destruct (polls_again (Ok requestPoll)).
  - rewrite Hcases.
    destruct (IH (emit (Sleep 1000)
                    (emit (PostAuthRequestPoll requestId (Ok requestPoll)) st)))
      as (new & Hst & Hpolled & Hids & Hwaiting).
    exists ([PostAuthRequestPoll requestId (Ok requestPoll); Sleep 1000] ++ new).
    split_and!.
    + by rewrite Hst, !emit_one, !emit_all_app.
    + by rewrite polled_app, Hpolled.
    + by rewrite poll_ids_app, Hids.
    + done.
  - destruct Hcases as [(e & st' & -> & closing & -> & Hp & Hi & _)
                       | (apiKey & -> & Hkey)].
    + exists (PostAuthRequestPoll requestId (Ok requestPoll) :: closing).
      rewrite emit_one, emit_all_app. simpl. rewrite Hp, Hi. by split_and!.
    + exists [PostAuthRequestPoll requestId (Ok requestPoll); Sleep 1000].
      rewrite !emit_one, emit_all_app.
      destruct apiKey; [done|by split_and!..].
Qed.

Lemma sleeps_rounds (requestId : jsstring) (answers : list (Result PollResponse)) :
  sleeps (flat_map (poll_round requestId) answers)
  = replicate (length answers) 1000%Z.
Proof. induction answers as [|a l IH]; simpl; [done|]. by rewrite IH. Qed.

(** The trace of the loop, for any answers.  The polls are the answers
    up to and with the first that ends the loop.  Each of them that
    does not make the loop throw is followed at once by one pause of
    1000 ms, and by nothing else before the next poll; the poll that
    makes the loop throw (a failed request, or the status [expired],
    [consumed] or an unknown one) is followed by no pause, only by the
    stop of the spinner when it was answered.  So the pauses are as
    many as the polls that did not throw, each of 1000 ms. *)
Theorem poll_loop_sleeps (requestId : jsstring)
    (answers : list (Result PollResponse)) (st : State) :
  let taken := take (polls_before_exit answers) answers in
  exists paused closing,
    (poll_loop requestId answers st).2
    = emit_all (flat_map (poll_round requestId) paused ++ closing) st
    /\ match (poll_loop requestId answers st).1 with
       | LoopThrew _ =>
           exists last,
             taken = paused ++ [last]
             /\ closing
                = PostAuthRequestPoll requestId last
                  :: match last with
                     | Ok _ => [failed_to_confirm]
                     | Thrown _ => []
                     end
       | _ => taken = paused /\ closing = []
       end
    /\ sleeps (flat_map (poll_round requestId) paused ++ closing)
       = replicate (length paused) 1000%Z.
Proof.
  intros taken. pose proof (poll_loop_trace requestId answers st) as Htrace.
  cbv zeta in Htrace. fold taken in Htrace.
  destruct (poll_loop requestId answers st).1.
  - exists taken, []. rewrite !app_nil_r. by rewrite sleeps_rounds.
  - destruct Htrace as (before & last & Htaken & Hst).
    exists before, (PostAuthRequestPoll requestId last
                    :: match last with
                       | Ok _ => [failed_to_confirm]
                       | Thrown _ => []
                       end).
    split_and!; [done|by exists last|].
    rewrite sleeps_app, sleeps_rounds. destruct last; simpl; by rewrite app_nil_r.
  - exists taken, []. rewrite !app_nil_r. by rewrite sleeps_rounds.
Qed.

(** Once a poll is answered [accepted] with a key pair, the pair stays
    in the store however the run ends: [login] completes when the user
    endpoint answers, and fails with that endpoint's error when it
    throws, the store still holding the pair. *)
Theorem login_keeps_accepted_key (imports : Imports) (world : World)
    (requestInfo : AuthRequest) (pendings : list PollResponse)
    (info : KeyPair) (answers : list (Result PollResponse)) (st : State) :
  postAuthRequest world = Ok requestInfo ->
  postAuthRequestPoll world
  = map Ok pendings
    ++ Ok {| status := lit "accepted"; apiKey := KPair info |} :: answers ->
  Forall pending pendings ->
  (login imports world st).1
  = match getCurrentUser world (key info) with
    | Ok _ => Completed
    | Thrown e => Failed e
    end
  /\ credentials (login imports world st).2 = Some info.
Proof.
  intros Hrequest Hpolls Hpending.
  rewrite (login_unfold _ _ _ _ Hrequest), Hpolls.
  rewrite poll_loop_pendings by done.
  rewrite (poll_loop_terminal _ _ _ _ _ _ (terminal_accepted info)).
  destruct (login_finish_run imports world info
              (setObservableApiKey (Some info)
                 (emit_all
                    [PostAuthRequestPoll (requestId requestInfo)
                       (Ok {| status := lit "accepted"; apiKey := KPair info |});
                     Sleep 1000]
                    (emit_all (flat_map (pending_round (requestId requestInfo)) pendings)
                       (emit_all (opening imports requestInfo) st)))))
    as (new & Hst & _).
  split; [|by rewrite Hst].
  unfold login_finish. by destruct (getCurrentUser world (key info)).
Qed.

Lemma login_keeps_accepted_key_witness :
  (login plain accepted_then_down initial).1
  = Failed (HttpError 503 (lit "Service Unavailable"))
  /\ credentials (login plain accepted_then_down initial).2
     = Some {| id := lit "1"; key := lit "secret" |}.
Proof.
  refine (login_keeps_accepted_key plain accepted_then_down
            {| requestId := lit "request-1"; confirmationCode := lit "ABCD1234" |}
            [{| status := lit "pending"; apiKey := KNull |}]
            {| id := lit "1"; key := lit "secret" |} [] initial
            eq_refl eq_refl _).
  by repeat constructor.
Defined.

Lemma fold_left_emit (lines : list jsstring) (st : State) :
  fold_left (fun st line => emit (LoggerLog line) st) lines st
  = emit_all (map LoggerLog lines) st.
Proof.
  revert st. induction lines as [|line lines IH]; intros st; simpl.
  - by rewrite emit_all_nil.
  - by rewrite IH, emit_one, emit_all_app.
Qed.

Lemma fold_left_workspaces (workspaces : list Account) (st : State) :
  fold_left (fun st workspace =>
               emit (LoggerLog (lit " * " ++ formatUser workspace)) st)
            workspaces st
  = emit_all (map LoggerLog
                (map (fun workspace => lit " * " ++ formatUser workspace) workspaces))
             st.
Proof.
  rewrite <- fold_left_emit.
  revert st. induction workspaces as [|workspace workspaces IH]; intros st;
    [done|]. simpl. by rewrite IH.
Qed.

(** [whoami] only reads: it leaves the credential store alone, asks
    for the configured key first, asks the user endpoint at most once,
    with that key, and does nothing else but log; when it fails,
    nothing has been logged. *)
Theorem whoami_only_reads (imports : Imports) (world : World) (st : State) :
  credentials (whoami imports world st).2 = credentials st
  /\ exists new,
       (whoami imports world st).2 = emit_all (GetObservableApiKey :: new) st
       /\ match getObservableApiKey world (credentials st) with
          | Thrown e => new = [] /\ (whoami imports world st).1 = Failed e
          | Ok apiKey =>
              exists lines,
                new = GetCurrentUser (apiKey_key apiKey) :: map LoggerLog lines
                /\ ((whoami imports world st).1 = Completed /\ lines <> []
                    \/ (exists e, (whoami imports world st).1 = Failed e)
                       /\ lines = [])
          end.
Proof.
  assert (Hnew : exists new,
       (whoami imports world st).2 = emit_all (GetObservableApiKey :: new) st
       /\ match getObservableApiKey world (credentials st) with
          | Thrown e => new = [] /\ (whoami imports world st).1 = Failed e
          | Ok apiKey =>
              exists lines,
                new = GetCurrentUser (apiKey_key apiKey) :: map LoggerLog lines
                /\ ((whoami imports world st).1 = Completed /\ lines <> []
                    \/ (exists e, (whoami imports world st).1 = Failed e)
                       /\ lines = [])
          end).
  { unfold whoami. cbv zeta.
    change (credentials (emit GetObservableApiKey st)) with (credentials st).
    destruct (getObservableApiKey world (credentials st)) as [apiKey|e].
    2:{ exists []. by rewrite emit_one. }
    destruct (getCurrentUser world (apiKey_key apiKey)) as [user|error].
    - exists (GetCurrentUser (apiKey_key apiKey)
              :: map LoggerLog
                   ([[];
                     lit "You are logged into " ++ hostname imports ++ lit " as "
                     ++ formatUser (account user) ++ lit ".";
                     [];
                     lit "You have access to the following workspaces:"]
                    ++ map (fun workspace => lit " * " ++ formatUser workspace)
                         (workspaces user)
                    ++ [[]])).
      split.
      + cbn [snd]. rewrite fold_left_workspaces, !emit_one, !emit_all_app.
        by rewrite !map_app.
      + eexists. split; [done|]. by left.
    - unfold whoami_catch. destruct (is_http_401 error).
      + destruct (eqb (source apiKey) (lit "env"));
          [|destruct (eqb (source apiKey) (lit "file"))];
          (eexists (_ :: map LoggerLog [_]);
           split; [cbn [snd]; by rewrite !emit_one, !emit_all_app|];
           eexists; split; [done|by left]).
      + exists [GetCurrentUser (apiKey_key apiKey)].
        rewrite !emit_one, !emit_all_app. split; [done|].
        exists []. split; [done|]. right. split; [by eexists|done]. }
  destruct Hnew as (new & Hst & Hshape).
  split; [by rewrite Hst|]. by exists new.
Qed.

(** When the user endpoint answers, [whoami] completes and logs, in
    this order: a blank line, who is logged in, a blank line, the
    heading, one line per workspace in the order of the answer, and a
    blank line. *)
Theorem whoami_lists_workspaces (imports : Imports) (world : World)
    (st : State) (apiKey : ApiKey) (user : User) :
  getObservableApiKey world (credentials st) = Ok apiKey ->
  getCurrentUser world (apiKey_key apiKey) = Ok user ->
  whoami imports world st
  = (Completed,
     emit_all
       ([GetObservableApiKey; GetCurrentUser (apiKey_key apiKey)]
        ++ map LoggerLog
             ([[];
               lit "You are logged into " ++ hostname imports ++ lit " as "
               ++ formatUser (account user) ++ lit ".";
               [];
               lit "You have access to the following workspaces:"]
              ++ map (fun workspace => lit " * " ++ formatUser workspace)
                   (workspaces user)
              ++ [[]]))
       st).
Proof.
  intros Hkey Huser. unfold whoami. cbv zeta.
  change (credentials (emit GetObservableApiKey st)) with (credentials st).
  rewrite Hkey, Huser, fold_left_workspaces, !emit_one, !emit_all_app.
  by rewrite !map_app.
Qed.

Lemma whoami_lists_workspaces_witness :
  whoami plain two_workspaces initial
  = (Completed,
     {| events :=
          [GetObservableApiKey; GetCurrentUser (lit "secret");
           LoggerLog [];
           LoggerLog (lit "You are logged into observablehq.com as Ada (@ada).");
           LoggerLog [];
           LoggerLog (lit "You have access to the following workspaces:");
           LoggerLog (lit " * Ada (@ada)");
           LoggerLog (lit " * @acme");
           LoggerLog []];
        credentials := None |}).
Proof.
  exact (whoami_lists_workspaces plain two_workspaces initial
           {| source := lit "file"; apiKey_key := lit "secret"; envVar := None |}
           {| account := {| name := Some (lit "Ada"); login_ := lit "ada" |};
              workspaces :=
                [{| name := Some (lit "Ada"); login_ := lit "ada" |};
                 {| name := None; login_ := lit "acme" |}] |}
           eq_refl eq_refl).
Defined.

End SessionFacts.

(** ** The project title *)

Module TitleFacts.
Import Js Template Path Create Scaffold JsFacts TemplateFacts ScaffoldFacts.

Lemma basename_last_segment (before name slashes : jsstring) :
  up_to_slash before ->
  name <> [] ->
  Forall (fun c => is_slash c = false) name ->
  Forall (fun c => is_slash c = true) slashes ->
  basename (before ++ name ++ slashes) = name.
Proof.
  intros Hbefore Hne Hname Hslashes. unfold basename.
  rewrite !rev_app_distr, <- app_assoc.
  rewrite drop_while_run by (by apply Forall_rev).
  assert (Hbare : Forall (fun c => not_slash c = true) (rev name)).
  { apply Forall_rev. eapply Forall_impl; [done|].
    intros c Hc. unfold not_slash, is_slash in *. by rewrite Hc. }
  assert (drop_while is_slash (rev name ++ rev before) = rev name ++ rev before)
    as ->.
  { destruct (rev name) as [|x r] eqn:E.
    - apply (f_equal (@rev N)) in E. rewrite rev_involutive in E. done.
    - inversion Hbare as [|? ? Hx _]; subst. simpl.
      unfold not_slash in Hx. unfold is_slash.
      by destruct (x =? 47)%N. }
  rewrite take_while_run by done.
  assert (take_while not_slash (rev before) = []) as ->.
  { destruct Hbefore as [-> | [b ->]]; [done|].
    by rewrite rev_app_distr. }
  by rewrite app_nil_r, rev_involutive.
Qed.

(** The project title is the last segment of the answered path: what
    stands after its last slash, trailing slashes left aside; this is
    what the placeholder [projectTitle] is replaced with. *)
Theorem projectTitle_is_last_segment (answers : Answers)
    (before name slashes : jsstring) :
  rootPath answers = before ++ name ++ slashes ->
  up_to_slash before ->
  name <> [] ->
  Forall (fun c => is_slash c = false) name ->
  Forall (fun c => is_slash c = true) slashes ->
  context answers !! lit "projectTitle" = Some name
  /\ replacer (context answers) (lit "projectTitle") = Ok name
  /\ context answers !! lit "projectTitleString" = Some (JSON_stringify name).
Proof.
  intros Hpath Hbefore Hne Hname Hslashes.
  pose proof (basename_last_segment _ _ _ Hbefore Hne Hname Hslashes) as Hbase.
  rewrite <- Hpath in Hbase.
  assert (Htitle : context answers !! lit "projectTitle" = Some name).
  { unfold context. do 3 (rewrite lookup_insert_ne by done).
    by rewrite lookup_insert_eq, Hbase. }
  split_and!; [done| |].
  - rewrite (replacer_own _ _ _ Htitle). by apply eqb_neq in Hne as ->.
  - unfold context. do 4 (rewrite lookup_insert_ne by done).
    by rewrite lookup_insert_eq, Hbase.
Qed.

Lemma projectTitle_is_last_segment_witness :
  context sample_answers !! lit "projectTitle" = Some (lit "hello-framework")
  /\ replacer (context sample_answers) (lit "projectTitle")
     = Ok (lit "hello-framework")
  /\ context sample_answers !! lit "projectTitleString"
     = Some (JSON_stringify (lit "hello-framework")).
Proof.
  refine (projectTitle_is_last_segment sample_answers (lit "./")
            (lit "hello-framework") [] eq_refl _ _ _ _).
  - right. by exists (lit ".").
  - done.
  - by repeat constructor.
  - constructor.
Defined.

End TitleFacts.
